(** * diesel.protocols.redis: a shallow embedding of the Redis client

    The development follows [diesel/protocols/redis.py]: the RESP codec
    ([_encode], [_send], [_get_response]), the command methods of
    [RedisClient], the transaction and lock context managers
    ([RedisTransaction], [RedisLock]) and the subscription hub
    ([RedisSubHub]).

    Python [bytes] are lists of [byte]; Python [str] is a list of code
    points; the connection is an explicit state (unread input, log of the
    chunks handed to [send], a script that says when the wake signal wins
    the race in [first]).  Calls are computations in a small monad with
    three outcomes: a normal return, a raised exception, or a task that
    stays suspended because the input it waits for never arrives. *)

From Stdlib Require Import String Ascii Strings.Byte DecimalString.
From Stdlib Require Import ZArith NArith Lia Bool List.
From Stdlib Require DecimalNat DecimalPos DecimalZ.
Import ListNotations.
Open Scope Z_scope.

(* ===================================================================== *)
(** ** Bytes and text *)
(* ===================================================================== *)

Definition bytes := list byte.

(** Python [str]: a sequence of Unicode code points. *)
Definition text := list N.

Definition bs (s : string) : bytes := list_byte_of_string s.

Definition txt (s : string) : text :=
  map (fun b => Byte.to_N b) (list_byte_of_string s).

Definition CRLF : bytes := [x0d; x0a].

Definition byte_of_N (n : N) : byte :=
  match Byte.of_N n with Some b => b | None => x00 end.

(** Text made of ASCII characters only, and the bytes that spell it. *)
Definition ascii_text (t : text) : bool := forallb (fun cp => cp <? 128)%N t.

Definition ascii_bytes (t : text) : bytes := map byte_of_N t.

Definition bytes_eqb (a b : bytes) : bool :=
  if list_eq_dec Byte.byte_eq_dec a b then true else false.

Definition text_eqb (a b : text) : bool :=
  if list_eq_dec N.eq_dec a b then true else false.

(** [needle in haystack] for a one-byte needle, as in [b'*' in glob]. *)
Definition contains (c : byte) (s : bytes) : bool :=
  existsb (Byte.eqb c) s.

(** ASCII whitespace as [bytes.strip()] and [int()] understand it. *)
Definition is_space (c : byte) : bool :=
  match c with
  | x20 | x09 | x0a | x0b | x0c | x0d => true
  | _ => false
  end.

Fixpoint lstrip (s : bytes) : bytes :=
  match s with
  | c :: s' => if is_space c then lstrip s' else s
  | [] => []
  end.

Definition rstrip (s : bytes) : bytes := rev (lstrip (rev s)).

(** [s.strip()] *)
Definition strip (s : bytes) : bytes := rstrip (lstrip s).

(** [s[1:]] *)
Definition drop1 {A} (s : list A) : list A := tl s.

(** [str(n)] for an integer, and ['%s' % n]. *)
Definition str_int (z : Z) : text :=
  txt (NilZero.string_of_int (Z.to_int z)).

(** [('%s' % n).encode()] for a length: decimal ASCII digits. *)
Definition dec_bytes (n : nat) : bytes :=
  bs (NilZero.string_of_uint (Nat.to_uint n)).

Definition digit_val (c : byte) : option Z :=
  match c with
  | x30 => Some 0 | x31 => Some 1 | x32 => Some 2 | x33 => Some 3
  | x34 => Some 4 | x35 => Some 5 | x36 => Some 6 | x37 => Some 7
  | x38 => Some 8 | x39 => Some 9
  | _ => None
  end.

(** Decimal digits, where a single underscore may stand between two
    digits; [after_digit] says whether the byte just read was a digit. *)
Fixpoint digits_val (acc : Z) (after_digit : bool) (s : bytes) : option Z :=
  match s with
  | [] => if after_digit then Some acc else None
  | c :: s' =>
      match digit_val c with
      | Some d => digits_val (10 * acc + d) true s'
      | None =>
          if Byte.eqb c "_" && after_digit then digits_val acc false s'
          else None
      end
  end.

(** [int(s)] on a bytes object: surrounding whitespace is ignored, an
    optional sign, then decimal digits.  [None] stands for the
    [ValueError] Python raises on anything else. *)
Definition int_of_bytes (s : bytes) : option Z :=
  match strip s with
  | x2d :: ds => option_map Z.opp (digits_val 0 false ds)
  | x2b :: ds => digits_val 0 false ds
  | ds => digits_val 0 false ds
  end.

(* ===================================================================== *)
(** ** Values, exceptions, outcomes *)
(* ===================================================================== *)

(** What one element of a reply can be: [None], an [int], a [bytes]
    object, or a [str] when [decode_responses] is set. *)
Inductive atom :=
| ANone
| AInt (z : Z)
| ABytes (b : bytes)
| AStr (t : text).

(** What [_get_response] returns: a scalar, or a list of scalars (the
    decoder reads one level of array). *)
Inductive reply :=
| Scalar (a : atom)
| Multi (l : list atom).

Definition RNone : reply := Scalar ANone.

Definition atom_eq_dec (a b : atom) : {a = b} + {a <> b}.
Proof.
  decide equality.
  - apply Z.eq_dec.
  - apply (list_eq_dec Byte.byte_eq_dec).
  - apply (list_eq_dec N.eq_dec).
Defined.

Definition reply_eq_dec (a b : reply) : {a = b} + {a <> b}.
Proof.
  decide equality.
  - apply atom_eq_dec.
  - apply (list_eq_dec atom_eq_dec).
Defined.

(** Truth value of a reply, as [if r:] tests it. *)
Definition atom_truthy (a : atom) : bool :=
  match a with
  | ANone => false
  | AInt z => negb (z =? 0)
  | ABytes b => match b with [] => false | _ => true end
  | AStr t => match t with [] => false | _ => true end
  end.

Definition truthy (r : reply) : bool :=
  match r with
  | Scalar a => atom_truthy a
  | Multi l => match l with [] => false | _ => true end
  end.

(** [r is None] *)
Definition is_None (r : reply) : bool :=
  match r with Scalar ANone => true | _ => false end.

(** [a == b] for a bytes object [b]: only an equal bytes object is equal
    to it. *)
Definition atom_eq_bytes (a : atom) (b : bytes) : bool :=
  match a with ABytes b' => bytes_eqb b' b | _ => false end.

Definition reply_eq_bytes (r : reply) (b : bytes) : bool :=
  match r with Scalar a => atom_eq_bytes a b | Multi _ => false end.

Inductive exn :=
| RedisError (msg : bytes)
| RedisTransactionError (msg : text)
| LockNotAcquired
| AssertionError (info : list reply)
| IndexError
| ValueError
| TypeError
| KeyError
| UnicodeError
| LookupError
| OtherError (name : text).

Inductive outcome (A : Type) :=
| Return (a : A)
| Raise (e : exn)
| Blocked.

Arguments Return {A} a.
Arguments Raise {A} e.
Arguments Blocked {A}.

(* ===================================================================== *)
(** ** The connection and the monad of calls *)
(* ===================================================================== *)

(** [inbuf]: the bytes the server sends, not yet read.  [sent]: the
    chunks passed to [send], oldest first.  [wakes]: one entry per call
    of [first(until_eol=True, waits=[sig])]; [true] when the signal is
    delivered before a line (an empty script means the signal never
    fires). *)
Record conn := mkConn {
  inbuf : bytes;
  sent : list bytes;
  wakes : list bool
}.

Definition M (A : Type) := conn -> outcome A * conn.

Definition ret {A} (a : A) : M A := fun c => (Return a, c).

Definition raise {A} (e : exn) : M A := fun c => (Raise e, c).

Definition bind {A B} (m : M A) (k : A -> M B) : M B :=
  fun c =>
    match m c with
    | (Return a, c') => k a c'
    | (Raise e, c') => (Raise e, c')
    | (Blocked, c') => (Blocked, c')
    end.

Declare Scope redis_scope.
Delimit Scope redis_scope with redis.
Notation "x <- m ;; k" := (bind m (fun x => k))
  (at level 61, m at next level, right associativity) : redis_scope.
Notation "m ;;; k" := (bind m (fun _ => k))
  (at level 61, right associativity) : redis_scope.
Open Scope redis_scope.

(** [try: m  except: h] *)
Definition try_except {A} (m : M A) (h : exn -> M A) : M A :=
  fun c =>
    match m c with
    | (Raise e, c') => h e c'
    | r => r
    end.

Definition of_option {A} (e : exn) (o : option A) : M A :=
  match o with Some a => ret a | None => raise e end.

Definition of_sum {A} (s : exn + A) : M A :=
  match s with inr a => ret a | inl e => raise e end.

(** The bytes written to the wire: the chunks of the log in order. *)
Definition wire (c : conn) : bytes := concat (sent c).

(* ===================================================================== *)
(** ** What the module takes from outside *)
(* ===================================================================== *)

(** The module imports [until_eol], [receive], [send], [first], [fork]
    and [sleep] from [diesel.core] and uses Python's text codecs and
    [str]/[repr].  None of that is code of this module, so it is a
    parameter of the development:
    - floats and arbitrary objects with their [repr]/[str] and truth
      value, [float(x)] and [int(x)] on text, and
      [time.mktime(when.timetuple())] on a datetime;
    - [s.encode(encoding, errors)] and [b.decode(encoding)], which raise
      on text they cannot convert;
    - whether the line returned by [until_eol] still carries its CRLF
      (the code is written so that either works: it strips the line or
      passes it to [int]). *)
Class Env := {
  pyfloat : Type;
  float_repr : pyfloat -> text;
  float_truthy : pyfloat -> bool;
  float_of_Z : Z -> option pyfloat;
  float_of_bytes : bytes -> option pyfloat;
  float_of_text : text -> option pyfloat;
  int_of_text : text -> option Z;
  pydatetime : Type;
  mktime : pydatetime -> exn + pyfloat;
  pyobj : Type;
  obj_str : pyobj -> text;
  obj_truthy : pyobj -> bool;
  str_encode : text -> text -> text -> exn + bytes;
  bytes_decode : text -> bytes -> exn + text;
  eol_kept : bool
}.

Section Client.

Context {E : Env}.

(** A value passed as a command argument. *)
Inductive arg :=
| ArgBytes (b : bytes)
| ArgBool (b : bool)
| ArgInt (z : Z)
| ArgFloat (f : pyfloat)
| ArgStr (t : text)
| ArgNone
| ArgObj (o : pyobj).

Definition arg_truthy (a : arg) : bool :=
  match a with
  | ArgBytes b => match b with [] => false | _ => true end
  | ArgBool b => b
  | ArgInt z => negb (z =? 0)
  | ArgFloat f => float_truthy f
  | ArgStr t => match t with [] => false | _ => true end
  | ArgNone => false
  | ArgObj o => obj_truthy o
  end.

(** The attributes [RedisClient.__init__] stores. *)
Record RedisClient := mkClient {
  password : arg;
  encoding : text;
  encoding_errors : text;
  decode_responses : bool
}.

(** *** Primitives of [diesel.core] *)

(** Splits at the first CRLF: the line without its terminator, and what
    follows the terminator. *)
Fixpoint split_eol (s : bytes) : option (bytes * bytes) :=
  match s with
  | [] => None
  | x :: s' =>
      match x, s' with
      | x0d, x0a :: s'' => Some ([], s'')
      | _, _ =>
          match split_eol s' with
          | Some (l, r) => Some (x :: l, r)
          | None => None
          end
      end
  end.

Definition set_inbuf (c : conn) (i : bytes) : conn :=
  mkConn i (sent c) (wakes c).

Definition set_wakes (c : conn) (w : list bool) : conn :=
  mkConn (inbuf c) (sent c) w.

(** [until_eol()]: the next line; the task stays suspended when no
    complete line arrives. *)
Definition until_eol : M bytes :=
  fun c =>
    match split_eol (inbuf c) with
    | Some (line, rest) =>
        (Return (if eol_kept then line ++ CRLF else line), set_inbuf c rest)
    | None => (Blocked, c)
    end.

(** [receive(n)]: exactly [n] bytes (none for [n <= 0]). *)
Definition receive (n : Z) : M bytes :=
  fun c =>
    let k := Z.to_nat n in
    if (k <=? length (inbuf c))%nat
    then (Return (firstn k (inbuf c)), set_inbuf c (skipn k (inbuf c)))
    else (Blocked, c).

(** [send(data)] *)
Definition send (data : bytes) : M unit :=
  fun c => (Return tt, mkConn (inbuf c) (sent c ++ [data]) (wakes c)).

(** The event [first(until_eol=True, waits=[sig])] reports: a line, or
    the signal. *)
Inductive first_event :=
| EvUntilEol (val : bytes)
| EvWait.

Definition first_until_eol : M first_event :=
  fun c =>
    match wakes c with
    | true :: w => (Return EvWait, set_wakes c w)
    | false :: w => (line <- until_eol ;; ret (EvUntilEol line)) (set_wakes c w)
    | [] => (line <- until_eol ;; ret (EvUntilEol line)) c
    end.

(** *** [RedisClient._decode_response] (lines 42-50) *)

Definition _decode_response (self : RedisClient) (resp : atom) : M atom :=
  match resp with
  | ABytes b =>
      if decode_responses self
      then t <- of_sum (bytes_decode (encoding self) b) ;; ret (AStr t)
      else ret resp
  | AStr _ | ANone => ret resp
  | AInt _ => ret ANone (* the [pdb.set_trace()] branch falls off the end *)
  end.

(** *** [RedisClient._encode] (lines 52-64) *)

Definition str_bool (b : bool) : text :=
  if b then txt "True" else txt "False".

(** The first four branches: bytes are returned as they are, everything
    else becomes text. *)
Definition _encode_text (value : arg) : bytes + text :=
  match value with
  | ArgBytes b => inl b
  | ArgInt z => inr (str_int z)
  | ArgBool b => inr (str_bool b)
  | ArgFloat f => inr (float_repr f)
  | ArgStr t => inr t
  | ArgNone => inr (txt "None")
  | ArgObj o => inr (obj_str o)
  end.

Definition _encode (self : RedisClient) (value : arg) : exn + bytes :=
  match _encode_text value with
  | inl b => inr b
  | inr t => str_encode (encoding self) (encoding_errors self) t
  end.

(** [tuple(map(self._encode, values))]: the first failure is raised. *)
Fixpoint encode_all (self : RedisClient) (values : list arg)
  : exn + list bytes :=
  match values with
  | [] => inr []
  | v :: vs =>
      match _encode self v with
      | inl e => inl e
      | inr b =>
          match encode_all self vs with
          | inl e => inl e
          | inr bs' => inr (b :: bs')
          end
      end
  end.

(** *** [RedisClient._send] (lines 808-814) *)

Definition bulk_frame (i : bytes) : bytes :=
  bs "$" ++ dec_bytes (length i) ++ CRLF ++ i ++ CRLF.

Fixpoint send_each (all : list bytes) : M unit :=
  match all with
  | [] => ret tt
  | i :: rest => send (bulk_frame i) ;;; send_each rest
  end.

(** [_send(cmd, *args, **kwargs)]; [kw_list] is the [list=] keyword. *)
Definition _send (self : RedisClient) (cmd : arg) (args : list arg)
    (kw_list : option (list arg)) : M unit :=
  let args := match kw_list with Some l => l | None => args end in
  all <- of_sum (encode_all self (cmd :: args)) ;;
  send (bs "*" ++ dec_bytes (length all) ++ CRLF) ;;;
  send_each all.

(** *** [RedisClient._get_response] (lines 816-861) *)

(** [chr(bytes(s)[0])] *)
Definition first_byte (s : bytes) : M byte :=
  match s with
  | c :: _ => ret c
  | [] => raise IndexError
  end.

(** [int(s)] *)
Definition int_ (s : bytes) : M Z := of_option ValueError (int_of_bytes s).

(** [if wake_sig:] *)
Definition sig_truthy (wake_sig : option text) : bool :=
  match wake_sig with
  | Some (_ :: _) => true
  | _ => false
  end.

(** One turn of [for x in range(count)], repeated [n] times. *)
Fixpoint read_elements (self : RedisClient) (n : nat) (resp : list atom)
  : M (list atom) :=
  match n with
  | O => ret resp
  | S n' =>
      hl <- until_eol ;;
      c_hl <- first_byte hl ;;
      if negb (Byte.eqb c_hl "$" || Byte.eqb c_hl ":" || Byte.eqb c_hl "+")
      then raise (AssertionError [Scalar (AStr [Byte.to_N c_hl])])
      else if Byte.eqb c_hl "$" then
        l <- int_ (drop1 hl) ;;
        if l =? -1 then read_elements self n' (resp ++ [ANone])
        else
          data <- receive l ;;
          a <- _decode_response self (ABytes data) ;;
          until_eol ;;;
          read_elements self n' (resp ++ [a])
      else if Byte.eqb c_hl ":" then
        z <- int_ (drop1 hl) ;;
        read_elements self n' (resp ++ [AInt z])
      else
        a <- _decode_response self (ABytes (strip (drop1 hl))) ;;
        read_elements self n' (resp ++ [a])
  end.

(** What follows once the first line [fl] is known. *)
Definition decode_line (self : RedisClient) (fl : bytes) : M reply :=
  c <- first_byte fl ;;
  if Byte.eqb c "+" then
    a <- _decode_response self (ABytes (drop1 fl)) ;; ret (Scalar a)
  else if Byte.eqb c "$" then
    l <- int_ (drop1 fl) ;;
    if l =? -1 then
      a <- _decode_response self ANone ;; ret (Scalar a)
    else
      resp <- receive l ;;
      until_eol ;;;
      a <- _decode_response self (ABytes resp) ;; ret (Scalar a)
  else if Byte.eqb c "*" then
    count <- int_ (drop1 fl) ;;
    if count =? -1 then ret RNone
    else l <- read_elements self (Z.to_nat count) [] ;; ret (Multi l)
  else if Byte.eqb c ":" then
    z <- int_ (drop1 fl) ;; ret (Scalar (AInt z))
  else if Byte.eqb c "-" then
    raise (RedisError (drop1 fl))
  else ret RNone.

Definition _get_response (self : RedisClient) (wake_sig : option text)
  : M reply :=
  if sig_truthy wake_sig then
    ev <- first_until_eol ;;
    match ev with
    | EvWait => ret RNone
    | EvUntilEol val => decode_line self (strip val)
    end
  else
    line <- until_eol ;;
    decode_line self (strip line).

(* ===================================================================== *)
(** ** Python built-ins applied to replies *)
(* ===================================================================== *)

(** What a command method returns.  [VSetOf l] is [set(l)], [VDictOf l]
    and [VDictOfArgs l] are [dict(l)], written as the sequence they are
    built from. *)
Inductive pyval :=
| VReply (r : reply)
| VBool (b : bool)
| VFloat (f : pyfloat)
| VTuple (l : list atom)
| VSetOf (l : list atom)
| VDictOf (l : list (atom * atom))
| VDictOfArgs (l : list (arg * atom))
| VScores (l : list (atom * pyfloat)).

Definition VNone : pyval := VReply RNone.

(** The reply a method handed back unchanged. *)
Definition reply_of (v : pyval) : reply :=
  match v with VReply r => r | _ => RNone end.

(** [v is None] *)
Definition val_is_None (v : pyval) : bool :=
  match v with VReply r => is_None r | _ => false end.

(** [if v:] for the values a command method returns as they are. *)
Definition val_truthy (v : pyval) : bool :=
  match v with
  | VReply r => truthy r
  | VBool b => b
  | VFloat f => float_truthy f
  | VTuple l | VSetOf l => match l with [] => false | _ => true end
  | VDictOf l => match l with [] => false | _ => true end
  | VDictOfArgs l => match l with [] => false | _ => true end
  | VScores l => match l with [] => false | _ => true end
  end.

(** [v == b] for a bytes object [b]. *)
Definition val_eq_bytes (v : pyval) (b : bytes) : bool :=
  match v with VReply r => reply_eq_bytes r b | _ => false end.

(** The elements of a reply seen as a sequence: a list has its items, a
    bytes object its byte values, a text its characters; [None] and
    integers are no sequence. *)
Definition as_sequence (r : reply) : option (list atom) :=
  match r with
  | Multi l => Some l
  | Scalar (ABytes b) => Some (map (fun x => AInt (Z.of_N (Byte.to_N x))) b)
  | Scalar (AStr t) => Some (map (fun ch => AStr [ch]) t)
  | Scalar ANone | Scalar (AInt _) => None
  end.

(** [r == z] for an integer [z]. *)
Definition reply_eq_int (r : reply) (z : Z) : bool :=
  match r with Scalar (AInt z') => z' =? z | _ => false end.

(** [len(r)] *)
Definition py_len (r : reply) : M nat :=
  match as_sequence r with
  | Some l => ret (length l)
  | None => raise TypeError
  end.

(** [tuple(r)] *)
Definition py_tuple (r : reply) : M pyval :=
  match as_sequence r with
  | Some l => ret (VTuple l)
  | None => raise TypeError
  end.

(** [set(r)] *)
Definition py_set (r : reply) : M pyval :=
  match as_sequence r with
  | Some l => ret (VSetOf l)
  | None => raise TypeError
  end.

(** [int(r)] *)
Definition py_int (r : reply) : M pyval :=
  match r with
  | Scalar (AInt z) => ret (VReply r)
  | Scalar (ABytes b) => z <- int_ b ;; ret (VReply (Scalar (AInt z)))
  | Scalar (AStr t) =>
      z <- of_option ValueError (int_of_text t) ;;
      ret (VReply (Scalar (AInt z)))
  | Scalar ANone | Multi _ => raise TypeError
  end.

(** [float(a)] *)
Definition float_atom (a : atom) : M pyfloat :=
  match a with
  | AInt z => of_option (OtherError (txt "OverflowError")) (float_of_Z z)
  | ABytes b => of_option ValueError (float_of_bytes b)
  | AStr t => of_option ValueError (float_of_text t)
  | ANone => raise TypeError
  end.

Definition py_float (r : reply) : M pyval :=
  match r with
  | Scalar a => f <- float_atom a ;; ret (VFloat f)
  | Multi _ => raise TypeError
  end.

(** [[(s[x], float(s[x+1])) for x in range(0, len(s), 2)]] *)
Fixpoint pair_scores (s : list atom) : M (list (atom * pyfloat)) :=
  match s with
  | [] => ret []
  | a :: s' =>
      match s' with
      | [] => raise IndexError
      | b :: s'' =>
          f <- float_atom b ;;
          rest <- pair_scores s'' ;;
          ret ((a, f) :: rest)
      end
  end.

(** [RedisClient.__pair_with_scores] *)
Definition __pair_with_scores (resp : reply) : M pyval :=
  match as_sequence resp with
  | Some s => l <- pair_scores s ;; ret (VScores l)
  | None => raise TypeError
  end.

(** The slices [s[x:x+2]] for [x in range(0, len(s), 2)], each read as a
    (key, value) item; [None] when the last slice holds one element. *)
Fixpoint pairs_of (s : list atom) : option (list (atom * atom)) :=
  match s with
  | [] => Some []
  | a :: s' =>
      match s' with
      | [] => None
      | b :: s'' => option_map (cons (a, b)) (pairs_of s'')
      end
  end.

(** [d.items()] for a mapping given by its items in iteration order. *)
Definition items (d : list (arg * arg)) : list (list arg) :=
  map (fun kv => [fst kv; snd kv]) d.

(** [flatten_arg_pairs] *)
Definition flatten_arg_pairs (l : list (list arg)) : list arg :=
  fold_left (fun o i => o ++ i) l [].

(** A command name written as a text literal. *)
Definition cmd (name : string) : arg := ArgStr (txt name).

(** [_send] applied to an unpacked argument tuple, whose first element is
    the command. *)
Definition send_star (self : RedisClient) (args : list arg) : M unit :=
  match args with
  | c :: rest => _send self c rest None
  | [] => raise TypeError
  end.

(* ===================================================================== *)
(** ** The command methods of [RedisClient] (lines 66-806) *)
(* ===================================================================== *)

End Client.

Module Cmd.

Section Methods.

Context {E : Env}.

Definition auth (self : RedisClient) : M pyval :=
  _send self (cmd "AUTH") [password self] None ;;;
  resp <- _get_response self None ;;
  ret (VBool (truthy resp)).

Definition exists_ (self : RedisClient) (k : arg) : M pyval :=
  _send self (cmd "EXISTS") [k] None ;;;
  resp <- _get_response self None ;;
  ret (VBool (truthy resp)).

Definition delete (self : RedisClient) (k : arg) : M pyval :=
  _send self (cmd "DEL") [k] None ;;;
  resp <- _get_response self None ;;
  ret (VBool (truthy resp)).

Definition type (self : RedisClient) (k : arg) : M pyval :=
  _send self (cmd "TYPE") [k] None ;;;
  resp <- _get_response self None ;;
  ret (VReply resp).

Definition keys (self : RedisClient) (pat : arg) : M pyval :=
  _send self (cmd "KEYS") [pat] None ;;;
  resp <- _get_response self None ;;
  py_set resp.

Definition randomkey (self : RedisClient) : M pyval :=
  _send self (cmd "RANDOMKEY") [] None ;;;
  resp <- _get_response self None ;;
  ret (VReply resp).

Definition rename (self : RedisClient) (old : arg) (new : arg) : M pyval :=
  _send self (cmd "RENAME") [old; new] None ;;;
  resp <- _get_response self None ;;
  ret (VReply resp).

Definition renamenx (self : RedisClient) (old : arg) (new : arg) : M pyval :=
  _send self (cmd "RENAMENX") [old; new] None ;;;
  resp <- _get_response self None ;;
  ret (VReply resp).

Definition dbsize (self : RedisClient) : M pyval :=
  _send self (cmd "DBSIZE") [] None ;;;
  resp <- _get_response self None ;;
  ret (VReply resp).

Definition expire (self : RedisClient) (key : arg) (seconds : arg) : M pyval :=
  _send self (cmd "EXPIRE") [key; seconds] None ;;;
  resp <- _get_response self None ;;
  ret (VReply resp).

Definition expireat (self : RedisClient) (key : arg) (when : pydatetime)
  : M pyval :=
  unix_time <- of_sum (mktime when) ;;
  _send self (cmd "EXPIREAT") [key; ArgFloat unix_time] None ;;;
  resp <- _get_response self None ;;
  ret (VReply resp).

Definition ttl (self : RedisClient) (key : arg) : M pyval :=
  _send self (cmd "TTL") [key] None ;;;
  resp <- _get_response self None ;;
  if reply_eq_int resp (-1) then ret VNone else py_int resp.

Definition select (self : RedisClient) (idx : arg) : M pyval :=
  _send self (cmd "SELECT") [idx] None ;;;
  resp <- _get_response self None ;;
  ret (VReply resp).

Definition move (self : RedisClient) (key : arg) (idx : arg) : M pyval :=
  _send self (cmd "MOVE") [key; idx] None ;;;
  ret VNone.

Definition flushdb (self : RedisClient) : M pyval :=
  _send self (cmd "FLUSHDB") [] None ;;;
  resp <- _get_response self None ;;
  ret (VReply resp).

Definition flushall (self : RedisClient) : M pyval :=
  _send self (cmd "FLUSHALL") [] None ;;;
  resp <- _get_response self None ;;
  ret (VReply resp).

Definition multi (self : RedisClient) : M pyval :=
  _send self (cmd "MULTI") [] None ;;;
  resp <- _get_response self None ;;
  ret (VReply resp).

Definition exec_ (self : RedisClient) : M pyval :=
  _send self (cmd "EXEC") [] None ;;;
  resp <- _get_response self None ;;
  ret (VReply resp).

Definition discard (self : RedisClient) : M pyval :=
  _send self (cmd "DISCARD") [] None ;;;
  resp <- _get_response self None ;;
  ret (VReply resp).

Definition watch (self : RedisClient) (keys : list arg) : M pyval :=
  _send self (cmd "WATCH") [] (Some keys) ;;;
  resp <- _get_response self None ;;
  ret (VReply resp).

Definition set (self : RedisClient) (k : arg) (v : arg) : M pyval :=
  _send self (cmd "SET") [k; v] None ;;;
  resp <- _get_response self None ;;
  ret (VReply resp).

Definition get (self : RedisClient) (k : arg) : M pyval :=
  _send self (cmd "GET") [k] None ;;;
  resp <- _get_response self None ;;
  ret (VReply resp).

Definition getset (self : RedisClient) (k : arg) (v : arg) : M pyval :=
  _send self (cmd "GETSET") [k; v] None ;;;
  resp <- _get_response self None ;;
  ret (VReply resp).

Definition mget (self : RedisClient) (keylist : list arg) : M pyval :=
  _send self (cmd "MGET") [] (Some keylist) ;;;
  resp <- _get_response self None ;;
  ret (VReply resp).

Definition setnx (self : RedisClient) (k : arg) (v : arg) : M pyval :=
  _send self (cmd "SETNX") [k; v] None ;;;
  resp <- _get_response self None ;;
  ret (VReply resp).

Definition setex (self : RedisClient) (k : arg) (tm : arg) (v : arg)
  : M pyval :=
  _send self (cmd "SETEX") [k; tm; v] None ;;;
  resp <- _get_response self None ;;
  ret (VReply resp).

Definition mset (self : RedisClient) (d : list (arg * arg)) : M pyval :=
  _send self (cmd "MSET") [] (Some (flatten_arg_pairs (items d))) ;;;
  resp <- _get_response self None ;;
  ret (VReply resp).

Definition msetnx (self : RedisClient) (d : list (arg * arg)) : M pyval :=
  _send self (cmd "MSETNX") [] (Some (flatten_arg_pairs (items d))) ;;;
  resp <- _get_response self None ;;
  ret (VReply resp).

Definition incr (self : RedisClient) (k : arg) : M pyval :=
  _send self (cmd "INCR") [k] None ;;;
  resp <- _get_response self None ;;
  ret (VReply resp).

Definition incrby (self : RedisClient) (k : arg) (amt : arg) : M pyval :=
  _send self (cmd "INCRBY") [k; amt] None ;;;
  resp <- _get_response self None ;;
  ret (VReply resp).

Definition decr (self : RedisClient) (k : arg) : M pyval :=
  _send self (cmd "DECR") [k] None ;;;
  resp <- _get_response self None ;;
  ret (VReply resp).

Definition decrby (self : RedisClient) (k : arg) (amt : arg) : M pyval :=
  _send self (cmd "DECRBY") [k; amt] None ;;;
  resp <- _get_response self None ;;
  ret (VReply resp).

Definition append (self : RedisClient) (k : arg) (value : arg) : M pyval :=
  _send self (cmd "APPEND") [k; value] None ;;;
  resp <- _get_response self None ;;
  ret (VReply resp).

Definition substr (self : RedisClient) (k : arg) (start : arg) (end_ : arg)
  : M pyval :=
  _send self (cmd "SUBSTR") [k; start; end_] None ;;;
  resp <- _get_response self None ;;
  ret (VReply resp).

Definition getbit (self : RedisClient) (k : arg) (offset : arg) : M pyval :=
  _send self (cmd "GETBIT") [k; offset] None ;;;
  resp <- _get_response self None ;;
  py_int resp.

Definition setbit (self : RedisClient) (k : arg) (offset : arg) (value : arg)
  : M pyval :=
  _send self (cmd "SETBIT") [k; offset; value] None ;;;
  resp <- _get_response self None ;;
  ret (VReply resp).

Definition strlen (self : RedisClient) (k : arg) : M pyval :=
  _send self (cmd "STRLEN") [k] None ;;;
  resp <- _get_response self None ;;
  py_int resp.

Definition rpush (self : RedisClient) (k : arg) (v : arg) : M pyval :=
  _send self (cmd "RPUSH") [k; v] None ;;;
  resp <- _get_response self None ;;
  ret (VReply resp).

Definition lpush (self : RedisClient) (k : arg) (v : arg) : M pyval :=
  _send self (cmd "LPUSH") [k; v] None ;;;
  resp <- _get_response self None ;;
  ret (VReply resp).

Definition llen (self : RedisClient) (k : arg) : M pyval :=
  _send self (cmd "LLEN") [k] None ;;;
  resp <- _get_response self None ;;
  ret (VReply resp).

Definition lrange (self : RedisClient) (k : arg) (start : arg) (end_ : arg)
  : M pyval :=
  _send self (cmd "LRANGE") [k; start; end_] None ;;;
  resp <- _get_response self None ;;
  ret (VReply resp).

Definition ltrim (self : RedisClient) (k : arg) (start : arg) (end_ : arg)
  : M pyval :=
  _send self (cmd "LTRIM") [k; start; end_] None ;;;
  resp <- _get_response self None ;;
  ret (VReply resp).

Definition lindex (self : RedisClient) (k : arg) (idx : arg) : M pyval :=
  _send self (cmd "LINDEX") [k; idx] None ;;;
  resp <- _get_response self None ;;
  ret (VReply resp).

Definition lset (self : RedisClient) (k : arg) (idx : arg) (v : arg)
  : M pyval :=
  _send self (cmd "LSET") [k; idx; v] None ;;;
  resp <- _get_response self None ;;
  ret (VReply resp).

Definition lrem (self : RedisClient) (k : arg) (v : arg) (count : arg)
  : M pyval :=
  _send self (cmd "LREM") [k; count; v] None ;;;
  resp <- _get_response self None ;;
  ret (VReply resp).

Definition lpop (self : RedisClient) (k : arg) : M pyval :=
  _send self (cmd "LPOP") [k] None ;;;
  resp <- _get_response self None ;;
  ret (VReply resp).

Definition rpop (self : RedisClient) (k : arg) : M pyval :=
  _send self (cmd "RPOP") [k] None ;;;
  resp <- _get_response self None ;;
  ret (VReply resp).

Definition blpop (self : RedisClient) (keylist : list arg) (timeout : arg)
  : M pyval :=
  _send self (cmd "BLPOP") [] (Some (keylist ++ [timeout])) ;;;
  resp <- _get_response self None ;;
  if truthy resp then
    n <- py_len resp ;;
    if negb (n =? 2)%nat then raise (AssertionError [])
    else py_tuple resp
  else ret VNone.

Definition brpop (self : RedisClient) (keylist : list arg) (timeout : arg)
  : M pyval :=
  _send self (cmd "BRPOP") [] (Some (keylist ++ [timeout])) ;;;
  resp <- _get_response self None ;;
  if truthy resp then
    n <- py_len resp ;;
    if negb (n =? 2)%nat then raise (AssertionError [])
    else py_tuple resp
  else ret VNone.

Definition rpoplpush (self : RedisClient) (src : arg) (dest : arg) : M pyval :=
  _send self (cmd "RPOPLPUSH") [src; dest] None ;;;
  resp <- _get_response self None ;;
  ret (VReply resp).

Definition sadd (self : RedisClient) (k : arg) (v : arg) : M pyval :=
  _send self (cmd "SADD") [k; v] None ;;;
  resp <- _get_response self None ;;
  ret (VReply resp).

Definition srem (self : RedisClient) (k : arg) (v : arg) : M pyval :=
  _send self (cmd "SREM") [k; v] None ;;;
  resp <- _get_response self None ;;
  ret (VBool (truthy resp)).

Definition spop (self : RedisClient) (k : arg) : M pyval :=
  _send self (cmd "SPOP") [k] None ;;;
  resp <- _get_response self None ;;
  ret (VReply resp).

Definition smove (self : RedisClient) (src : arg) (dst : arg) (v : arg)
  : M pyval :=
  _send self (cmd "SMOVE") [src; dst; v] None ;;;
  resp <- _get_response self None ;;
  ret (VReply resp).

Definition scard (self : RedisClient) (k : arg) : M pyval :=
  _send self (cmd "SCARD") [k] None ;;;
  resp <- _get_response self None ;;
  ret (VReply resp).

Definition sismember (self : RedisClient) (k : arg) (v : arg) : M pyval :=
  _send self (cmd "SISMEMBER") [k; v] None ;;;
  resp <- _get_response self None ;;
  ret (VBool (truthy resp)).

Definition sinter (self : RedisClient) (keylist : list arg) : M pyval :=
  _send self (cmd "SINTER") [] (Some keylist) ;;;
  resp <- _get_response self None ;;
  py_set resp.

Definition sinterstore (self : RedisClient) (dst : arg) (keylist : list arg)
  : M pyval :=
  let flist := [dst] ++ keylist in
  _send self (cmd "SINTERSTORE") [] (Some flist) ;;;
  resp <- _get_response self None ;;
  ret (VReply resp).

Definition sunion (self : RedisClient) (keylist : list arg) : M pyval :=
  _send self (cmd "SUNION") [] (Some keylist) ;;;
  resp <- _get_response self None ;;
  py_set resp.

Definition sunionstore (self : RedisClient) (dst : arg) (keylist : list arg)
  : M pyval :=
  let flist := [dst] ++ keylist in
  _send self (cmd "SUNIONSTORE") [] (Some flist) ;;;
  resp <- _get_response self None ;;
  ret (VReply resp).

Definition sdiff (self : RedisClient) (keylist : list arg) : M pyval :=
  _send self (cmd "SDIFF") [] (Some keylist) ;;;
  resp <- _get_response self None ;;
  py_set resp.

Definition sdiffstore (self : RedisClient) (dst : arg) (keylist : list arg)
  : M pyval :=
  let flist := [dst] ++ keylist in
  _send self (cmd "SDIFFSTORE") [] (Some flist) ;;;
  resp <- _get_response self None ;;
  ret (VReply resp).

Definition smembers (self : RedisClient) (key : arg) : M pyval :=
  _send self (cmd "SMEMBERS") [key] None ;;;
  resp <- _get_response self None ;;
  py_set resp.

Definition srandmember (self : RedisClient) (key : arg) : M pyval :=
  _send self (cmd "SRANDMEMBER") [key] None ;;;
  resp <- _get_response self None ;;
  ret (VReply resp).

Definition zadd (self : RedisClient) (key : arg) (score : arg) (member : arg)
  : M pyval :=
  _send self (cmd "ZADD") [key; score; member] None ;;;
  resp <- _get_response self None ;;
  ret (VReply resp).

Definition zrem (self : RedisClient) (key : arg) (member : arg) : M pyval :=
  _send self (cmd "ZREM") [key; member] None ;;;
  resp <- _get_response self None ;;
  ret (VBool (truthy resp)).

Definition zrange (self : RedisClient) (key : arg) (start : arg) (end_ : arg)
    (with_scores : bool) : M pyval :=
  let args := [cmd "ZRANGE"; key; start; end_] in
  let args :=
    if with_scores then args ++ [ArgStr (txt "WITHSCORES")]
    else args in
  send_star self args ;;;
  resp <- _get_response self None ;;
  if with_scores then __pair_with_scores resp
  else ret (VReply resp).

Definition zrevrange (self : RedisClient) (key : arg) (start : arg)
    (end_ : arg) (with_scores : bool) : M pyval :=
  let args := [cmd "ZREVRANGE"; key; start; end_] in
  let args :=
    if with_scores then args ++ [ArgStr (txt "WITHSCORES")]
    else args in
  send_star self args ;;;
  resp <- _get_response self None ;;
  if with_scores then __pair_with_scores resp
  else ret (VReply resp).

Definition zcard (self : RedisClient) (key : arg) : M pyval :=
  _send self (cmd "ZCARD") [key] None ;;;
  resp <- _get_response self None ;;
  py_int resp.

Definition zscore (self : RedisClient) (key : arg) (member : arg) : M pyval :=
  _send self (cmd "ZSCORE") [key; member] None ;;;
  resp <- _get_response self None ;;
  if negb (is_None resp) then py_float resp else ret VNone.

Definition zincrby (self : RedisClient) (key : arg) (increment : arg)
    (member : arg) : M pyval :=
  _send self (cmd "ZINCRBY") [key; increment; member] None ;;;
  resp <- _get_response self None ;;
  py_float resp.

Definition zrank (self : RedisClient) (key : arg) (member : arg) : M pyval :=
  _send self (cmd "ZRANK") [key; member] None ;;;
  resp <- _get_response self None ;;
  ret (VReply resp).

Definition zrevrank (self : RedisClient) (key : arg) (member : arg) : M pyval :=
  _send self (cmd "ZREVRANK") [key; member] None ;;;
  resp <- _get_response self None ;;
  ret (VReply resp).

Definition zrangebyscore (self : RedisClient) (key : arg) (min : arg)
    (max : arg) (offset : arg) (count : arg) (with_scores : bool) : M pyval :=
  let args := [cmd "ZRANGEBYSCORE"; key; min; max] in
  args <- (if arg_truthy offset then
             match count with
             | ArgNone =>
                 raise (AssertionError
                   [Scalar (AStr
                      (txt "if offset specified, count must be as well"))])
             | _ => ret (args ++ [ArgStr (txt "LIMIT"); offset; count])
             end
           else ret args) ;;
  let args :=
    if with_scores then args ++ [ArgStr (txt "WITHSCORES")]
    else args in
  send_star self args ;;;
  resp <- _get_response self None ;;
  if with_scores then __pair_with_scores resp
  else ret (VReply resp).

Definition zcount (self : RedisClient) (key : arg) (min : arg) (max : arg)
  : M pyval :=
  _send self (cmd "ZCOUNT") [key; min; max] None ;;;
  resp <- _get_response self None ;;
  ret (VReply resp).

Definition zremrangebyrank (self : RedisClient) (key : arg) (min : arg)
    (max : arg) : M pyval :=
  _send self (cmd "ZREMRANGEBYRANK") [key; min; max] None ;;;
  resp <- _get_response self None ;;
  ret (VReply resp).

Definition zremrangebyscore (self : RedisClient) (key : arg) (min : arg)
    (max : arg) : M pyval :=
  _send self (cmd "ZREMRANGEBYSCORE") [key; min; max] None ;;;
  resp <- _get_response self None ;;
  ret (VReply resp).

Definition hset (self : RedisClient) (key : arg) (field : arg) (value : arg)
  : M pyval :=
  _send self (cmd "HSET") [key; field; value] None ;;;
  resp <- _get_response self None ;;
  ret (VBool (truthy resp)).

Definition hget (self : RedisClient) (key : arg) (field : arg) : M pyval :=
  _send self (cmd "HGET") [key; field] None ;;;
  resp <- _get_response self None ;;
  ret (VReply resp).

Definition hmset (self : RedisClient) (key : arg) (d : list (arg * arg))
  : M pyval :=
  match d with
  | [] => ret (VBool true)
  | _ =>
      let args := [key] ++ flatten_arg_pairs (items d) in
      _send self (cmd "HMSET") [] (Some args) ;;;
      resp <- _get_response self None ;;
      ret (VBool (truthy resp))
  end.

Definition hmget (self : RedisClient) (key : arg) (l : list arg) : M pyval :=
  match l with
  | [] => ret (VDictOfArgs [])
  | _ =>
      let args := [key] ++ l in
      _send self (cmd "HMGET") [] (Some args) ;;;
      resp <- _get_response self None ;;
      match as_sequence resp with
      | Some s => ret (VDictOfArgs (combine l s))
      | None => raise TypeError
      end
  end.

Definition hincrby (self : RedisClient) (key : arg) (field : arg) (amt : arg)
  : M pyval :=
  _send self (cmd "HINCRBY") [key; field; amt] None ;;;
  resp <- _get_response self None ;;
  ret (VReply resp).

Definition hexists (self : RedisClient) (key : arg) (field : arg) : M pyval :=
  _send self (cmd "HEXISTS") [key; field] None ;;;
  resp <- _get_response self None ;;
  ret (VBool (truthy resp)).

Definition hdel (self : RedisClient) (key : arg) (field : arg) : M pyval :=
  _send self (cmd "HDEL") [key; field] None ;;;
  resp <- _get_response self None ;;
  ret (VBool (truthy resp)).

Definition hlen (self : RedisClient) (key : arg) : M pyval :=
  _send self (cmd "HLEN") [key] None ;;;
  resp <- _get_response self None ;;
  ret (VReply resp).

Definition hkeys (self : RedisClient) (key : arg) : M pyval :=
  _send self (cmd "HKEYS") [key] None ;;;
  resp <- _get_response self None ;;
  py_set resp.

Definition hvals (self : RedisClient) (key : arg) : M pyval :=
  _send self (cmd "HVALS") [key] None ;;;
  resp <- _get_response self None ;;
  ret (VReply resp).

Definition hgetall (self : RedisClient) (key : arg) : M pyval :=
  _send self (cmd "HGETALL") [key] None ;;;
  resp <- _get_response self None ;;
  match as_sequence resp with
  | Some s => ps <- of_option ValueError (pairs_of s) ;; ret (VDictOf ps)
  | None => raise TypeError
  end.

Definition hsetnx (self : RedisClient) (key : arg) (field : arg) (value : arg)
  : M pyval :=
  _send self (cmd "HSETNX") [key; field; value] None ;;;
  resp <- _get_response self None ;;
  ret (VBool (truthy resp)).

Definition sort (self : RedisClient) (key : arg) (pattern : arg)
    (limit : list arg) (get : arg) (order : arg) (alpha : bool) (store : arg)
  : M pyval :=
  let args := [key] in
  let args :=
    if arg_truthy pattern then args ++ [ArgStr (txt "BY"); pattern]
    else args in
  let args := match limit with
              | [] => args
              | _ => args ++ ([ArgStr (txt "LIMIT")] ++ limit)
              end in
  let args :=
    if arg_truthy get then args ++ [ArgStr (txt "GET"); get]
    else args in
  let args := args ++ [order] in
  let args :=
    if alpha then args ++ map (fun ch => ArgStr [ch]) (txt "ALPHA")
    else args in
  let args :=
    if arg_truthy store then args ++ [ArgStr (txt "STORE"); store]
    else args in
  _send self (cmd "SORT") args None ;;;
  resp <- _get_response self None ;;
  ret (VReply resp).

Definition subscribe (self : RedisClient) (channels : list arg) : M pyval :=
  _send self (cmd "SUBSCRIBE") channels None ;;;
  ret VNone.

Definition unsubscribe (self : RedisClient) (channels : list arg) : M pyval :=
  _send self (cmd "UNSUBSCRIBE") channels None ;;;
  ret VNone.

Definition psubscribe (self : RedisClient) (channels : list arg) : M pyval :=
  _send self (cmd "PSUBSCRIBE") channels None ;;;
  ret VNone.

Definition punsubscribe (self : RedisClient) (channels : list arg) : M pyval :=
  _send self (cmd "PUNSUBSCRIBE") channels None ;;;
  ret VNone.

Definition publish (self : RedisClient) (channel : arg) (message : arg)
  : M pyval :=
  _send self (cmd "PUBLISH") [channel; message] None ;;;
  resp <- _get_response self None ;;
  ret (VReply resp).

(** One turn of the loop of [get_from_subscriptions] (lines 762-770);
    [None] asks for another turn. *)
Definition subscription_turn (self : RedisClient) (wake_sig : option text)
  : M (option pyval) :=
  r <- _get_response self wake_sig ;;
  if truthy r then
    match r with
    | Multi l =>
        match l with
        | r0 :: r_tail =>
            if atom_eq_bytes r0 (bs "message") then
              r1 <- of_option IndexError (nth_error l 1) ;;
              ret (Some (VReply (Multi ([r1] ++ r_tail))))
            else if atom_eq_bytes r0 (bs "pmessage") then
              ret (Some (VReply (Multi r_tail)))
            else ret None
        | [] => raise IndexError
        end
    | Scalar (AInt _) | Scalar ANone => raise TypeError
    | Scalar (ABytes _) | Scalar (AStr _) => ret None
    end
  else ret (Some VNone).

(** [while True:] run for at most [fuel] turns; [None] when the turns
    are used up. *)
Fixpoint subscription_loop (self : RedisClient) (wake_sig : option text)
    (fuel : nat) : M (option pyval) :=
  match fuel with
  | O => ret None
  | S fuel' =>
      t <- subscription_turn self wake_sig ;;
      match t with
      | Some v => ret (Some v)
      | None => subscription_loop self wake_sig fuel'
      end
  end.

(** Every turn that asks for another one has read a line, so one turn
    more than there are unread bytes is enough ([enough_turns] below);
    the loop that used them up would be waiting for input. *)
Definition get_from_subscriptions (self : RedisClient)
    (wake_sig : option text) : M pyval :=
  fun c =>
    match subscription_loop self wake_sig (S (length (inbuf c))) c with
    | (Return (Some v), c') => (Return v, c')
    | (Return None, c') => (Blocked, c')
    | (Raise e, c') => (Raise e, c')
    | (Blocked, c') => (Blocked, c')
    end.

(** The loop of [send_raw_command] (lines 784-806) over the elements of
    an array. *)
Fixpoint raw_elements (n : nat) (out : bytes) : M bytes :=
  match n with
  | O => ret out
  | S n' =>
      head <- until_eol ;;
      let out := out ++ head in
      k <- int_ (drop1 head) ;;
      data <- receive k ;;
      e <- until_eol ;;
      raw_elements n' (out ++ (data ++ e))
  end.

Definition raw (b : bytes) : pyval := VReply (Scalar (ABytes b)).

Definition send_raw_command (self : RedisClient) (arguments : list arg)
  : M pyval :=
  match arguments with
  | [] => raise IndexError
  | c0 :: rest =>
      _send self c0 [] (Some rest) ;;;
      line_one <- until_eol ;;
      c <- first_byte line_one ;;
      if Byte.eqb c "+" || Byte.eqb c "-" || Byte.eqb c ":" then
        ret (raw line_one)
      else if Byte.eqb c "$" then
        amt <- int_ (drop1 line_one) ;;
        if amt =? -1 then ret (raw line_one)
        else
          data <- receive amt ;;
          e <- until_eol ;;
          ret (raw (line_one ++ data ++ e))
      else if Byte.eqb c "*" then
        nargs <- int_ (drop1 line_one) ;;
        if nargs =? -1 then ret (raw line_one)
        else out <- raw_elements (Z.to_nat nargs) line_one ;; ret (raw out)
      else ret VNone
  end.

End Methods.

End Cmd.

Section Calls.

Context {E : Env}.

(** A call of one command method with its arguments. *)
Inductive call :=
| C_auth
| C_exists (k : arg)
| C_delete (k : arg)
| C_type (k : arg)
| C_keys (pat : arg)
| C_randomkey
| C_rename (old : arg) (new : arg)
| C_renamenx (old : arg) (new : arg)
| C_dbsize
| C_expire (key : arg) (seconds : arg)
| C_expireat (key : arg) (when : pydatetime)
| C_ttl (key : arg)
| C_select (idx : arg)
| C_move (key : arg) (idx : arg)
| C_flushdb
| C_flushall
| C_multi
| C_exec_
| C_discard
| C_watch (keys : list arg)
| C_set (k : arg) (v : arg)
| C_get (k : arg)
| C_getset (k : arg) (v : arg)
| C_mget (keylist : list arg)
| C_setnx (k : arg) (v : arg)
| C_setex (k : arg) (tm : arg) (v : arg)
| C_mset (d : list (arg * arg))
| C_msetnx (d : list (arg * arg))
| C_incr (k : arg)
| C_incrby (k : arg) (amt : arg)
| C_decr (k : arg)
| C_decrby (k : arg) (amt : arg)
| C_append (k : arg) (value : arg)
| C_substr (k : arg) (start : arg) (end_ : arg)
| C_getbit (k : arg) (offset : arg)
| C_setbit (k : arg) (offset : arg) (value : arg)
| C_strlen (k : arg)
| C_rpush (k : arg) (v : arg)
| C_lpush (k : arg) (v : arg)
| C_llen (k : arg)
| C_lrange (k : arg) (start : arg) (end_ : arg)
| C_ltrim (k : arg) (start : arg) (end_ : arg)
| C_lindex (k : arg) (idx : arg)
| C_lset (k : arg) (idx : arg) (v : arg)
| C_lrem (k : arg) (v : arg) (count : arg)
| C_lpop (k : arg)
| C_rpop (k : arg)
| C_blpop (keylist : list arg) (timeout : arg)
| C_brpop (keylist : list arg) (timeout : arg)
| C_rpoplpush (src : arg) (dest : arg)
| C_sadd (k : arg) (v : arg)
| C_srem (k : arg) (v : arg)
| C_spop (k : arg)
| C_smove (src : arg) (dst : arg) (v : arg)
| C_scard (k : arg)
| C_sismember (k : arg) (v : arg)
| C_sinter (keylist : list arg)
| C_sinterstore (dst : arg) (keylist : list arg)
| C_sunion (keylist : list arg)
| C_sunionstore (dst : arg) (keylist : list arg)
| C_sdiff (keylist : list arg)
| C_sdiffstore (dst : arg) (keylist : list arg)
| C_smembers (key : arg)
| C_srandmember (key : arg)
| C_zadd (key : arg) (score : arg) (member : arg)
| C_zrem (key : arg) (member : arg)
| C_zrange (key : arg) (start : arg) (end_ : arg) (with_scores : bool)
| C_zrevrange (key : arg) (start : arg) (end_ : arg) (with_scores : bool)
| C_zcard (key : arg)
| C_zscore (key : arg) (member : arg)
| C_zincrby (key : arg) (increment : arg) (member : arg)
| C_zrank (key : arg) (member : arg)
| C_zrevrank (key : arg) (member : arg)
| C_zrangebyscore (key : arg) (min : arg) (max : arg) (offset : arg)
    (count : arg) (with_scores : bool)
| C_zcount (key : arg) (min : arg) (max : arg)
| C_zremrangebyrank (key : arg) (min : arg) (max : arg)
| C_zremrangebyscore (key : arg) (min : arg) (max : arg)
| C_hset (key : arg) (field : arg) (value : arg)
| C_hget (key : arg) (field : arg)
| C_hmset (key : arg) (d : list (arg * arg))
| C_hmget (key : arg) (l : list arg)
| C_hincrby (key : arg) (field : arg) (amt : arg)
| C_hexists (key : arg) (field : arg)
| C_hdel (key : arg) (field : arg)
| C_hlen (key : arg)
| C_hkeys (key : arg)
| C_hvals (key : arg)
| C_hgetall (key : arg)
| C_hsetnx (key : arg) (field : arg) (value : arg)
| C_sort (key : arg) (pattern : arg) (limit : list arg) (get : arg)
    (order : arg) (alpha : bool) (store : arg)
| C_subscribe (channels : list arg)
| C_unsubscribe (channels : list arg)
| C_psubscribe (channels : list arg)
| C_punsubscribe (channels : list arg)
| C_get_from_subscriptions (wake_sig : option text)
| C_publish (channel : arg) (message : arg)
| C_send_raw_command (arguments : list arg).

Definition invoke (self : RedisClient) (m : call) : M pyval :=
  match m with
  | C_auth => Cmd.auth self
  | C_exists k => Cmd.exists_ self k
  | C_delete k => Cmd.delete self k
  | C_type k => Cmd.type self k
  | C_keys pat => Cmd.keys self pat
  | C_randomkey => Cmd.randomkey self
  | C_rename old new => Cmd.rename self old new
  | C_renamenx old new => Cmd.renamenx self old new
  | C_dbsize => Cmd.dbsize self
  | C_expire key seconds => Cmd.expire self key seconds
  | C_expireat key when => Cmd.expireat self key when
  | C_ttl key => Cmd.ttl self key
  | C_select idx => Cmd.select self idx
  | C_move key idx => Cmd.move self key idx
  | C_flushdb => Cmd.flushdb self
  | C_flushall => Cmd.flushall self
  | C_multi => Cmd.multi self
  | C_exec_ => Cmd.exec_ self
  | C_discard => Cmd.discard self
  | C_watch keys => Cmd.watch self keys
  | C_set k v => Cmd.set self k v
  | C_get k => Cmd.get self k
  | C_getset k v => Cmd.getset self k v
  | C_mget keylist => Cmd.mget self keylist
  | C_setnx k v => Cmd.setnx self k v
  | C_setex k tm v => Cmd.setex self k tm v
  | C_mset d => Cmd.mset self d
  | C_msetnx d => Cmd.msetnx self d
  | C_incr k => Cmd.incr self k
  | C_incrby k amt => Cmd.incrby self k amt
  | C_decr k => Cmd.decr self k
  | C_decrby k amt => Cmd.decrby self k amt
  | C_append k value => Cmd.append self k value
  | C_substr k start end_ => Cmd.substr self k start end_
  | C_getbit k offset => Cmd.getbit self k offset
  | C_setbit k offset value => Cmd.setbit self k offset value
  | C_strlen k => Cmd.strlen self k
  | C_rpush k v => Cmd.rpush self k v
  | C_lpush k v => Cmd.lpush self k v
  | C_llen k => Cmd.llen self k
  | C_lrange k start end_ => Cmd.lrange self k start end_
  | C_ltrim k start end_ => Cmd.ltrim self k start end_
  | C_lindex k idx => Cmd.lindex self k idx
  | C_lset k idx v => Cmd.lset self k idx v
  | C_lrem k v count => Cmd.lrem self k v count
  | C_lpop k => Cmd.lpop self k
  | C_rpop k => Cmd.rpop self k
  | C_blpop keylist timeout => Cmd.blpop self keylist timeout
  | C_brpop keylist timeout => Cmd.brpop self keylist timeout
  | C_rpoplpush src dest => Cmd.rpoplpush self src dest
  | C_sadd k v => Cmd.sadd self k v
  | C_srem k v => Cmd.srem self k v
  | C_spop k => Cmd.spop self k
  | C_smove src dst v => Cmd.smove self src dst v
  | C_scard k => Cmd.scard self k
  | C_sismember k v => Cmd.sismember self k v
  | C_sinter keylist => Cmd.sinter self keylist
  | C_sinterstore dst keylist => Cmd.sinterstore self dst keylist
  | C_sunion keylist => Cmd.sunion self keylist
  | C_sunionstore dst keylist => Cmd.sunionstore self dst keylist
  | C_sdiff keylist => Cmd.sdiff self keylist
  | C_sdiffstore dst keylist => Cmd.sdiffstore self dst keylist
  | C_smembers key => Cmd.smembers self key
  | C_srandmember key => Cmd.srandmember self key
  | C_zadd key score member => Cmd.zadd self key score member
  | C_zrem key member => Cmd.zrem self key member
  | C_zrange key start end_ with_scores =>
      Cmd.zrange self key start end_ with_scores
  | C_zrevrange key start end_ with_scores =>
      Cmd.zrevrange self key start end_ with_scores
  | C_zcard key => Cmd.zcard self key
  | C_zscore key member => Cmd.zscore self key member
  | C_zincrby key increment member => Cmd.zincrby self key increment member
  | C_zrank key member => Cmd.zrank self key member
  | C_zrevrank key member => Cmd.zrevrank self key member
  | C_zrangebyscore key min max offset count with_scores =>
      Cmd.zrangebyscore self key min max offset count with_scores
  | C_zcount key min max => Cmd.zcount self key min max
  | C_zremrangebyrank key min max => Cmd.zremrangebyrank self key min max
  | C_zremrangebyscore key min max => Cmd.zremrangebyscore self key min max
  | C_hset key field value => Cmd.hset self key field value
  | C_hget key field => Cmd.hget self key field
  | C_hmset key d => Cmd.hmset self key d
  | C_hmget key l => Cmd.hmget self key l
  | C_hincrby key field amt => Cmd.hincrby self key field amt
  | C_hexists key field => Cmd.hexists self key field
  | C_hdel key field => Cmd.hdel self key field
  | C_hlen key => Cmd.hlen self key
  | C_hkeys key => Cmd.hkeys self key
  | C_hvals key => Cmd.hvals self key
  | C_hgetall key => Cmd.hgetall self key
  | C_hsetnx key field value => Cmd.hsetnx self key field value
  | C_sort key pattern limit get order alpha store =>
      Cmd.sort self key pattern limit get order alpha store
  | C_subscribe channels => Cmd.subscribe self channels
  | C_unsubscribe channels => Cmd.unsubscribe self channels
  | C_psubscribe channels => Cmd.psubscribe self channels
  | C_punsubscribe channels => Cmd.punsubscribe self channels
  | C_get_from_subscriptions wake_sig =>
      Cmd.get_from_subscriptions self wake_sig
  | C_publish channel message => Cmd.publish self channel message
  | C_send_raw_command arguments => Cmd.send_raw_command self arguments
  end.

End Calls.

(* ===================================================================== *)
(** ** [RedisTransaction] (lines 863-913) *)
(* ===================================================================== *)

Section Transactions.

Context {E : Env}.

(** The attributes of a [RedisTransaction]. *)
Record RedisTransaction := mkTransaction {
  client : RedisClient;
  value : pyval;
  watching : list arg;
  aborted : bool
}.

Definition set_value (t : RedisTransaction) (v : pyval) : RedisTransaction :=
  mkTransaction (client t) v (watching t) (aborted t).

Definition set_aborted (t : RedisTransaction) (b : bool) : RedisTransaction :=
  mkTransaction (client t) (value t) (watching t) b.

(** A method that may change the object it is called on returns the
    outcome, the object and the connection. *)
Definition run (S A : Type) := conn -> outcome A * S * conn.

(** [RedisTransaction.__init__] *)
Definition RedisTransaction___init__ (client : RedisClient)
    (watch_keys : list arg) : M RedisTransaction :=
  let self := mkTransaction client VNone watch_keys false in
  match watch_keys with
  | [] => ret self
  | _ :: _ => Cmd.watch client watch_keys ;;; ret self
  end.

(** [RedisClient.transaction]: [RedisTransaction(self, watch or [])] *)
Definition transaction (self : RedisClient) (watch : option (list arg))
  : M RedisTransaction :=
  RedisTransaction___init__ self
    (match watch with Some (k :: l) => k :: l | _ => [] end).

(** [RedisTransaction.__enter__] *)
Definition RedisTransaction___enter__ (self : RedisTransaction) : M unit :=
  Cmd.multi (client self) ;;; ret tt.

Definition watched_key_changed : text :=
  txt "A watched key changed before the transaction completed.".

(** [RedisTransaction.__exit__]; [exc] is the fault the block raised, if
    any.  The value returned says whether the fault is swallowed. *)
Definition RedisTransaction___exit__ (self : RedisTransaction)
    (exc : option exn) : run RedisTransaction bool :=
  fun c =>
    match exc with
    | Some _ =>
        match Cmd.discard (client self) c with
        | (Return _, c') => (Return false, set_aborted self true, c')
        | (Raise e, c') => (Raise e, self, c')
        | (Blocked, c') => (Blocked, self, c')
        end
    | None =>
        match Cmd.exec_ (client self) c with
        | (Return v, c') =>
            let self := set_value self v in
            if val_is_None v then
              (Raise (RedisTransactionError watched_key_changed),
               set_aborted self true, c')
            else (Return false, self, c')
        | (Raise e, c') => (Raise e, self, c')
        | (Blocked, c') => (Blocked, self, c')
        end
    end.

(** [with trans as t: body].  The block reaches the connection through
    the transaction handle, which forwards every method to the client.
    [Return None] is a block whose fault was swallowed. *)
Definition with_transaction {A} (trans : RedisTransaction) (body : M A)
  : run RedisTransaction (option A) :=
  fun c =>
    match RedisTransaction___enter__ trans c with
    | (Return _, c1) =>
        match body c1 with
        | (Return a, c2) =>
            match RedisTransaction___exit__ trans None c2 with
            | (Return _, t', c3) => (Return (Some a), t', c3)
            | (Raise e, t', c3) => (Raise e, t', c3)
            | (Blocked, t', c3) => (Blocked, t', c3)
            end
        | (Raise e, c2) =>
            match RedisTransaction___exit__ trans (Some e) c2 with
            | (Return swallow, t', c3) =>
                if swallow then (Return None, t', c3) else (Raise e, t', c3)
            | (Raise e', t', c3) => (Raise e', t', c3)
            | (Blocked, t', c3) => (Blocked, t', c3)
            end
        | (Blocked, c2) => (Blocked, trans, c2)
        end
    | (Raise e, c1) => (Raise e, trans, c1)
    | (Blocked, c1) => (Blocked, trans, c1)
    end.

(* ===================================================================== *)
(** ** [RedisLock] (lines 921-954) *)
(* ===================================================================== *)

(** The attributes of a [RedisLock].  [in_block] is unset until the lock
    is entered or left; [forked] counts the renewal tasks handed to
    [fork] (the task itself runs on a connection of its own until it
    sees [in_block] false).  The lease duration is an integer number of
    seconds. *)
Record RedisLock := mkLock {
  lock_client : RedisClient;
  key : bytes;
  timeout : Z;
  me : bytes;
  in_block : option bool;
  forked : nat
}.

Definition set_in_block (l : RedisLock) (b : bool) : RedisLock :=
  mkLock (lock_client l) (key l) (timeout l) (me l) (Some b) (forked l).

Definition fork_touch (l : RedisLock) : RedisLock :=
  mkLock (lock_client l) (key l) (timeout l) (me l) (in_block l)
    (S (forked l)).

(** [RedisLock.__init__]; [uuid] is the value of [uuid.uuid4().bytes]. *)
Definition RedisLock___init__ (client : RedisClient) (key : bytes + text)
    (timeout : Z) (uuid : bytes) : exn + RedisLock :=
  if negb (2 <=? timeout) then
    inl (AssertionError
      [Scalar (AStr
         (txt "Timeout must be greater than 2 to guarantee the transaction"))])
  else
    match (match key with
           | inl b => inr b
           | inr t => str_encode (txt "utf-8") (txt "strict") t
           end) with
    | inl e => inl e
    | inr k => inr (mkLock client k timeout uuid None 0)
    end.

(** [RedisLock.__enter__] *)
Definition RedisLock___enter__ (self : RedisLock) : run RedisLock unit :=
  fun c =>
    match transaction (lock_client self) (Some [ArgBytes (key self)]) c with
    | (Return trans, c1) =>
        match Cmd.get (lock_client self) (ArgBytes (key self)) c1 with
        | (Return v, c2) =>
            if val_truthy v then (Raise LockNotAcquired, self, c2)
            else
              match with_transaction trans
                      (Cmd.setex (client trans) (ArgBytes (key self))
                         (ArgInt (timeout self)) (ArgBytes (me self))) c2 with
              | (Return _, _, c3) =>
                  (Return tt, fork_touch (set_in_block self true), c3)
              | (Raise (RedisTransactionError _), _, c3) =>
                  (Raise LockNotAcquired, self, c3)
              | (Raise e, _, c3) => (Raise e, self, c3)
              | (Blocked, _, c3) => (Blocked, self, c3)
              end
        | (Raise e, c2) => (Raise e, self, c2)
        | (Blocked, c2) => (Blocked, self, c2)
        end
    | (Raise e, c1) => (Raise e, self, c1)
    | (Blocked, c1) => (Blocked, self, c1)
    end.

(** [RedisLock.__exit__].  When the assertion fails its message is
    built, which reads the key once more; the exception carries the
    three values the message is formatted from. *)
Definition RedisLock___exit__ (self : RedisLock) : run RedisLock unit :=
  fun c =>
    let self := set_in_block self false in
    match Cmd.get (lock_client self) (ArgBytes (key self)) c with
    | (Return val, c1) =>
        if val_eq_bytes val (me self) then
          match Cmd.delete (lock_client self) (ArgBytes (key self)) c1 with
          | (Return _, c2) => (Return tt, self, c2)
          | (Raise e, c2) => (Raise e, self, c2)
          | (Blocked, c2) => (Blocked, self, c2)
          end
        else
          match Cmd.get (lock_client self) (ArgBytes (key self)) c1 with
          | (Return wha, c2) =>
              (Raise (AssertionError
                 [reply_of val; Scalar (ABytes (me self)); reply_of wha]),
               self, c2)
          | (Raise e, c2) => (Raise e, self, c2)
          | (Blocked, c2) => (Blocked, self, c2)
          end
    | (Raise e, c1) => (Raise e, self, c1)
    | (Blocked, c1) => (Blocked, self, c1)
    end.

End Transactions.

(* ===================================================================== *)
(** ** [RedisSubHub] (lines 959-1061) *)
(* ===================================================================== *)

Section Hub.

Context {E : Env}.

(** The value of a Python expression that is a [bool] or a [bytes]
    object, with [or] and [and] returning one of their operands. *)
Inductive flag :=
| FBool (b : bool)
| FBytes (b : bytes).

Definition flag_truthy (f : flag) : bool :=
  match f with
  | FBool b => b
  | FBytes b => match b with [] => false | _ => true end
  end.

Definition py_or (a b : flag) : flag := if flag_truthy a then a else b.

Definition py_and (a b : flag) : flag := if flag_truthy a then b else a.

(** [RedisSubHub.__isglob]:
    [b'*' in glob or b'?' in glob or (b'[' in glob and b']' and glob)] *)
Definition __isglob (glob : bytes) : flag :=
  py_or (py_or (FBool (contains "*" glob)) (FBool (contains "?" glob)))
    (py_and (py_and (FBool (contains "[" glob)) (FBytes (bs "]")))
       (FBytes glob)).

(** Queues are known by a number.  [subs] maps a channel to its set of
    queues, in insertion order; a set is a list without repetition (the
    order in which Python walks a set is not fixed, the list keeps the
    order of insertion).  [delivered] logs every [q.put((key, msg))]. *)
Record RedisSubHub := mkHub {
  config : RedisClient;
  sub_wake_signal : text;
  sub_adds : list (bytes * nat);
  sub_rms : list (bytes * nat);
  subs : list (bytes * list nat);
  delivered : list (nat * (atom * atom))
}.

Definition set_add {A} (eqb : A -> A -> bool) (x : A) (s : list A) : list A :=
  if existsb (eqb x) s then s else s ++ [x].

Definition set_remove {A} (eqb : A -> A -> bool) (x : A) (s : list A)
  : option (list A) :=
  if existsb (eqb x) s then Some (filter (fun y => negb (eqb x y)) s)
  else None.

(** [subs[k]], [k in subs], [subs[k] = v], [del subs[k]] *)
Fixpoint dict_get (d : list (bytes * list nat)) (k : bytes)
  : option (list nat) :=
  match d with
  | [] => None
  | (k', v) :: d' => if bytes_eqb k' k then Some v else dict_get d' k
  end.

Fixpoint dict_set (d : list (bytes * list nat)) (k : bytes) (v : list nat)
  : list (bytes * list nat) :=
  match d with
  | [] => [(k, v)]
  | (k', v') :: d' =>
      if bytes_eqb k' k then (k', v) :: d' else (k', v') :: dict_set d' k v
  end.

Definition dict_del (d : list (bytes * list nat)) (k : bytes)
  : list (bytes * list nat) :=
  filter (fun kv => negb (bytes_eqb (fst kv) k)) d.

(** The loop [for k, q in sa] of the additions: the mapping, the new
    exact channels and the new patterns. *)
Fixpoint add_loop (sa : list (bytes * nat))
    (st : list (bytes * list nat) * list bytes * list bytes)
  : list (bytes * list nat) * list bytes * list bytes :=
  match sa with
  | [] => st
  | (k, q) :: sa' =>
      let '(subs, new_subs, new_glob_subs) := st in
      let glob := flag_truthy (__isglob k) in
      match dict_get subs k with
      | None =>
          add_loop sa'
            (dict_set subs k [q],
             if glob then new_subs else set_add bytes_eqb k new_subs,
             if glob then set_add bytes_eqb k new_glob_subs
             else new_glob_subs)
      | Some qs =>
          add_loop sa'
            (dict_set subs k (set_add Nat.eqb q qs), new_subs, new_glob_subs)
      end
  end.

(** The loop [for k, q in sr] of the removals; [subs[k].remove(q)]
    raises [KeyError] for an unknown channel or queue, and what was
    removed before stays removed. *)
Fixpoint rm_loop (sr : list (bytes * nat))
    (st : list (bytes * list nat) * list bytes * list bytes)
  : option exn * (list (bytes * list nat) * list bytes * list bytes) :=
  match sr with
  | [] => (None, st)
  | (k, q) :: sr' =>
      let '(subs, rm_subs, rm_glob_subs) := st in
      let glob := flag_truthy (__isglob k) in
      match dict_get subs k with
      | None => (Some KeyError, st)
      | Some qs =>
          match set_remove Nat.eqb q qs with
          | None => (Some KeyError, st)
          | Some [] =>
              rm_loop sr'
                (dict_del subs k,
                 if glob then rm_subs else set_add bytes_eqb k rm_subs,
                 if glob then set_add bytes_eqb k rm_glob_subs
                 else rm_glob_subs)
          | Some qs' => rm_loop sr' (dict_set subs k qs', rm_subs, rm_glob_subs)
          end
      end
  end.

Definition with_subs (h : RedisSubHub) (s : list (bytes * list nat))
  : RedisSubHub :=
  mkHub (config h) (sub_wake_signal h) (sub_adds h) (sub_rms h) s
    (delivered h).

Definition clear_adds (h : RedisSubHub) : RedisSubHub :=
  mkHub (config h) (sub_wake_signal h) [] (sub_rms h) (subs h) (delivered h).

Definition clear_rms (h : RedisSubHub) : RedisSubHub :=
  mkHub (config h) (sub_wake_signal h) (sub_adds h) [] (subs h) (delivered h).

Definition put_all (h : RedisSubHub) (qs : list nat) (item : atom * atom)
  : RedisSubHub :=
  mkHub (config h) (sub_wake_signal h) (sub_adds h) (sub_rms h) (subs h)
    (delivered h ++ map (fun q => (q, item)) qs).

(** [if names: conn.method( *names)] *)
Definition call_if_any (method : RedisClient -> list arg -> M pyval)
    (conn : RedisClient) (names : list bytes) : M unit :=
  match names with
  | [] => ret tt
  | _ :: _ => method conn (map ArgBytes names) ;;; ret tt
  end.

(** [if self.sub_adds: ...] in the loop of [RedisSubHub.__call__] *)
Definition hub_additions (h : RedisSubHub) : run RedisSubHub unit :=
  fun c =>
    match sub_adds h with
    | [] => (Return tt, h, c)
    | sa =>
        let '(subs', new_subs, new_glob_subs) :=
          add_loop sa (subs h, [], []) in
        let h := with_subs (clear_adds h) subs' in
        let '(o, c') :=
          (call_if_any Cmd.subscribe (config h) new_subs ;;;
           call_if_any Cmd.psubscribe (config h) new_glob_subs) c in
        (o, h, c')
    end.

(** [if self.sub_rms: ...] *)
Definition hub_removals (h : RedisSubHub) : run RedisSubHub unit :=
  fun c =>
    match sub_rms h with
    | [] => (Return tt, h, c)
    | sr =>
        let '(err, (subs', rm_subs, rm_glob_subs)) :=
          rm_loop sr (subs h, [], []) in
        let h := with_subs (clear_rms h) subs' in
        match err with
        | Some e => (Raise e, h, c)
        | None =>
            let '(o, c') :=
              (call_if_any Cmd.unsubscribe (config h) rm_subs ;;;
               call_if_any Cmd.punsubscribe (config h) rm_glob_subs) c in
            (o, h, c')
        end
    end.

(** [if not self.sub_rms and not self.sub_adds: ...]: wait for a message
    and hand it to the queues of its channel or pattern. *)
Definition hub_dispatch (h : RedisSubHub) : run RedisSubHub unit :=
  fun c =>
    match sub_rms h, sub_adds h with
    | [], [] =>
        match Cmd.get_from_subscriptions (config h)
                (Some (sub_wake_signal h)) c with
        | (Return r, c') =>
            if val_truthy r then
              match r with
              | VReply (Multi [cls; k; msg]) =>
                  match cls with
                  | ABytes b =>
                      match dict_get (subs h) b with
                      | Some qs => (Return tt, put_all h qs (k, msg), c')
                      | None => (Return tt, h, c')
                      end
                  | _ => (Return tt, h, c')
                  end
              | _ => (Raise ValueError, h, c')
              end
            else (Return tt, h, c')
        | (Raise e, c') => (Raise e, h, c')
        | (Blocked, c') => (Blocked, h, c')
        end
    | _, _ => (Return tt, h, c)
    end.

(** One turn of [while True:] in [RedisSubHub.__call__]. *)
Definition hub_turn (h : RedisSubHub) : run RedisSubHub unit :=
  fun c =>
    match hub_additions h c with
    | (Return _, h1, c1) =>
        match hub_removals h1 c1 with
        | (Return _, h2, c2) => hub_dispatch h2 c2
        | r => r
        end
    | r => r
    end.

End Hub.

(* ===================================================================== *)
(** ** [RedisSubHub.subq] (lines 1063-1080) *)
(* ===================================================================== *)

Section HubProducers.

Context {E : Env}.

(** [RedisSubHub._encode] (lines 984-996) has the text of
    [RedisClient._encode] and reads the hub's own settings. *)
Definition hub__encode (h : RedisSubHub) (value : arg) : exn + bytes :=
  _encode (config h) value.

Fixpoint hub_encode_all (h : RedisSubHub) (values : list arg)
  : exn + list bytes :=
  match values with
  | [] => inr []
  | v :: vs =>
      match hub__encode h v with
      | inl e => inl e
      | inr b =>
          match hub_encode_all h vs with
          | inl e => inl e
          | inr bs' => inr (b :: bs')
          end
      end
  end.

Definition append_adds (h : RedisSubHub) (l : list (bytes * nat))
  : RedisSubHub :=
  mkHub (config h) (sub_wake_signal h) (sub_adds h ++ l) (sub_rms h) (subs h)
    (delivered h).

Definition append_rms (h : RedisSubHub) (l : list (bytes * nat))
  : RedisSubHub :=
  mkHub (config h) (sub_wake_signal h) (sub_adds h) (sub_rms h ++ l) (subs h)
    (delivered h).

(** [subq] up to its [yield]: [classes] is one value, or the elements of
    a list, tuple or set; [q] is the new [Queue()].  The classes are
    encoded (the first failure is raised before anything is appended),
    one addition per class is appended, and the wake signal is fired
    (which the connection's script of wake-ups stands for).  Returns the
    hub and the encoded classes. *)
Definition subq_enter (h : RedisSubHub) (classes : arg + list arg) (q : nat)
  : exn + (RedisSubHub * list bytes) :=
  let classes :=
    match classes with inl one => [one] | inr many => many end in
  match hub_encode_all h classes with
  | inl e => inl e
  | inr cls => inr (append_adds h (map (fun k => (k, q)) cls), cls)
  end.

(** The [finally] of [subq]: one removal per class is appended. *)
Definition subq_exit (h : RedisSubHub) (cls : list bytes) (q : nat)
  : RedisSubHub :=
  append_rms h (map (fun k => (k, q)) cls).

End HubProducers.

(* ===================================================================== *)
(** ** Vocabulary of the statements *)
(* ===================================================================== *)

(** The chunks of one request: the header, then one frame per element. *)
Definition request (all : list bytes) : list bytes :=
  (bs "*" ++ dec_bytes (length all) ++ CRLF) :: map bulk_frame all.

Definition sending (c : conn) (chunks : list bytes) : conn :=
  mkConn (inbuf c) (sent c ++ chunks) (wakes c).

(** A connection whose next input is [lit], followed by [rest]. *)
Definition arriving (lit rest : bytes) (log : list bytes) (w : list bool)
  : conn :=
  mkConn (lit ++ rest) log w.

Section Vocabulary.

Context {E : Env}.

(** The text a value that is neither bytes, integer nor float is sent
    as: its [str]. *)
Definition textual_form (v : arg) : option text :=
  match v with
  | ArgStr t => Some t
  | ArgBool b => Some (str_bool b)
  | ArgNone => Some (txt "None")
  | ArgObj o => Some (obj_str o)
  | ArgBytes _ | ArgInt _ | ArgFloat _ => None
  end.

(** The coercion of one element as the specification words it: raw bytes
    unchanged, integers as decimal text, floats as their [repr], anything
    else as its textual form; text is encoded with the configured
    charset and error mode. *)
Inductive coerced (self : RedisClient) : arg -> bytes -> Prop :=
| coerced_bytes b : coerced self (ArgBytes b) b
| coerced_int z out :
    str_encode (encoding self) (encoding_errors self) (str_int z) = inr out ->
    coerced self (ArgInt z) out
| coerced_float f out :
    str_encode (encoding self) (encoding_errors self) (float_repr f)
      = inr out ->
    coerced self (ArgFloat f) out
| coerced_other v t out :
    textual_form v = Some t ->
    str_encode (encoding self) (encoding_errors self) t = inr out ->
    coerced self v out.

(** The wire format of a request as the specification words it. *)
Definition resp_array (elements : list bytes) : bytes :=
  bs "*" ++ dec_bytes (length elements) ++ CRLF
  ++ concat (map (fun i => bs "$" ++ dec_bytes (length i) ++ CRLF
                           ++ i ++ CRLF) elements).

(** A charset that writes ASCII text as the same bytes, as UTF-8, ASCII
    and Latin-1 do. *)
Definition ascii_compatible (self : RedisClient) : Prop :=
  forall t, ascii_text t = true ->
    str_encode (encoding self) (encoding_errors self) t
      = inr (ascii_bytes t).

End Vocabulary.

Section CallVocabulary.

Context {E : Env}.

(** The next line the server sent is an error reply with message [msg]:
    a line that, once stripped, is [-] followed by [msg]. *)
Definition error_pending (c : conn) (msg : bytes) : Prop :=
  exists line rest,
    split_eol (inbuf c) = Some (line, rest) /\ strip line = "-"%byte :: msg.

(** The calls that send a command and hand its reply to
    [_get_response].  The others: [move] and the four subscription
    commands send and return at once; [send_raw_command] reads the reply
    itself; [get_from_subscriptions] sends nothing; [hmset] and [hmget]
    with nothing to set or get return without sending. *)
Definition reads_reply (m : call) : bool :=
  match m with
  | C_move _ _ => false
  | C_subscribe _ | C_unsubscribe _ | C_psubscribe _ | C_punsubscribe _ =>
      false
  | C_send_raw_command _ => false
  | C_get_from_subscriptions _ => false
  | C_hmset _ [] => false
  | C_hmget _ [] => false
  | _ => true
  end.

(** Reading the reply to a request and handing it back as it is, as
    [get], [multi], [exec_] and most methods do after sending. *)
Definition answer (self : RedisClient) : M pyval :=
  bind (_get_response self None) (fun resp => ret (VReply resp)).

(** The values a run of the loop can return, by the reply they come
    from. *)
Inductive delivered_from (self : RedisClient) (wake_sig : option text)
  : pyval -> Prop :=
| from_nothing : delivered_from self wake_sig VNone
| from_message c r0 x tl c' :
    _get_response self wake_sig c = (Return (Multi (r0 :: x :: tl)), c') ->
    atom_eq_bytes r0 (bs "message") = true ->
    delivered_from self wake_sig (VReply (Multi (x :: x :: tl)))
| from_pmessage c r0 tl c' :
    _get_response self wake_sig c = (Return (Multi (r0 :: tl)), c') ->
    atom_eq_bytes r0 (bs "pmessage") = true ->
    delivered_from self wake_sig (VReply (Multi tl)).

End CallVocabulary.

(** A computation that only reads: it leaves the log of sent chunks as
    it is and never makes the unread input longer. *)
Definition reader {A} (m : M A) : Prop :=
  forall c,
    sent (snd (m c)) = sent c
    /\ (length (inbuf (snd (m c))) <= length (inbuf c))%nat.

(** The classification of a channel as the specification words it: glob
    when it holds a star, a question mark, or both brackets. *)
Definition spec_isglob (channel : bytes) : bool :=
  contains "*" channel || contains "?" channel
  || (contains "[" channel && contains "]" channel).


(** A decimal digit. *)
Definition is_digit (c : byte) : bool :=
  match digit_val c with Some _ => true | None => false end.

(** Bytes without ASCII whitespace (so without a line terminator). *)
Definition clean (s : bytes) : bool :=
  forallb (fun c => negb (is_space c)) s.

(** A computation that consumes its input from the front and sends
    nothing: what is left unread is a suffix of what was unread. *)
Definition consumer {A} (m : M A) : Prop :=
  forall c,
    sent (snd (m c)) = sent c
    /\ exists taken, inbuf c = taken ++ inbuf (snd (m c)).

(** The value [_decode_response] makes of a bulk string: the bytes
    themselves, or their text when [decode_responses] is set. *)
Definition decoded_as {E : Env} (self : RedisClient) (b : bytes) (a : atom)
  : Prop :=
  if decode_responses self
  then exists t, bytes_decode (encoding self) b = inr t /\ a = AStr t
  else a = ABytes b.


(** The first bytes [_get_response] knows: the five reply kinds; and the
    three it accepts at the head of an array element. *)
Definition reply_marker (x : byte) : bool :=
  Byte.eqb x "+" || Byte.eqb x "$" || Byte.eqb x "*" || Byte.eqb x ":"
  || Byte.eqb x "-".


(** Queue [q] is in the set of channel [k]. *)
Definition subscribed (subs : list (bytes * list nat)) (k : bytes) (q : nat)
  : Prop :=
  exists qs, dict_get subs k = Some qs /\ In q qs.

(** The mapping after [subs[k].remove(q)] has left [qs'] in the set of
    [k]: the channel is deleted when its set is empty. *)
Definition removed_from (subs : list (bytes * list nat)) (k : bytes)
    (qs' : list nat) : list (bytes * list nat) :=
  match qs' with
  | [] => dict_del subs k
  | _ :: _ => dict_set subs k qs'
  end.

(** A computation whose results, when it returns, are all in [P]. *)
Definition yields {A} (m : M A) (P : A -> Prop) : Prop :=
  forall c a c', m c = (Return a, c') -> P a.

(** A reply that is a bytes object or has one among its elements. *)
Definition atom_is_bytes (a : atom) : bool :=
  match a with ABytes _ => true | _ => false end.

Definition holds_bytes (r : reply) : bool :=
  match r with
  | Scalar a => atom_is_bytes a
  | Multi l => existsb atom_is_bytes l
  end.

(** A computation that writes nothing, or one whole request. *)
Definition one_request {A} (m : M A) : Prop :=
  forall c,
    sent (snd (m c)) = sent c
    \/ exists all,
         all <> [] /\ sent (snd (m c)) = sent c ++ request all.

(** The sets of queues as the hub keeps them: no channel is left with
    an empty set, and no queue is in a set twice. *)
Definition sets_sound (subs : list (bytes * list nat)) : Prop :=
  forall k qs, dict_get subs k = Some qs -> qs <> [] /\ NoDup qs.

(** The calls that send a command and return at once. *)
Definition sends_only {E : Env} (m : call) : bool :=
  match m with
  | C_move _ _ => true
  | C_subscribe _ | C_unsubscribe _ | C_psubscribe _ | C_punsubscribe _ =>
      true
  | _ => false
  end.
(* ===================================================================== *)
(** ** A concrete environment: the default configuration *)
(* ===================================================================== *)

(** UTF-8, the default [encoding], with the error modes [strict],
    [replace] and [ignore]; [until_eol] keeps the terminator, as
    diesel's does.  It has no float, datetime or foreign object: the
    examples that run in it use bytes, integers and text (and [int] of a
    text reads ASCII digits only). *)
Module Utf8.

Definition is_surrogate (cp : N) : bool :=
  ((0xD800 <=? cp) && (cp <=? 0xDFFF))%N.

Definition cont (n : N) : byte :=
  byte_of_N (N.lor 0x80 (N.land n 0x3F)).

(** The bytes of one code point; [None] for a surrogate or a number
    that is no code point. *)
Definition encode_cp (cp : N) : option bytes :=
  (if cp <? 0x80 then Some [byte_of_N cp]
   else if cp <? 0x800 then
     Some [byte_of_N (N.lor 0xC0 (N.shiftr cp 6)); cont cp]
   else if is_surrogate cp then None
   else if cp <? 0x10000 then
     Some [byte_of_N (N.lor 0xE0 (N.shiftr cp 12));
           cont (N.shiftr cp 6); cont cp]
   else if cp <? 0x110000 then
     Some [byte_of_N (N.lor 0xF0 (N.shiftr cp 18));
           cont (N.shiftr cp 12); cont (N.shiftr cp 6); cont cp]
   else None)%N.

Fixpoint encode (errors : text) (t : text) : exn + bytes :=
  match t with
  | [] => inr []
  | cp :: t' =>
      let here :=
        match encode_cp cp with
        | Some b => inr b
        | None =>
            if text_eqb errors (txt "strict") then inl UnicodeError
            else if text_eqb errors (txt "replace") then inr (bs "?")
            else if text_eqb errors (txt "ignore") then inr []
            else inl LookupError
        end in
      match here with
      | inl e => inl e
      | inr b =>
          match encode errors t' with
          | inl e => inl e
          | inr r => inr (b ++ r)
          end
      end
  end.

Definition is_cont (b : N) : bool := (N.land b 0xC0 =? 0x80)%N.

Definition low6 (b : N) : N := N.land b 0x3F.

(** Strict decoding: overlong forms, surrogates and numbers above
    U+10FFFF are refused. *)
Fixpoint decode_N (s : list N) : option text :=
  match s with
  | [] => Some []
  | b0 :: r0 =>
      (if b0 <? 0x80 then option_map (cons b0) (decode_N r0)
       else
         match r0 with
         | [] => None
         | b1 :: r1 =>
             if negb (is_cont b1) then None
             else if N.land b0 0xE0 =? 0xC0 then
               let cp := N.lor (N.shiftl (N.land b0 0x1F) 6) (low6 b1) in
               if cp <? 0x80 then None
               else option_map (cons cp) (decode_N r1)
             else
               match r1 with
               | [] => None
               | b2 :: r2 =>
                   if negb (is_cont b2) then None
                   else if N.land b0 0xF0 =? 0xE0 then
                     let cp := N.lor (N.shiftl (N.land b0 0x0F) 12)
                                (N.lor (N.shiftl (low6 b1) 6) (low6 b2)) in
                     if (cp <? 0x800) || is_surrogate cp then None
                     else option_map (cons cp) (decode_N r2)
                   else
                     match r2 with
                     | [] => None
                     | b3 :: r3 =>
                         if negb (is_cont b3) then None
                         else if N.land b0 0xF8 =? 0xF0 then
                           let cp :=
                             N.lor (N.shiftl (N.land b0 0x07) 18)
                               (N.lor (N.shiftl (low6 b1) 12)
                                  (N.lor (N.shiftl (low6 b2) 6) (low6 b3))) in
                           if (cp <? 0x10000) || (0x10FFFF <? cp) then None
                           else option_map (cons cp) (decode_N r3)
                         else None
                     end
               end
         end)%N
  end.

Definition decode (b : bytes) : exn + text :=
  match decode_N (map Byte.to_N b) with
  | Some t => inr t
  | None => inl UnicodeError
  end.

Definition known (enc : text) : bool :=
  text_eqb enc (txt "utf-8") || text_eqb enc (txt "utf8").

End Utf8.

#[export] Instance std_env : Env := {|
  pyfloat := Empty_set;
  float_repr := fun f => match f with end;
  float_truthy := fun f => match f with end;
  float_of_Z := fun _ => None;
  float_of_bytes := fun _ => None;
  float_of_text := fun _ => None;
  int_of_text := fun t =>
    if ascii_text t then int_of_bytes (ascii_bytes t) else None;
  pydatetime := Empty_set;
  mktime := fun d => match d with end;
  pyobj := Empty_set;
  obj_str := fun o => match o with end;
  obj_truthy := fun o => match o with end;
  str_encode := fun enc errors t =>
    if Utf8.known enc then Utf8.encode errors t else inl LookupError;
  bytes_decode := fun enc b =>
    if Utf8.known enc then Utf8.decode b else inl LookupError;
  eol_kept := true
|}.

(** [RedisClient()] with its defaults, and the same with
    [decode_responses=True]. *)
Definition default_client : RedisClient :=
  mkClient ArgNone (txt "utf-8") (txt "strict") false.

Definition decoding_client : RedisClient :=
  mkClient ArgNone (txt "utf-8") (txt "strict") true.

(** A connection on which [input] is about to arrive and nothing has
    been sent. *)
Definition incoming (input : bytes) : conn := mkConn input [] [].

(** Sample objects for the runs below: a transaction that watches
    nothing, a lock on the key [lock] with the default lease of 30
    seconds and a sixteen-byte token, a hub with one pending subscription
    to the channel [a[]. *)
Definition sample_transaction : RedisTransaction :=
  mkTransaction default_client VNone [] false.

Definition sample_token : bytes :=
  [x9f; x1c; x02; x7b; xe4; x5d; x48; x0a;
   xb3; x16; x8e; x21; x0d; x0a; xf5; x6c].

Definition sample_lock : RedisLock :=
  mkLock default_client (bs "lock") 30 sample_token None 0.

Definition sample_hub : RedisSubHub :=
  mkHub default_client (txt "wake") [(bs "a[", 0%nat)] [] [] [].

(** A fault raised by the block of a transaction. *)
Definition sample_fault : exn := OtherError (txt "ValueError").

(* ===================================================================== *)
(** ** Facts about the codec *)
(* ===================================================================== *)

Lemma bytes_eqb_eq a b : bytes_eqb a b = true <-> a = b.
Proof.
  unfold bytes_eqb. destruct (list_eq_dec _ a b); split; congruence.
Qed.

Lemma bytes_eqb_refl a : bytes_eqb a a = true.
Proof. now apply bytes_eqb_eq. Qed.

Lemma bytes_eqb_neq a b : a <> b -> bytes_eqb a b = false.
Proof.
  intros H. unfold bytes_eqb. destruct (list_eq_dec _ a b); congruence.
Qed.

(** Stripping does not see the line terminator. *)
Lemma lstrip_app_nonspace l w :
  lstrip l <> [] -> lstrip (l ++ w) = lstrip l ++ w.
Proof.
  induction l as [|x l IH]; simpl; [congruence|].
  destruct (is_space x); auto.
Qed.

Lemma lstrip_all_space l w :
  lstrip l = [] -> lstrip (l ++ w) = lstrip w.
Proof.
  induction l as [|x l IH]; simpl; auto.
  destruct (is_space x); auto. discriminate.
Qed.

Lemma strip_CRLF l : strip (l ++ CRLF) = strip l.
Proof.
  unfold strip, rstrip.
  destruct (lstrip l) as [|y t] eqn:Hl.
  - rewrite lstrip_all_space by assumption. reflexivity.
  - rewrite lstrip_app_nonspace by (rewrite Hl; discriminate).
    rewrite Hl, rev_app_distr. reflexivity.
Qed.

Section CodecFacts.

Context {E : Env}.

(** The line [until_eol] hands over strips to the same bytes whether or
    not it keeps the terminator. *)
Lemma strip_eol line :
  strip (if eol_kept then line ++ CRLF else line) = strip line.
Proof. destruct eol_kept; [apply strip_CRLF | reflexivity]. Qed.

Lemma until_eol_line c line rest :
  split_eol (inbuf c) = Some (line, rest) ->
  until_eol c =
    (Return (if eol_kept then line ++ CRLF else line), set_inbuf c rest).
Proof. intros H. unfold until_eol. now rewrite H. Qed.

Lemma send_each_spec all c :
  send_each all c = (Return tt, sending c (map bulk_frame all)).
Proof.
  revert c. induction all as [|i all IH]; intros c; simpl.
  - unfold ret, sending. rewrite app_nil_r. now destruct c.
  - unfold bind, send at 1. rewrite IH. unfold sending; simpl.
    now rewrite <- app_assoc.
Qed.

Lemma _send_ok self c0 args kw all c :
  encode_all self (c0 :: match kw with Some l => l | None => args end)
    = inr all ->
  _send self c0 args kw c = (Return tt, sending c (request all)).
Proof.
  intros H. unfold _send. rewrite H. unfold bind at 1. simpl.
  unfold bind, send at 1. rewrite send_each_spec.
  unfold sending, request; simpl. now rewrite <- app_assoc.
Qed.

Lemma _send_fails self c0 args kw e c :
  encode_all self (c0 :: match kw with Some l => l | None => args end)
    = inl e ->
  _send self c0 args kw c = (Raise e, c).
Proof. intros H. unfold _send. rewrite H. reflexivity. Qed.

Lemma _send_cases self c0 args kw c :
  (exists e, _send self c0 args kw c = (Raise e, c)) \/
  (exists chunks, _send self c0 args kw c = (Return tt, sending c chunks)).
Proof.
  destruct (encode_all self
              (c0 :: match kw with Some l => l | None => args end))
    as [e|all] eqn:H.
  - left. exists e. now apply _send_fails.
  - right. exists (request all). now apply _send_ok.
Qed.

(** A line that begins with [-] makes [_get_response] raise. *)
Lemma decode_line_error self msg c :
  decode_line self ("-"%byte :: msg) c = (Raise (RedisError msg), c).
Proof. reflexivity. Qed.

Lemma _get_response_error self c line rest msg :
  split_eol (inbuf c) = Some (line, rest) ->
  strip line = "-"%byte :: msg ->
  _get_response self None c = (Raise (RedisError msg), set_inbuf c rest).
Proof.
  intros Hl Hs. unfold _get_response; simpl. unfold bind.
  rewrite (until_eol_line _ _ _ Hl), strip_eol, Hs. reflexivity.
Qed.

End CodecFacts.

(* ===================================================================== *)
(** ** Reading leaves the log alone and only consumes input *)
(* ===================================================================== *)

Lemma split_eol_shorter s line rest :
  split_eol s = Some (line, rest) -> (length rest < length s)%nat.
Proof.
  revert line. induction s as [|x s IH]; intros line; simpl; [discriminate|].
  assert (Hgen : match split_eol s with
                 | Some (l, r) => Some (x :: l, r)
                 | None => None
                 end = Some (line, rest) -> (length rest < S (length s))%nat).
  { destruct (split_eol s) as [[l r]|] eqn:Hs; [|discriminate].
    intros H. injection H as <- <-. specialize (IH l eq_refl). lia. }
  destruct x; try exact Hgen.
  destruct s as [|y s']; [exact Hgen|].
  destruct y; try exact Hgen.
  intros H. injection H as <- <-. simpl. lia.
Qed.

Section Readers.

Context {E : Env}.

Lemma reader_ret {A} (a : A) : reader (ret a).
Proof. intros c. simpl. auto. Qed.

Lemma reader_raise {A} (e : exn) : reader (@raise A e).
Proof. intros c. simpl. auto. Qed.

Lemma reader_bind {A B} (m : M A) (k : A -> M B) :
  reader m -> (forall a, reader (k a)) -> reader (bind m k).
Proof.
  intros Hm Hk c. unfold bind. specialize (Hm c).
  destruct (m c) as [[a|e|] c']; simpl in *; auto.
  specialize (Hk a c'). destruct Hk, Hm. split; [congruence | lia].
Qed.

Lemma reader_of_option {A} e (o : option A) : reader (of_option e o).
Proof. destruct o; [apply reader_ret | apply reader_raise]. Qed.

Lemma reader_of_sum {A} (s : exn + A) : reader (of_sum s).
Proof. destruct s; [apply reader_raise | apply reader_ret]. Qed.

Lemma reader_until_eol : reader until_eol.
Proof.
  intros c. unfold until_eol.
  destruct (split_eol (inbuf c)) as [[l r]|] eqn:H; simpl; auto.
  apply split_eol_shorter in H. split; [reflexivity | lia].
Qed.

Lemma reader_receive n : reader (receive n).
Proof.
  intros c. unfold receive.
  destruct (Nat.leb _ _); simpl; auto.
  split; [reflexivity|]. rewrite length_skipn. lia.
Qed.

Lemma reader_first_byte s : reader (first_byte s).
Proof. destruct s; [apply reader_raise | apply reader_ret]. Qed.

Lemma reader_int_ s : reader (int_ s).
Proof. apply reader_of_option. Qed.

Lemma reader__decode_response self a : reader (_decode_response self a).
Proof.
  destruct a; simpl; try apply reader_ret.
  destruct (decode_responses self); [|apply reader_ret].
  apply reader_bind; [apply reader_of_sum | intros; apply reader_ret].
Qed.

Create HintDb readers.

#[local] Hint Resolve reader_ret reader_raise reader_of_option reader_of_sum
  reader_until_eol reader_receive reader_first_byte reader_int_
  reader__decode_response : readers.

Ltac readers :=
  repeat first
    [ apply reader_bind; [|intros]
    | match goal with
      | |- reader (if ?b then _ else _) => destruct b
      end
    | solve [auto with readers] ].

Lemma reader_read_elements self n : forall resp,
  reader (read_elements self n resp).
Proof.
  induction n as [|n IH]; intros resp; simpl; [apply reader_ret|].
  readers; apply IH.
Qed.

Lemma reader_decode_line self fl : reader (decode_line self fl).
Proof.
  unfold decode_line. readers. apply reader_read_elements.
Qed.

Lemma reader_first_until_eol : reader first_until_eol.
Proof.
  intros c. unfold first_until_eol.
  destruct (wakes c) as [|[|] w]; simpl; auto.
  - apply (reader_bind until_eol (fun line => ret (EvUntilEol line)));
      auto with readers.
  - pose proof (reader_bind until_eol (fun line => ret (EvUntilEol line))
                  reader_until_eol (fun a => reader_ret _)
                  (set_wakes c w)) as H.
    exact H.
Qed.

Lemma reader__get_response self w : reader (_get_response self w).
Proof.
  unfold _get_response. destruct (sig_truthy w).
  - apply reader_bind; [apply reader_first_until_eol|].
    intros [val|]; [apply reader_decode_line | apply reader_ret].
  - apply reader_bind; [apply reader_until_eol|].
    intros; apply reader_decode_line.
Qed.

(** A reply that is read takes at least its line out of the input,
    unless the wake signal came first. *)
Lemma until_eol_consumes c line c' :
  until_eol c = (Return line, c') ->
  (length (inbuf c') < length (inbuf c))%nat /\ wakes c' = wakes c.
Proof.
  unfold until_eol.
  destruct (split_eol (inbuf c)) as [[l r]|] eqn:H; [|discriminate].
  intros Heq. injection Heq as _ <-. simpl.
  split; [now apply split_eol_shorter in H | reflexivity].
Qed.

Lemma _get_response_consumes self w c r c' :
  _get_response self w c = (Return r, c') ->
  truthy r = true ->
  (length (inbuf c') < length (inbuf c))%nat.
Proof.
  unfold _get_response. intros H Ht.
  assert (Hline : forall c0 (k : bytes -> M reply),
            (forall l, reader (k l)) ->
            bind until_eol k c0 = (Return r, c') ->
            (length (inbuf c') < length (inbuf c0))%nat).
  { intros c0 k Hk. unfold bind.
    destruct (until_eol c0) as [[line|e|] c1] eqn:Hu; try discriminate.
    intros Hd. apply until_eol_consumes in Hu.
    pose proof (Hk line c1) as [_ Hle]. rewrite Hd in Hle. simpl in Hle. lia. }
  destruct (sig_truthy w).
  - unfold bind at 1 in H. unfold first_until_eol in H.
    destruct (wakes c) as [|[|] ws].
    + apply (Hline c (fun line => decode_line self (strip line))).
      * intros; apply reader_decode_line.
      * unfold bind in *.
        destruct (until_eol c) as [[line|e|] c1]; simpl in *; auto.
    + simpl in H. injection H as <- _. discriminate.
    + change (length (inbuf c)) with (length (inbuf (set_wakes c ws))).
      apply (Hline (set_wakes c ws)
               (fun line => decode_line self (strip line))).
      * intros; apply reader_decode_line.
      * unfold bind in *.
        destruct (until_eol (set_wakes c ws)) as [[line|e|] c1];
          simpl in *; auto.
  - apply (Hline c (fun line => decode_line self (strip line))); auto.
    intros; apply reader_decode_line.
Qed.

End Readers.

(* ===================================================================== *)
(** ** Decoding replies *)
(* ===================================================================== *)

(** Runs the decoder on input whose beginning is known. *)
Ltac decode_all :=
  repeat (cbv beta iota zeta delta
            [_get_response decode_line read_elements _decode_response
             until_eol receive first_byte int_ of_option of_sum bind ret
             raise sig_truthy arriving set_inbuf inbuf sent wakes RNone CRLF
             strip rstrip drop1];
          simpl).

Section Decoding.

Context {E : Env}.

Variable self : RedisClient.

(** C5. [$-1] decodes to [None] and [$0] followed by an empty line to an
    empty bytes object (to the text the charset makes of it when
    [decode_responses] is set), which is not [None]; [*-1] decodes to
    [None] and [*0] to an empty list, which is not [None].  Each decoding
    consumes exactly its own bytes. *)
Theorem nil_is_not_empty :
  forall rest log w,
    _get_response self None (arriving (bs "$-1" ++ CRLF) rest log w)
      = (Return RNone, mkConn rest log w)
    /\ _get_response self None (arriving (bs "$0" ++ CRLF ++ CRLF) rest log w)
      = ((if decode_responses self then
            match bytes_decode (encoding self) [] with
            | inr t => Return (Scalar (AStr t))
            | inl e => Raise e
            end
          else Return (Scalar (ABytes []))),
         mkConn rest log w)
    /\ (forall t, RNone <> Scalar (ABytes []) /\ RNone <> Scalar (AStr t))
    /\ _get_response self None (arriving (bs "*-1" ++ CRLF) rest log w)
      = (Return RNone, mkConn rest log w)
    /\ _get_response self None (arriving (bs "*0" ++ CRLF) rest log w)
      = (Return (Multi []), mkConn rest log w)
    /\ RNone <> Multi [].
Proof.
  intros rest log w.
  repeat split; try discriminate; decode_all;
    destruct eol_kept; decode_all; try reflexivity.
  all: destruct (decode_responses self); decode_all; try reflexivity.
  all: destruct (bytes_decode (encoding self) []); reflexivity.
Qed.

(** C8. The reply [*3 :1 $3 foo +OK] decodes to the list of the integer
    1, the bulk string foo and the simple string OK, in that order: as
    bytes objects by default, as the texts the charset makes of them
    when [decode_responses] is set. *)
Theorem array_decode :
  forall rest log w,
    let c := arriving (bs "*3" ++ CRLF ++ bs ":1" ++ CRLF ++ bs "$3" ++ CRLF
                         ++ bs "foo" ++ CRLF ++ bs "+OK" ++ CRLF)
               rest log w in
    (decode_responses self = false ->
     _get_response self None c
       = (Return (Multi [AInt 1; ABytes (bs "foo"); ABytes (bs "OK")]),
          mkConn rest log w))
    /\ (forall foo ok,
          decode_responses self = true ->
          bytes_decode (encoding self) (bs "foo") = inr foo ->
          bytes_decode (encoding self) (bs "OK") = inr ok ->
          _get_response self None c
            = (Return (Multi [AInt 1; AStr foo; AStr ok]),
               mkConn rest log w)).
Proof.
  intros rest log w c. subst c. split.
  - intros Hd. decode_all.
    destruct eol_kept; decode_all; repeat (rewrite Hd; decode_all);
      reflexivity.
  - intros foo ok Hd Hf Ho.
    change (bs "foo") with ["f"%byte; "o"%byte; "o"%byte] in Hf.
    change (bs "OK") with ["O"%byte; "K"%byte] in Ho.
    decode_all.
    destruct eol_kept; decode_all;
      repeat first [rewrite Hd | rewrite Hf | rewrite Ho
                   | progress decode_all];
      reflexivity.
Qed.

End Decoding.

(* ===================================================================== *)
(** ** Encoding requests *)
(* ===================================================================== *)

Section Encoding.

Context {E : Env}.

Variable self : RedisClient.

Lemma _encode_coerced v out : _encode self v = inr out <-> coerced self v out.
Proof.
  split.
  - unfold _encode. destruct v; simpl; intros H;
      try (injection H as <-; constructor);
      try (now constructor);
      try (eapply coerced_other; [reflexivity | exact H]).
  - intros H. destruct H as [b|z out H|f out H|v t out Ht H];
      unfold _encode; simpl; auto.
    destruct v; simpl in *; try discriminate;
      injection Ht as <-; exact H.
Qed.

Lemma encode_all_coerced values all :
  encode_all self values = inr all <-> Forall2 (coerced self) values all.
Proof.
  revert all. induction values as [|v vs IH]; intros all; simpl.
  - split.
    + intros H. injection H as <-. constructor.
    + intros H. inversion H. reflexivity.
  - destruct (_encode self v) as [e|b] eqn:Hv.
    + split; [discriminate|].
      intros H. inversion H as [|? out ? ? Hc]; subst.
      apply _encode_coerced in Hc. congruence.
    + destruct (encode_all self vs) as [e|r] eqn:Hvs.
      * split; [discriminate|].
        intros H. inversion H as [|? out ? l' Hc Hr]; subst.
        apply IH in Hr. discriminate.
      * split.
        -- intros H. injection H as <-. constructor.
           ++ now apply _encode_coerced.
           ++ now apply IH.
        -- intros H. inversion H as [|? out ? l' Hc Hr]; subst.
           apply _encode_coerced in Hc. apply IH in Hr. congruence.
Qed.

Lemma wire_sending c chunks : wire (sending c chunks) = wire c ++ concat chunks.
Proof. unfold wire, sending; simpl. apply concat_app. Qed.

Lemma concat_request all : concat (request all) = resp_array all.
Proof.
  unfold request, resp_array, bulk_frame. simpl.
  now rewrite <- !app_assoc.
Qed.

(** C9. For a command and arguments whose elements coerce to the byte
    strings [all] (bytes unchanged, integers as decimal text, floats as
    their repr, the rest as their textual form, text encoded with the
    client's charset and error mode), [_send] returns after writing
    exactly the header for N = 1 + the number of arguments, then one
    length-prefixed frame per element, in order; it reads nothing. *)
Theorem send_wire_format :
  forall (c0 : arg) (args : list arg) (all : list bytes) (c : conn),
    Forall2 (coerced self) (c0 :: args) all ->
    exists c',
      _send self c0 args None c = (Return tt, c')
      /\ wire c'
         = wire c ++ bs "*" ++ dec_bytes (1 + length args) ++ CRLF
           ++ concat (map (fun i => bs "$" ++ dec_bytes (length i) ++ CRLF
                                    ++ i ++ CRLF) all)
      /\ length all = (1 + length args)%nat
      /\ inbuf c' = inbuf c.
Proof.
  intros c0 args all c H.
  pose proof (Forall2_length H) as Hlen. simpl in Hlen.
  apply encode_all_coerced in H.
  exists (sending c (request all)). repeat split.
  - now apply _send_ok.
  - rewrite wire_sending, concat_request. unfold resp_array.
    now rewrite <- Hlen.
  - now rewrite <- Hlen.
Qed.

(** With [list=] the elements come from the keyword and the positional
    arguments are dropped. *)
Lemma send_list_keyword c0 args l c :
  _send self c0 args (Some l) c = _send self c0 l None c.
Proof. reflexivity. Qed.

(** An element that cannot be encoded fails the call before anything is
    written. *)
Lemma send_encode_failure c0 args e c :
  encode_all self (c0 :: args) = inl e ->
  _send self c0 args None c = (Raise e, c).
Proof. intros H. now apply _send_fails. Qed.

End Encoding.

(** Lengths and integers are written in decimal. *)
Example dec_bytes_examples :
  dec_bytes 0 = bs "0" /\ dec_bytes 7 = bs "7" /\ dec_bytes 1024 = bs "1024"
  /\ str_int 0 = txt "0" /\ str_int (-45) = txt "-45"
  /\ str_int 1200 = txt "1200".
Proof. repeat split. Qed.

(* ===================================================================== *)
(** ** Error replies *)
(* ===================================================================== *)

Section ErrorReplies.

Context {E : Env}.

Variable self : RedisClient.

(** Send, read, post-process: when an error reply is waiting, the call
    raises it, unless it failed before anything was sent. *)
Lemma send_then_read_error c0 args kw (post : reply -> M pyval) c msg :
  error_pending c msg ->
  fst (bind (_send self c0 args kw)
         (fun _ => bind (_get_response self None) post) c)
    = Raise (RedisError msg)
  \/ exists e,
       bind (_send self c0 args kw)
         (fun _ => bind (_get_response self None) post) c = (Raise e, c).
Proof.
  intros (line & rest & Hl & Hs).
  destruct (_send_cases self c0 args kw c) as [[e He]|[chunks Hc]].
  - right. exists e. unfold bind at 1. now rewrite He.
  - left. unfold bind at 1. rewrite Hc. unfold bind.
    rewrite (_get_response_error self (sending c chunks) line rest msg Hl Hs).
    reflexivity.
Qed.

Lemma send_star_then_read_error args (post : reply -> M pyval) c msg :
  args <> [] ->
  error_pending c msg ->
  fst (bind (send_star self args)
         (fun _ => bind (_get_response self None) post) c)
    = Raise (RedisError msg)
  \/ exists e,
       bind (send_star self args)
         (fun _ => bind (_get_response self None) post) c = (Raise e, c).
Proof.
  intros Hne H. destruct args as [|c0 rest]; [congruence|].
  now apply send_then_read_error.
Qed.

(** C6, as the code has it.  Every command method that sends a command
    and reads its reply through [_get_response] fails with [RedisError]
    carrying the server's message when the reply is an error reply; the
    only other outcome is a failure before anything was sent (an
    argument that cannot be encoded, a precondition of the method). *)
Theorem reading_methods_raise_server_error :
  forall (m : call) (c : conn) (msg : bytes),
    reads_reply m = true ->
    error_pending c msg ->
    fst (invoke self m c) = Raise (RedisError msg)
    \/ exists e, invoke self m c = (Raise e, c).
Proof.
  intros m c msg Hr Hp.
  destruct m; simpl in Hr; try discriminate; simpl;
    try (now apply send_then_read_error).
  - (* expireat *)
    unfold Cmd.expireat. unfold bind at 1.
    destruct (mktime when) as [e|t]; simpl.
    + right. now exists e.
    + now apply send_then_read_error.
  - (* zrange *)
    unfold Cmd.zrange. destruct with_scores;
      now apply send_star_then_read_error.
  - (* zrevrange *)
    unfold Cmd.zrevrange. destruct with_scores;
      now apply send_star_then_read_error.
  - (* zrangebyscore *)
    unfold Cmd.zrangebyscore. unfold bind at 1.
    destruct (arg_truthy offset); [destruct count|]; simpl;
      try (right; eexists; reflexivity);
      destruct with_scores; now apply send_star_then_read_error.
  - (* hmset *)
    destruct d as [|kv d]; [discriminate|].
    now apply send_then_read_error.
  - (* hmget *)
    destruct l as [|k l]; [discriminate|].
    now apply send_then_read_error.
Qed.

End ErrorReplies.

(* ===================================================================== *)
(** ** What the transaction and lock commands put on the wire *)
(* ===================================================================== *)

Lemma byte_of_N_to_N b : byte_of_N (Byte.to_N b) = b.
Proof. unfold byte_of_N. now rewrite Byte.of_to_N. Qed.

Lemma ascii_bytes_txt s : ascii_bytes (txt s) = bs s.
Proof.
  unfold ascii_bytes, txt, bs. rewrite map_map.
  induction (list_byte_of_string s) as [|b l IH]; simpl; [reflexivity|].
  now rewrite byte_of_N_to_N, IH.
Qed.

Lemma ascii_text_uint d :
  ascii_text (txt (NilEmpty.string_of_uint d)) = true.
Proof. induction d; simpl; auto. Qed.

Lemma ascii_text_NilZero d :
  ascii_text (txt (NilZero.string_of_uint d)) = true.
Proof.
  unfold NilZero.string_of_uint.
  destruct d; try reflexivity;
    match goal with
    | |- context [NilEmpty.string_of_uint ?x] =>
        change (ascii_text (txt (NilEmpty.string_of_uint x)) = true)
    end; apply ascii_text_uint.
Qed.

(** The decimal text of an integer is ASCII. *)
Lemma str_int_ascii z : ascii_text (str_int z) = true.
Proof.
  unfold str_int, NilZero.string_of_int.
  destruct (Z.to_int z) as [d|d].
  - apply ascii_text_NilZero.
  - change ((45 <? 128)%N && ascii_text (txt (NilZero.string_of_uint d))
            = true).
    now rewrite ascii_text_NilZero.
Qed.

Section Commands.

Context {E : Env}.

Variable self : RedisClient.

Hypothesis Hascii : ascii_compatible self.

Lemma encode_name s :
  ascii_text (txt s) = true -> _encode self (cmd s) = inr (bs s).
Proof.
  intros H. unfold _encode, cmd; simpl.
  rewrite (Hascii _ H). now rewrite ascii_bytes_txt.
Qed.

Lemma encode_all_bytes ks :
  encode_all self (map ArgBytes ks) = inr ks.
Proof. induction ks as [|k ks IH]; simpl; [reflexivity | now rewrite IH]. Qed.

Lemma encode_name_bytes s ks :
  ascii_text (txt s) = true ->
  encode_all self (cmd s :: map ArgBytes ks) = inr (bs s :: ks).
Proof.
  intros H. change (encode_all self (cmd s :: map ArgBytes ks))
    with (match _encode self (cmd s) with
          | inl e => inl e
          | inr b => match encode_all self (map ArgBytes ks) with
                     | inl e => inl e
                     | inr r => inr (b :: r)
                     end
          end).
  now rewrite (encode_name s H), encode_all_bytes.
Qed.

Lemma encode_setex k z v :
  encode_all self [cmd "SETEX"; ArgBytes k; ArgInt z; ArgBytes v]
  = inr [bs "SETEX"; k; ascii_bytes (str_int z); v].
Proof.
  cbn [encode_all]. rewrite (encode_name "SETEX" eq_refl).
  unfold _encode; simpl.
  now rewrite (Hascii _ (str_int_ascii z)).
Qed.

(** A method that sends [all] and reads the reply: the request goes out,
    then the reply is read and post-processed. *)
Lemma command_exchange c0 args kw all (post : reply -> M pyval) c :
  encode_all self (c0 :: match kw with Some l => l | None => args end)
    = inr all ->
  bind (_send self c0 args kw) (fun _ => bind (_get_response self None) post) c
  = bind (_get_response self None) post (sending c (request all)).
Proof.
  intros H. unfold bind at 1. now rewrite (_send_ok _ _ _ _ _ _ H).
Qed.

Lemma exchange_sent (post : reply -> M pyval) c chunks :
  (forall r, reader (post r)) ->
  sent (snd (bind (_get_response self None) post (sending c chunks)))
  = sent c ++ chunks.
Proof.
  intros Hp.
  pose proof (reader_bind _ _ (reader__get_response self None) Hp
                (sending c chunks)) as [Hs _].
  rewrite Hs. reflexivity.
Qed.

Lemma watch_wire ks c :
  Cmd.watch self (map ArgBytes ks) c
  = answer self (sending c (request (bs "WATCH" :: ks))).
Proof.
  unfold Cmd.watch, answer. apply command_exchange.
  now apply encode_name_bytes.
Qed.

Lemma get_wire k c :
  Cmd.get self (ArgBytes k) c = answer self (sending c (request [bs "GET"; k])).
Proof.
  unfold Cmd.get, answer. apply command_exchange.
  now apply (encode_name_bytes "GET" [k]).
Qed.

Lemma multi_wire c :
  Cmd.multi self c = answer self (sending c (request [bs "MULTI"])).
Proof.
  unfold Cmd.multi, answer. apply command_exchange.
  now apply (encode_name_bytes "MULTI" []).
Qed.

Lemma exec_wire c :
  Cmd.exec_ self c = answer self (sending c (request [bs "EXEC"])).
Proof.
  unfold Cmd.exec_, answer. apply command_exchange.
  now apply (encode_name_bytes "EXEC" []).
Qed.

Lemma discard_wire c :
  Cmd.discard self c = answer self (sending c (request [bs "DISCARD"])).
Proof.
  unfold Cmd.discard, answer. apply command_exchange.
  now apply (encode_name_bytes "DISCARD" []).
Qed.

Lemma setex_wire k z v c :
  Cmd.setex self (ArgBytes k) (ArgInt z) (ArgBytes v) c
  = answer self
      (sending c (request [bs "SETEX"; k; ascii_bytes (str_int z); v])).
Proof.
  unfold Cmd.setex, answer. apply command_exchange. apply encode_setex.
Qed.

Lemma delete_wire k c :
  Cmd.delete self (ArgBytes k) c
  = bind (_get_response self None)
      (fun resp => ret (VBool (truthy resp)))
      (sending c (request [bs "DEL"; k])).
Proof.
  unfold Cmd.delete. apply command_exchange.
  now apply (encode_name_bytes "DEL" [k]).
Qed.

Lemma answer_sent c chunks :
  sent (snd (answer self (sending c chunks))) = sent c ++ chunks.
Proof. apply exchange_sent. intros; apply reader_ret. Qed.

Lemma answer_return c v c' :
  answer self c = (Return v, c') ->
  exists r, v = VReply r /\ _get_response self None c = (Return r, c').
Proof.
  unfold answer, bind.
  destruct (_get_response self None c) as [[r|e|] c1]; try discriminate.
  intros H. injection H as <- <-. now exists r.
Qed.

Lemma answer_of_reply c r c' :
  _get_response self None c = (Return r, c') ->
  answer self c = (Return (VReply r), c').
Proof. intros H. unfold answer, bind. now rewrite H. Qed.

Lemma answer_of_raise c e c' :
  _get_response self None c = (Raise e, c') -> answer self c = (Raise e, c').
Proof. intros H. unfold answer, bind. now rewrite H. Qed.

End Commands.

(* ===================================================================== *)
(** ** Transactions *)
(* ===================================================================== *)

Section TransactionFacts.

Context {E : Env}.

Lemma decode_nil_array self rest log w :
  _get_response self None (arriving (bs "*-1" ++ CRLF) rest log w)
  = (Return RNone, mkConn rest log w).
Proof. decode_all. destruct eol_kept; reflexivity. Qed.

Lemma transaction_fresh cl watch c0 t c :
  transaction cl watch c0 = (Return t, c) ->
  client t = cl /\ value t = VNone /\ aborted t = false.
Proof.
  unfold transaction, RedisTransaction___init__.
  destruct (match watch with Some (k :: l) => k :: l | _ => [] end).
  - intros H. injection H as <- _. auto.
  - unfold bind.
    destruct (Cmd.watch cl (a :: l) c0) as [[v|e|] c1]; try discriminate.
    intros H. injection H as <- _. auto.
Qed.

(** C1. A transaction block that is entered and runs to its end calls
    [exec_], which issues EXEC and nothing else.  A reply to EXEC that is
    not [None] becomes the transaction's [value] as it was decoded, and
    the block completes; a [None] reply (the nil array in particular)
    marks the transaction aborted and raises [RedisTransactionError], so
    the block never completes on it.  (What EXEC is on the wire depends
    on the charset: the last three facts are for one that writes ASCII
    as it is.) *)
Theorem transaction_exec_on_normal_exit :
  forall (A : Type) (t : RedisTransaction) (body : M A)
         (c c1 c2 : conn) (a : A),
    RedisTransaction___enter__ t c = (Return tt, c1) ->
    body c1 = (Return a, c2) ->
    (forall v c3,
       Cmd.exec_ (client t) c2 = (Return v, c3) ->
       with_transaction t body c
       = if val_is_None v
         then (Raise (RedisTransactionError watched_key_changed),
               set_aborted (set_value t v) true, c3)
         else (Return (Some a), set_value t v, c3))
    /\ (ascii_compatible (client t) ->
        let asked := sending c2 (request [bs "EXEC"]) in
        sent (snd (with_transaction t body c))
        = sent c2 ++ request [bs "EXEC"]
        /\ (forall r c3,
              _get_response (client t) None asked = (Return r, c3) ->
              with_transaction t body c
              = if is_None r
                then (Raise (RedisTransactionError watched_key_changed),
                      set_aborted (set_value t VNone) true, c3)
                else (Return (Some a), set_value t (VReply r), c3))
        /\ (forall rest,
              inbuf c2 = bs "*-1" ++ CRLF ++ rest ->
              with_transaction t body c
              = (Raise (RedisTransactionError watched_key_changed),
                 set_aborted (set_value t VNone) true,
                 mkConn rest (sent c2 ++ request [bs "EXEC"]) (wakes c2)))).
Proof.
  intros A t body c c1 c2 a Henter Hbody.
  assert (Hcall : forall v c3,
            Cmd.exec_ (client t) c2 = (Return v, c3) ->
            with_transaction t body c
            = if val_is_None v
              then (Raise (RedisTransactionError watched_key_changed),
                    set_aborted (set_value t v) true, c3)
              else (Return (Some a), set_value t v, c3)).
  { intros v c3 Hx. unfold with_transaction. rewrite Henter, Hbody.
    unfold RedisTransaction___exit__. rewrite Hx.
    destruct (val_is_None v); reflexivity. }
  split; [exact Hcall|]. intros Hascii asked.
  assert (Hreply : forall r c3,
            _get_response (client t) None asked = (Return r, c3) ->
            with_transaction t body c
            = if is_None r
              then (Raise (RedisTransactionError watched_key_changed),
                    set_aborted (set_value t VNone) true, c3)
              else (Return (Some a), set_value t (VReply r), c3)).
  { intros r c3 Hr. rewrite (Hcall (VReply r) c3).
    - simpl. destruct r as [[| | |]|]; reflexivity.
    - rewrite (exec_wire _ Hascii). now apply answer_of_reply. }
  split; [|split].
  - unfold with_transaction. rewrite Henter, Hbody.
    unfold RedisTransaction___exit__. rewrite (exec_wire _ Hascii).
    pose proof (answer_sent (client t) c2 (request [bs "EXEC"])) as Hs.
    destruct (answer (client t) (sending c2 (request [bs "EXEC"])))
      as [[v|e|] c3]; simpl in *; auto.
    destruct (val_is_None v); simpl; auto.
  - exact Hreply.
  - intros rest Hin.
    apply (Hreply RNone
             (mkConn rest (sent c2 ++ request [bs "EXEC"]) (wakes c2))).
    subst asked. unfold sending. rewrite Hin.
    apply (decode_nil_array (client t) rest
             (sent c2 ++ request [bs "EXEC"]) (wakes c2)).
Qed.

(** C2, as the code has it.  A block that raises makes the transaction
    call [discard], never [exec_], and leaves [value] as [__init__] set
    it, [None].  When the DISCARD call returns, the fault of the block is
    what the caller sees, unchanged, and the transaction is marked
    aborted; when the DISCARD call itself raises (the server answers it
    with an error), that error is what the caller sees; while no answer
    comes the call stays suspended.  (On a charset
    that writes ASCII as it is, DISCARD is the only request sent.) *)
Theorem transaction_discard_on_fault :
  forall (A : Type) (cl : RedisClient) (watch : option (list arg))
         (t : RedisTransaction) (body : M A) (c0 c c1 c2 : conn) (e : exn),
    transaction cl watch c0 = (Return t, c) ->
    RedisTransaction___enter__ t c = (Return tt, c1) ->
    body c1 = (Raise e, c2) ->
    let r := with_transaction t body c in
    value (snd (fst r)) = VNone
    /\ (forall x c3,
          Cmd.discard cl c2 = (Return x, c3) ->
          r = (Raise e, set_aborted t true, c3))
    /\ (forall e' c3,
          Cmd.discard cl c2 = (Raise e', c3) ->
          r = (Raise e', t, c3))
    /\ (forall c3,
          Cmd.discard cl c2 = (Blocked, c3) ->
          r = (Blocked, t, c3))
    /\ (ascii_compatible cl ->
        sent (snd r) = sent c2 ++ request [bs "DISCARD"]).
Proof.
  intros A cl watch t body c0 c c1 c2 e Hnew Henter Hbody r.
  destruct (transaction_fresh _ _ _ _ _ Hnew) as (Hcl & Hval & _).
  subst cl. subst r. unfold with_transaction. rewrite Henter, Hbody.
  unfold RedisTransaction___exit__. split; [|split; [|split; [|split]]].
  - destruct (Cmd.discard (client t) c2) as [[v|e'|] c3]; simpl; auto.
  - intros x c3 Hd. now rewrite Hd.
  - intros e' c3 Hd. now rewrite Hd.
  - intros c3 Hd. now rewrite Hd.
  - intros Hascii. rewrite (discard_wire _ Hascii).
    pose proof (answer_sent (client t) c2 (request [bs "DISCARD"])) as Hs.
    destruct (answer (client t) (sending c2 (request [bs "DISCARD"])))
      as [[v|e'|] c3]; simpl in *; auto.
Qed.

End TransactionFacts.

(* ===================================================================== *)
(** ** The lock *)
(* ===================================================================== *)

Section LockFacts.

Context {E : Env}.

Variable self : RedisLock.

Let cl := lock_client self.

Let k := ArgBytes (key self).

Lemma watch_sent c o c' :
  ascii_compatible cl ->
  Cmd.watch cl [k] c = (o, c') ->
  sent c' = sent c ++ request [bs "WATCH"; key self].
Proof.
  intros Hascii H. subst cl k.
  rewrite (watch_wire _ Hascii [key self]) in H.
  pose proof (answer_sent (lock_client self) c
                (request [bs "WATCH"; key self])) as Hs.
  now rewrite H in Hs.
Qed.

Lemma get_sent c o c' :
  ascii_compatible cl ->
  Cmd.get cl k c = (o, c') ->
  sent c' = sent c ++ request [bs "GET"; key self].
Proof.
  intros Hascii H. subst cl k. rewrite (get_wire _ Hascii) in H.
  pose proof (answer_sent (lock_client self) c
                (request [bs "GET"; key self])) as Hs.
  now rewrite H in Hs.
Qed.

Lemma multi_sent c o c' :
  ascii_compatible cl ->
  Cmd.multi cl c = (o, c') -> sent c' = sent c ++ request [bs "MULTI"].
Proof.
  intros Hascii H. subst cl. rewrite (multi_wire _ Hascii) in H.
  pose proof (answer_sent (lock_client self) c (request [bs "MULTI"])) as Hs.
  now rewrite H in Hs.
Qed.

Lemma exec_sent c o c' :
  ascii_compatible cl ->
  Cmd.exec_ cl c = (o, c') -> sent c' = sent c ++ request [bs "EXEC"].
Proof.
  intros Hascii H. subst cl. rewrite (exec_wire _ Hascii) in H.
  pose proof (answer_sent (lock_client self) c (request [bs "EXEC"])) as Hs.
  now rewrite H in Hs.
Qed.

Lemma setex_sent c o c' :
  ascii_compatible cl ->
  Cmd.setex cl k (ArgInt (timeout self)) (ArgBytes (me self)) c = (o, c') ->
  sent c' = sent c ++ request [bs "SETEX"; key self;
                               ascii_bytes (str_int (timeout self)); me self].
Proof.
  intros Hascii H. subst cl k. rewrite (setex_wire _ Hascii) in H.
  pose proof (answer_sent (lock_client self) c
                (request [bs "SETEX"; key self;
                          ascii_bytes (str_int (timeout self)); me self]))
    as Hs.
  now rewrite H in Hs.
Qed.

Lemma delete_sent c o c' :
  ascii_compatible cl ->
  Cmd.delete cl k c = (o, c') ->
  sent c' = sent c ++ request [bs "DEL"; key self].
Proof.
  intros Hascii H. subst cl k. rewrite (delete_wire _ Hascii) in H.
  pose proof (exchange_sent (lock_client self)
                (fun resp => ret (VBool (truthy resp))) c
                (request [bs "DEL"; key self])
                (fun r => reader_ret _)) as Hs.
  now rewrite H in Hs.
Qed.

(** C3, as the code has it.  Acquisition first opens the transaction,
    which sends WATCH for the key, and then reads the key with GET.  A
    value that is not empty fails the acquisition with [LockNotAcquired]
    after those two commands and before MULTI.  Otherwise MULTI, SETEX of
    the key to the holder token with the lease duration as expiry, and
    EXEC follow; a [None] reply to EXEC fails with [LockNotAcquired], any
    other reply holds the lock and forks the renewal task. *)
Theorem lock_acquisition :
  forall (c c1 c2 : conn) (w v : pyval),
    Cmd.watch cl [k] c = (Return w, c1) ->
    Cmd.get cl k c1 = (Return v, c2) ->
    (ascii_compatible cl ->
     sent c2 = sent c ++ request [bs "WATCH"; key self]
                      ++ request [bs "GET"; key self])
    /\ (val_truthy v = true ->
        RedisLock___enter__ self c = (Raise LockNotAcquired, self, c2))
    /\ (val_truthy v = false ->
        forall (c3 c4 c5 : conn) (m s x : pyval),
          Cmd.multi cl c2 = (Return m, c3) ->
          Cmd.setex cl k (ArgInt (timeout self)) (ArgBytes (me self)) c3
            = (Return s, c4) ->
          Cmd.exec_ cl c4 = (Return x, c5) ->
          (ascii_compatible cl ->
           sent c5 = sent c2 ++ request [bs "MULTI"]
                     ++ request [bs "SETEX"; key self;
                                 ascii_bytes (str_int (timeout self)); me self]
                     ++ request [bs "EXEC"])
          /\ RedisLock___enter__ self c
             = if val_is_None x
               then (Raise LockNotAcquired, self, c5)
               else (Return tt, fork_touch (set_in_block self true), c5)).
Proof.
  intros c c1 c2 w v Hw Hg.
  assert (Hstart : RedisLock___enter__ self c
                   = if val_truthy v then (Raise LockNotAcquired, self, c2)
                     else
                       match with_transaction
                               (mkTransaction cl VNone [k] false)
                               (Cmd.setex cl k (ArgInt (timeout self))
                                  (ArgBytes (me self))) c2 with
                       | (Return _, _, c3) =>
                           (Return tt, fork_touch (set_in_block self true), c3)
                       | (Raise (RedisTransactionError _), _, c3) =>
                           (Raise LockNotAcquired, self, c3)
                       | (Raise e, _, c3) => (Raise e, self, c3)
                       | (Blocked, _, c3) => (Blocked, self, c3)
                       end).
  { unfold RedisLock___enter__, transaction, RedisTransaction___init__.
    fold cl k. unfold bind. rewrite Hw.
    cbv beta iota delta [ret]. fold cl k. rewrite Hg. reflexivity. }
  split; [|split].
  - intros Hascii. rewrite (get_sent _ _ _ Hascii Hg),
      (watch_sent _ _ _ Hascii Hw).
    now rewrite <- app_assoc.
  - intros Hv. now rewrite Hstart, Hv.
  - intros Hv c3 c4 c5 m s x Hm Hs Hx. split.
    + intros Hascii. rewrite (exec_sent _ _ _ Hascii Hx),
        (setex_sent _ _ _ Hascii Hs), (multi_sent _ _ _ Hascii Hm).
      now rewrite <- !app_assoc.
    + rewrite Hstart, Hv.
      unfold with_transaction, RedisTransaction___enter__.
      cbv beta iota delta [client]. unfold bind. rewrite Hm.
      cbv beta iota delta [ret]. rewrite Hs.
      unfold RedisTransaction___exit__.
      cbv beta iota delta [client]. rewrite Hx.
      destruct (val_is_None x); reflexivity.
Qed.

(** C4.  Release first tells the renewal task to stop ([in_block] is
    false whatever happens next), then reads the key.  When the value
    read is the holder's token the key is deleted.  When it is anything
    else the release never returns normally and sends no DEL: it reads
    the key once more for its message, which is the last thing it does
    on the connection, and raises [AssertionError] with the value found,
    the token and the value read again.  When the first
    read itself fails, the release fails with it and nothing more is
    sent. *)
Theorem lock_release :
  forall (c : conn),
    let r := RedisLock___exit__ self c in
    in_block (snd (fst r)) = Some false
    /\ (forall (o : outcome pyval) (c1 : conn),
          Cmd.get cl k c = (o, c1) ->
          (forall val, o <> Return val) ->
          snd r = c1 /\ forall u, fst (fst r) <> Return u)
    /\ forall (val : pyval) (c1 : conn),
         Cmd.get cl k c = (Return val, c1) ->
         (val_eq_bytes val (me self) = true ->
          (forall d c2,
             Cmd.delete cl k c1 = (Return d, c2) ->
             r = (Return tt, set_in_block self false, c2))
          /\ (ascii_compatible cl ->
              sent (snd r) = sent c ++ request [bs "GET"; key self]
                             ++ request [bs "DEL"; key self]))
         /\ (val_eq_bytes val (me self) = false ->
             (forall u, fst (fst r) <> Return u)
             /\ snd r = snd (Cmd.get cl k c1)
             /\ (forall wha c2,
                   Cmd.get cl k c1 = (Return wha, c2) ->
                   r = (Raise (AssertionError
                          [reply_of val; Scalar (ABytes (me self));
                           reply_of wha]),
                        set_in_block self false, c2))
             /\ (ascii_compatible cl ->
                 sent (snd r) = sent c ++ request [bs "GET"; key self]
                                ++ request [bs "GET"; key self])).
Proof.
  intros c r. subst r. unfold RedisLock___exit__. simpl. fold cl k.
  split; [|split].
  - destruct (Cmd.get cl k c) as [[val|e|] c1]; simpl; auto.
    destruct (val_eq_bytes val (me self)).
    + destruct (Cmd.delete cl k c1) as [[d|e|] c2]; reflexivity.
    + destruct (Cmd.get cl k c1) as [[wha|e|] c2]; reflexivity.
  - intros o c1 Hg Ho. rewrite Hg.
    destruct o as [val|e|]; [now elim (Ho val)| |];
      (split; [reflexivity | discriminate]).
  - intros val c1 Hg. rewrite Hg. split; intros Hv; rewrite Hv.
    + split.
      * intros d c2 Hd. now rewrite Hd.
      * intros Hascii.
        destruct (Cmd.delete cl k c1) as [[d|e|] c2] eqn:Hd; simpl;
          rewrite (delete_sent _ _ _ Hascii Hd), (get_sent _ _ _ Hascii Hg);
          now rewrite <- app_assoc.
    + split; [|split; [|split]].
      * intros u. destruct (Cmd.get cl k c1) as [[wha|e|] c2]; discriminate.
      * destruct (Cmd.get cl k c1) as [[wha|e|] c2]; reflexivity.
      * intros wha c2 Hg2. now rewrite Hg2.
      * intros Hascii.
        destruct (Cmd.get cl k c1) as [[wha|e|] c2] eqn:Hg2; simpl;
          rewrite (get_sent _ _ _ Hascii Hg2), (get_sent _ _ _ Hascii Hg);
          now rewrite <- app_assoc.
Qed.

End LockFacts.

(* ===================================================================== *)
(** ** Waiting for published messages *)
(* ===================================================================== *)

Section SubscriptionFacts.

Context {E : Env}.

Variable self : RedisClient.

Variable wake_sig : option text.

Lemma subscription_turn_consumes c c' :
  Cmd.subscription_turn self wake_sig c = (Return None, c') ->
  (length (inbuf c') < length (inbuf c))%nat.
Proof.
  unfold Cmd.subscription_turn, bind.
  destruct (_get_response self wake_sig c) as [[r|e|] c1] eqn:Hr;
    try discriminate.
  destruct (truthy r) eqn:Ht; [|discriminate].
  intros H.
  assert (c' = c1) as ->.
  { destruct r as [[| | |]|[|r0 tl]]; cbv [ret raise] in H;
      try discriminate; try (now injection H).
    destruct (atom_eq_bytes r0 (bs "message")).
    - unfold bind in H.
      destruct (nth_error (r0 :: tl) 1); discriminate.
    - destruct (atom_eq_bytes r0 (bs "pmessage")); [discriminate|].
      now injection H. }
  eapply _get_response_consumes; eauto.
Qed.

Lemma subscription_loop_fuel f1 : forall f2 c,
  (length (inbuf c) < f1)%nat -> (length (inbuf c) < f2)%nat ->
  Cmd.subscription_loop self wake_sig f1 c
  = Cmd.subscription_loop self wake_sig f2 c.
Proof.
  induction f1 as [|f1 IH]; intros f2 c H1 H2; [lia|].
  destruct f2 as [|f2]; [lia|]. simpl. unfold bind.
  destruct (Cmd.subscription_turn self wake_sig c) as [[[v|]|e|] c1] eqn:Ht;
    try reflexivity.
  apply subscription_turn_consumes in Ht. apply IH; lia.
Qed.

(** The turns given to the loop are never used up. *)
Lemma enough_turns fuel : forall c,
  (length (inbuf c) < fuel)%nat ->
  fst (Cmd.subscription_loop self wake_sig fuel c) <> Return None.
Proof.
  induction fuel as [|fuel IH]; intros c H; [lia|].
  simpl. unfold bind.
  destruct (Cmd.subscription_turn self wake_sig c) as [[[v|]|e|] c1] eqn:Ht;
    simpl; try discriminate.
  apply subscription_turn_consumes in Ht. apply IH. lia.
Qed.

(** [get_from_subscriptions] is its loop: one turn, and again when the
    turn asks for it. *)
Lemma get_from_subscriptions_unroll c :
  Cmd.get_from_subscriptions self wake_sig c
  = match Cmd.subscription_turn self wake_sig c with
    | (Return (Some v), c') => (Return v, c')
    | (Return None, c') => Cmd.get_from_subscriptions self wake_sig c'
    | (Raise e, c') => (Raise e, c')
    | (Blocked, c') => (Blocked, c')
    end.
Proof.
  unfold Cmd.get_from_subscriptions at 1. simpl. unfold bind.
  destruct (Cmd.subscription_turn self wake_sig c) as [[[v|]|e|] c1] eqn:Ht;
    try reflexivity.
  unfold Cmd.get_from_subscriptions.
  apply subscription_turn_consumes in Ht.
  rewrite (subscription_loop_fuel (length (inbuf c)) (S (length (inbuf c1))))
    by lia.
  reflexivity.
Qed.

Lemma subscription_turn_value c v c' :
  Cmd.subscription_turn self wake_sig c = (Return (Some v), c') ->
  delivered_from self wake_sig v.
Proof.
  unfold Cmd.subscription_turn, bind.
  destruct (_get_response self wake_sig c) as [[r|e|] c1] eqn:Hr;
    try discriminate.
  destruct (truthy r) eqn:Ht.
  - destruct r as [[| | |]|[|r0 tl]]; cbv [ret raise]; try discriminate.
    destruct (atom_eq_bytes r0 (bs "message")) eqn:Hm.
    + destruct tl as [|x tl]; cbv [bind of_option nth_error ret raise];
        [discriminate|].
      intros H. injection H as <- _.
      eapply from_message; eauto.
    + destruct (atom_eq_bytes r0 (bs "pmessage")) eqn:Hp; [|discriminate].
      intros H. injection H as <- _.
      eapply from_pmessage; eauto.
  - intros H. injection H as <- _. constructor.
Qed.

Lemma subscription_loop_value fuel : forall c v c',
  Cmd.subscription_loop self wake_sig fuel c = (Return (Some v), c') ->
  delivered_from self wake_sig v.
Proof.
  induction fuel as [|fuel IH]; intros c v c'; simpl; [discriminate|].
  unfold bind.
  destruct (Cmd.subscription_turn self wake_sig c) as [[[v0|]|e|] c1] eqn:Ht;
    try discriminate.
  - intros H. injection H as <- _.
    eapply subscription_turn_value; eauto.
  - apply IH.
Qed.

(** C10, as the code has it.  [get_from_subscriptions] returns [None]
    when the wake signal fires before a line, and also when the reply it
    reads is falsy ([None], zero, empty).  From a list reply whose head
    is [message] it returns the element after the head twice and then
    the rest (three elements for a three-element reply); from one whose
    head is [pmessage] it returns the reply without its head (three
    elements for a four-element reply).  Any other non-empty list reply
    is consumed and the wait goes on with the next one.  Nothing else is
    ever returned. *)
Theorem subscription_wait :
  forall (c : conn),
    (forall ws,
       sig_truthy wake_sig = true -> wakes c = true :: ws ->
       Cmd.get_from_subscriptions self wake_sig c
       = (Return VNone, set_wakes c ws))
    /\ (forall r c1,
          _get_response self wake_sig c = (Return r, c1) ->
          (truthy r = false ->
           Cmd.get_from_subscriptions self wake_sig c = (Return VNone, c1))
          /\ (forall r0 x tl,
                r = Multi (r0 :: x :: tl) ->
                atom_eq_bytes r0 (bs "message") = true ->
                Cmd.get_from_subscriptions self wake_sig c
                = (Return (VReply (Multi (x :: x :: tl))), c1))
          /\ (forall r0 tl,
                r = Multi (r0 :: tl) ->
                atom_eq_bytes r0 (bs "message") = false ->
                atom_eq_bytes r0 (bs "pmessage") = true ->
                Cmd.get_from_subscriptions self wake_sig c
                = (Return (VReply (Multi tl)), c1))
          /\ (forall r0 tl,
                r = Multi (r0 :: tl) ->
                atom_eq_bytes r0 (bs "message") = false ->
                atom_eq_bytes r0 (bs "pmessage") = false ->
                Cmd.get_from_subscriptions self wake_sig c
                = Cmd.get_from_subscriptions self wake_sig c1))
    /\ (forall v c',
          Cmd.get_from_subscriptions self wake_sig c = (Return v, c') ->
          delivered_from self wake_sig v).
Proof.
  intros c. split; [|split].
  - intros ws Hs Hw. rewrite get_from_subscriptions_unroll.
    unfold Cmd.subscription_turn, bind, _get_response. rewrite Hs.
    unfold bind, first_until_eol. rewrite Hw. reflexivity.
  - intros r c1 Hr. repeat split.
    + intros Ht. rewrite get_from_subscriptions_unroll.
      unfold Cmd.subscription_turn, bind. now rewrite Hr, Ht.
    + intros r0 x tl -> Hm. rewrite get_from_subscriptions_unroll.
      unfold Cmd.subscription_turn, bind. rewrite Hr. simpl.
      now rewrite Hm.
    + intros r0 tl -> Hm Hp. rewrite get_from_subscriptions_unroll.
      unfold Cmd.subscription_turn, bind. rewrite Hr. simpl.
      now rewrite Hm, Hp.
    + intros r0 tl -> Hm Hp. rewrite get_from_subscriptions_unroll.
      unfold Cmd.subscription_turn, bind. rewrite Hr. simpl.
      now rewrite Hm, Hp.
  - intros v c'. unfold Cmd.get_from_subscriptions.
    destruct (Cmd.subscription_loop self wake_sig (S (length (inbuf c))) c)
      as [[[v0|]|e|] c1] eqn:Hl; try discriminate.
    intros H. injection H as <- _.
    eapply subscription_loop_value; eauto.
Qed.

End SubscriptionFacts.

(* ===================================================================== *)
(** ** Channels and patterns *)
(* ===================================================================== *)

Lemma contains_nonempty x g : contains x g = true -> g <> [].
Proof. destruct g; [discriminate | discriminate]. Qed.

(** What [__isglob] decides: a star, a question mark, or an opening
    bracket. *)
Lemma isglob_truth g :
  flag_truthy (__isglob g)
  = contains "*" g || contains "?" g || contains "[" g.
Proof.
  unfold __isglob, py_or, py_and. simpl.
  destruct (contains "*" g); simpl; [reflexivity|].
  destruct (contains "?" g); simpl; [reflexivity|].
  destruct (contains "[" g) eqn:Hb; simpl; [|reflexivity].
  apply contains_nonempty in Hb. destruct g; [congruence | reflexivity].
Qed.

(** It departs from the specified classification exactly on channels
    with an opening bracket, no closing bracket, no star and no question
    mark. *)
Lemma isglob_differs g :
  flag_truthy (__isglob g) <> spec_isglob g
  <-> contains "[" g = true /\ contains "]" g = false
      /\ contains "*" g = false /\ contains "?" g = false.
Proof.
  rewrite isglob_truth. unfold spec_isglob.
  destruct (contains "*" g), (contains "?" g), (contains "[" g),
    (contains "]" g); simpl; split; intros H;
    try congruence; try (now destruct H as (? & ? & ? & ?)); auto.
Qed.

(** C7, where the code departs from it.  The channel [a[] has an opening
    bracket and no closing one: the specified classification is exact
    match, [__isglob] returns the channel itself, which is truthy, and
    the hub subscribes to it with PSUBSCRIBE. *)
Theorem isglob_unclosed_bracket :
  spec_isglob (bs "a[") = false
  /\ __isglob (bs "a[") = FBytes (bs "a[")
  /\ flag_truthy (__isglob (bs "a[")) = true
  /\ sent (snd (hub_additions sample_hub (incoming [])))
     = request [bs "PSUBSCRIBE"; bs "a["].
Proof. repeat split. Qed.

(* ===================================================================== *)
(** ** Runs in the default configuration *)
(* ===================================================================== *)

Lemma utf8_encode_ascii errors t :
  ascii_text t = true -> Utf8.encode errors t = inr (ascii_bytes t).
Proof.
  induction t as [|cp t IH]; [reflexivity|].
  simpl. intros H. apply andb_prop in H as [Hcp Ht].
  unfold Utf8.encode_cp.
  change (cp <? 128)%N with (cp <? 0x80)%N in Hcp. rewrite Hcp.
  now rewrite (IH Ht).
Qed.

Lemma default_ascii_compatible : ascii_compatible default_client.
Proof. intros t H. simpl. now apply utf8_encode_ascii. Qed.

(** *** C5: the four nil and empty replies *)

Lemma nil_is_not_empty_witness :
  _get_response default_client None (incoming (bs "$-1" ++ CRLF))
  = (Return RNone, incoming [])
  /\ _get_response default_client None (incoming (bs "$0" ++ CRLF ++ CRLF))
     = (Return (Scalar (ABytes [])), incoming [])
  /\ _get_response default_client None (incoming (bs "*-1" ++ CRLF))
     = (Return RNone, incoming [])
  /\ _get_response default_client None (incoming (bs "*0" ++ CRLF))
     = (Return (Multi []), incoming []).
Proof.
  destruct (nil_is_not_empty default_client [] [] [])
    as (H1 & H2 & _ & H3 & H4 & _).
  split; [exact H1|]. split; [exact H2|]. split; [exact H3 | exact H4].
Defined.

(** *** C1: a transaction that commits, and one that meets a nil EXEC *)

Lemma transaction_exec_witness :
  let body := Cmd.set default_client (ArgBytes (bs "a")) (ArgInt 1) in
  let c := incoming (bs "+OK" ++ CRLF ++ bs "+QUEUED" ++ CRLF
                       ++ bs "*1" ++ CRLF ++ bs "+OK" ++ CRLF) in
  let c' := incoming (bs "+OK" ++ CRLF ++ bs "+QUEUED" ++ CRLF
                        ++ bs "*-1" ++ CRLF) in
  let asked := request [bs "MULTI"] ++ request [bs "SET"; bs "a"; bs "1"]
               ++ request [bs "EXEC"] in
  with_transaction sample_transaction body c
  = (Return (Some (VReply (Scalar (ABytes (bs "QUEUED"))))),
     set_value sample_transaction (VReply (Multi [ABytes (bs "OK")])),
     mkConn [] asked [])
  /\ with_transaction sample_transaction body c'
     = (Raise (RedisTransactionError watched_key_changed),
        set_aborted (set_value sample_transaction VNone) true,
        mkConn [] asked []).
Proof.
  intros body c c' asked.
  pose (entered := fun c0 =>
          snd (RedisTransaction___enter__ sample_transaction c0)).
  pose (ran := fun c0 => snd (body (entered c0))).
  split.
  - exact (proj1 (transaction_exec_on_normal_exit _ sample_transaction
                    body c (entered c) (ran c)
                    (VReply (Scalar (ABytes (bs "QUEUED"))))
                    eq_refl eq_refl)
             (VReply (Multi [ABytes (bs "OK")])) (mkConn [] asked [])
             eq_refl).
  - exact (proj2 (proj2 (proj2 (transaction_exec_on_normal_exit _
                    sample_transaction body c' (entered c') (ran c')
                    (VReply (Scalar (ABytes (bs "QUEUED"))))
                    eq_refl eq_refl) default_ascii_compatible))
             [] eq_refl).
Defined.

(** *** C2: a block that raises *)

(** The sentence of the specification fails when the DISCARD of
    [__exit__] is answered with an error: here the block has discarded
    the transaction itself before raising, so the server refuses the
    second DISCARD, and the caller sees that refusal in place of the
    fault of the block. *)
Lemma transaction_fault_masked :
  let body : M unit := Cmd.discard default_client ;;; raise sample_fault in
  let c := incoming (bs "+OK" ++ CRLF ++ bs "+OK" ++ CRLF
                       ++ bs "-ERR DISCARD without MULTI" ++ CRLF) in
  fst (body (snd (RedisTransaction___enter__ sample_transaction c)))
    = Raise sample_fault
  /\ fst (fst (with_transaction sample_transaction body c))
     = Raise (RedisError (bs "ERR DISCARD without MULTI"))
  /\ fst (fst (with_transaction sample_transaction body c))
     <> Raise sample_fault.
Proof. repeat split. discriminate. Qed.

Lemma transaction_discard_witness :
  let body : M unit :=
    Cmd.set default_client (ArgBytes (bs "a")) (ArgInt 1) ;;;
    raise sample_fault in
  let c := incoming (bs "+OK" ++ CRLF ++ bs "+QUEUED" ++ CRLF
                       ++ bs "+OK" ++ CRLF) in
  transaction default_client None c = (Return sample_transaction, c)
  /\ with_transaction sample_transaction body c
     = (Raise sample_fault, set_aborted sample_transaction true,
        mkConn []
          (request [bs "MULTI"] ++ request [bs "SET"; bs "a"; bs "1"]
           ++ request [bs "DISCARD"]) [])
  /\ value (snd (fst (with_transaction sample_transaction body c))) = VNone
  /\ sent (snd (with_transaction sample_transaction body c))
     = (request [bs "MULTI"] ++ request [bs "SET"; bs "a"; bs "1"])
       ++ request [bs "DISCARD"].
Proof.
  intros body c.
  pose proof (transaction_discard_on_fault unit default_client None
                sample_transaction body c c
                (snd (RedisTransaction___enter__ sample_transaction c))
                (snd (body
                   (snd (RedisTransaction___enter__ sample_transaction c))))
                sample_fault eq_refl eq_refl eq_refl) as (Hv & Hr & _ & _ & Hs).
  split; [reflexivity|]. split; [|split; [exact Hv|]].
  2: exact (Hs default_ascii_compatible).
  exact (Hr (VReply (Scalar (ABytes (bs "OK"))))
            (mkConn []
               (request [bs "MULTI"] ++ request [bs "SET"; bs "a"; bs "1"]
                ++ request [bs "DISCARD"]) [])
            eq_refl).
Defined.

(** *** C3: acquiring the lock *)

(** The sentence of the specification fails on the order of the
    commands: when the
    value found by GET rejects the acquisition, WATCH has already been
    sent. *)
Lemma lock_watches_before_get :
  let c := incoming (bs "+OK" ++ CRLF ++ bs "$1" ++ CRLF ++ bs "x" ++ CRLF) in
  let r := RedisLock___enter__ sample_lock c in
  fst (fst r) = Raise LockNotAcquired
  /\ sent (snd r)
     = request [bs "WATCH"; bs "lock"] ++ request [bs "GET"; bs "lock"]
  /\ sent (snd r) <> request [bs "GET"; bs "lock"].
Proof. repeat split. discriminate. Qed.

Lemma lock_acquisition_witness :
  let held :=
    incoming (bs "+OK" ++ CRLF ++ bs "$1" ++ CRLF ++ bs "x" ++ CRLF) in
  let free := incoming (bs "+OK" ++ CRLF ++ bs "$-1" ++ CRLF ++ bs "+OK" ++ CRLF
                          ++ bs "+QUEUED" ++ CRLF
                          ++ bs "*1" ++ CRLF ++ bs "+OK" ++ CRLF) in
  let raced := incoming (bs "+OK" ++ CRLF ++ bs "$-1" ++ CRLF
                           ++ bs "+OK" ++ CRLF ++ bs "+QUEUED" ++ CRLF
                           ++ bs "*-1" ++ CRLF) in
  let asked :=
    request [bs "WATCH"; bs "lock"] ++ request [bs "GET"; bs "lock"]
    ++ request [bs "MULTI"]
    ++ request [bs "SETEX"; bs "lock"; bs "30"; sample_token]
    ++ request [bs "EXEC"] in
  RedisLock___enter__ sample_lock held
  = (Raise LockNotAcquired, sample_lock,
     mkConn [] (request [bs "WATCH"; bs "lock"]
                ++ request [bs "GET"; bs "lock"]) [])
  /\ RedisLock___enter__ sample_lock free
     = (Return tt, fork_touch (set_in_block sample_lock true),
        mkConn [] asked [])
  /\ RedisLock___enter__ sample_lock raced
     = (Raise LockNotAcquired, sample_lock, mkConn [] asked [])
  /\ sent (snd (Cmd.get default_client (ArgBytes (bs "lock"))
                  (snd (Cmd.watch default_client [ArgBytes (bs "lock")]
                          held))))
     = [] ++ request [bs "WATCH"; bs "lock"] ++ request [bs "GET"; bs "lock"].
Proof.
  intros held free raced asked.
  pose (k := ArgBytes (bs "lock")).
  pose (after_watch := fun c => snd (Cmd.watch default_client [k] c)).
  pose (after_get := fun c => snd (Cmd.get default_client k (after_watch c))).
  pose (after_multi :=
          fun c => snd (Cmd.multi default_client (after_get c))).
  pose (after_setex :=
          fun c => snd (Cmd.setex default_client k (ArgInt 30)
                          (ArgBytes sample_token) (after_multi c))).
  pose (after_exec :=
          fun c => snd (Cmd.exec_ default_client (after_setex c))).
  split; [|split; [|split]].
  4: exact (proj1
              (lock_acquisition sample_lock
                 held (after_watch held) (after_get held)
                 (VReply (Scalar (ABytes (bs "OK"))))
                 (VReply (Scalar (ABytes (bs "x"))))
                 eq_refl eq_refl) default_ascii_compatible).
  - exact (proj1 (proj2
             (lock_acquisition sample_lock
                held (after_watch held) (after_get held)
                (VReply (Scalar (ABytes (bs "OK"))))
                (VReply (Scalar (ABytes (bs "x"))))
                eq_refl eq_refl)) eq_refl).
  - exact (proj2 (proj2 (proj2
             (lock_acquisition sample_lock
                free (after_watch free) (after_get free)
                (VReply (Scalar (ABytes (bs "OK")))) VNone
                eq_refl eq_refl)) eq_refl
             (after_multi free) (after_setex free) (after_exec free)
             (VReply (Scalar (ABytes (bs "OK"))))
             (VReply (Scalar (ABytes (bs "QUEUED"))))
             (VReply (Multi [ABytes (bs "OK")]))
             eq_refl eq_refl eq_refl)).
  - exact (proj2 (proj2 (proj2
             (lock_acquisition sample_lock
                raced (after_watch raced) (after_get raced)
                (VReply (Scalar (ABytes (bs "OK")))) VNone
                eq_refl eq_refl)) eq_refl
             (after_multi raced) (after_setex raced) (after_exec raced)
             (VReply (Scalar (ABytes (bs "OK"))))
             (VReply (Scalar (ABytes (bs "QUEUED"))))
             VNone
             eq_refl eq_refl eq_refl)).
Defined.

(** *** C4: releasing the lock *)

Lemma lock_release_witness :
  let mine := incoming (bs "$16" ++ CRLF ++ sample_token ++ CRLF
                          ++ bs ":1" ++ CRLF) in
  let taken := incoming (bs "$5" ++ CRLF ++ bs "other" ++ CRLF
                           ++ bs "$5" ++ CRLF ++ bs "other" ++ CRLF) in
  RedisLock___exit__ sample_lock mine
  = (Return tt, set_in_block sample_lock false,
     mkConn [] (request [bs "GET"; bs "lock"] ++ request [bs "DEL"; bs "lock"])
       [])
  /\ RedisLock___exit__ sample_lock taken
     = (Raise (AssertionError
                 [Scalar (ABytes (bs "other")); Scalar (ABytes sample_token);
                  Scalar (ABytes (bs "other"))]),
        set_in_block sample_lock false,
        mkConn [] (request [bs "GET"; bs "lock"]
                   ++ request [bs "GET"; bs "lock"]) [])
  /\ sent (snd (RedisLock___exit__ sample_lock taken))
     = [] ++ request [bs "GET"; bs "lock"] ++ request [bs "GET"; bs "lock"].
Proof.
  intros mine taken.
  pose (k := ArgBytes (bs "lock")).
  split; [|split].
  3: exact (proj2 (proj2 (proj2 (proj2 (proj2 (proj2
              (lock_release sample_lock taken))
              (VReply (Scalar (ABytes (bs "other"))))
              (snd (Cmd.get default_client k taken)) eq_refl) eq_refl)))
              default_ascii_compatible).
  - exact (proj1 (proj1 (proj2 (proj2
             (lock_release sample_lock mine))
             (VReply (Scalar (ABytes sample_token)))
             (snd (Cmd.get default_client k mine)) eq_refl) eq_refl)
             (VBool true)
             (snd (Cmd.delete default_client k
                     (snd (Cmd.get default_client k mine))))
             eq_refl).
  - exact (proj1 (proj2 (proj2 (proj2 (proj2 (proj2
             (lock_release sample_lock taken))
             (VReply (Scalar (ABytes (bs "other"))))
             (snd (Cmd.get default_client k taken)) eq_refl) eq_refl)))
             (VReply (Scalar (ABytes (bs "other"))))
             (snd (Cmd.get default_client k
                     (snd (Cmd.get default_client k taken))))
             eq_refl).
Defined.

(** *** C6: error replies *)

(** The sentence of the specification fails for the methods that do not
    hand the reply to [_get_response]: [send_raw_command] returns the
    error line as an ordinary value, [subscribe] returns [None] and
    leaves it unread. *)
Lemma error_reply_returned_normally :
  let c := incoming (bs "-ERR bad" ++ CRLF) in
  error_pending c (bs "ERR bad")
  /\ invoke default_client (C_send_raw_command [cmd "PING"]) c
     = (Return (Cmd.raw (bs "-ERR bad" ++ CRLF)),
        mkConn [] (request [bs "PING"]) [])
  /\ invoke default_client (C_subscribe [ArgBytes (bs "news")]) c
     = (Return VNone,
        mkConn (bs "-ERR bad" ++ CRLF)
          (request [bs "SUBSCRIBE"; bs "news"]) [])
  /\ ~ (forall m,
          fst (invoke default_client m c) = Raise (RedisError (bs "ERR bad"))).
Proof.
  intros c. split; [|split; [|split]].
  - exists (bs "-ERR bad"), []. split; reflexivity.
  - reflexivity.
  - reflexivity.
  - intros H. specialize (H (C_subscribe [ArgBytes (bs "news")])).
    discriminate.
Qed.

Lemma reading_methods_witness :
  let c := incoming (bs "-ERR bad" ++ CRLF) in
  fst (invoke default_client (C_get (ArgBytes (bs "k"))) c)
    = Raise (RedisError (bs "ERR bad"))
  /\ fst (invoke default_client
            (C_hgetall (ArgStr ([0xD800%N]))) c)
     = Raise UnicodeError.
Proof.
  intros c.
  assert (Hp : error_pending c (bs "ERR bad")).
  { exists (bs "-ERR bad"), []. split; reflexivity. }
  split.
  - destruct (reading_methods_raise_server_error default_client
                (C_get (ArgBytes (bs "k"))) c (bs "ERR bad") eq_refl Hp)
      as [H|[e H]]; [exact H | discriminate].
  - destruct (reading_methods_raise_server_error default_client
                (C_hgetall (ArgStr ([0xD800%N]))) c (bs "ERR bad") eq_refl Hp)
      as [H|[e H]]; [discriminate | reflexivity].
Defined.

(** *** C8: the array on a default client and on one that decodes *)

Lemma array_decode_witness :
  let input := bs "*3" ++ CRLF ++ bs ":1" ++ CRLF ++ bs "$3" ++ CRLF
               ++ bs "foo" ++ CRLF ++ bs "+OK" ++ CRLF in
  _get_response default_client None (incoming input)
  = (Return (Multi [AInt 1; ABytes (bs "foo"); ABytes (bs "OK")]),
     incoming [])
  /\ _get_response decoding_client None (incoming input)
     = (Return (Multi [AInt 1; AStr (txt "foo"); AStr (txt "OK")]),
        incoming []).
Proof.
  intros input. split.
  - exact (proj1 (array_decode default_client [] [] []) eq_refl).
  - exact (proj2 (array_decode decoding_client [] [] [])
             (txt "foo") (txt "OK") eq_refl eq_refl eq_refl).
Defined.

(** *** C9: a request on the wire *)

Lemma send_wire_witness :
  let args := [ArgBytes (bs "lock"); ArgInt 30; ArgStr (txt "token");
               ArgBool true; ArgNone] in
  let all := [bs "SETEX"; bs "lock"; bs "30"; bs "token"; bs "True";
              bs "None"] in
  Forall2 (coerced default_client) (cmd "SETEX" :: args) all
  /\ exists c',
       _send default_client (cmd "SETEX") args None (incoming []) =
         (Return tt, c')
       /\ wire c'
          = bs "*6" ++ CRLF
            ++ bs "$5" ++ CRLF ++ bs "SETEX" ++ CRLF
            ++ bs "$4" ++ CRLF ++ bs "lock" ++ CRLF
            ++ bs "$2" ++ CRLF ++ bs "30" ++ CRLF
            ++ bs "$5" ++ CRLF ++ bs "token" ++ CRLF
            ++ bs "$4" ++ CRLF ++ bs "True" ++ CRLF
            ++ bs "$4" ++ CRLF ++ bs "None" ++ CRLF.
Proof.
  intros args all.
  assert (H : Forall2 (coerced default_client) (cmd "SETEX" :: args) all).
  { apply encode_all_coerced. reflexivity. }
  split; [exact H|].
  destruct (send_wire_format default_client (cmd "SETEX") args all
              (incoming []) H) as (c' & Hs & Hw & _ & _).
  exists c'. split; [exact Hs|]. rewrite Hw. reflexivity.
Defined.

(** *** C10: waiting on a subscription *)

(** The sentence of the specification fails on a reply that is falsy,
    which returns [None] though the wake signal never fired, and on a
    reply that is a number other than zero, which is not discarded but
    raises. *)
Lemma none_without_wake_signal :
  Cmd.get_from_subscriptions default_client (Some (txt "wake"))
    (mkConn (bs ":0" ++ CRLF) [] [])
  = (Return VNone, mkConn [] [] [])
  /\ Cmd.get_from_subscriptions default_client (Some (txt "wake"))
       (mkConn (bs "*0" ++ CRLF) [] [])
     = (Return VNone, mkConn [] [] [])
  /\ Cmd.get_from_subscriptions default_client (Some (txt "wake"))
       (mkConn (bs ":5" ++ CRLF) [] [])
     = (Raise TypeError, mkConn [] [] []).
Proof. repeat split. Qed.

Lemma subscription_wait_witness :
  let ack := bs "*3" ++ CRLF ++ bs "$9" ++ CRLF ++ bs "subscribe" ++ CRLF
             ++ bs "$4" ++ CRLF ++ bs "news" ++ CRLF ++ bs ":1" ++ CRLF in
  let message := bs "*3" ++ CRLF ++ bs "$7" ++ CRLF ++ bs "message" ++ CRLF
                 ++ bs "$4" ++ CRLF ++ bs "news" ++ CRLF
                 ++ bs "$2" ++ CRLF ++ bs "hi" ++ CRLF in
  let pmessage := bs "*4" ++ CRLF ++ bs "$8" ++ CRLF ++ bs "pmessage" ++ CRLF
                  ++ bs "$2" ++ CRLF ++ bs "n*" ++ CRLF
                  ++ bs "$4" ++ CRLF ++ bs "news" ++ CRLF
                  ++ bs "$2" ++ CRLF ++ bs "hi" ++ CRLF in
  let wake := Some (txt "wake") in
  Cmd.get_from_subscriptions default_client wake (mkConn message [] [true])
  = (Return VNone, mkConn message [] [])
  /\ Cmd.get_from_subscriptions default_client wake (incoming message)
     = (Return (VReply (Multi [ABytes (bs "news"); ABytes (bs "news");
                               ABytes (bs "hi")])), incoming [])
  /\ Cmd.get_from_subscriptions default_client wake (incoming pmessage)
     = (Return (VReply (Multi [ABytes (bs "n*"); ABytes (bs "news");
                               ABytes (bs "hi")])), incoming [])
  /\ Cmd.get_from_subscriptions default_client wake (incoming (ack ++ message))
     = Cmd.get_from_subscriptions default_client wake (incoming message).
Proof.
  intros ack message pmessage wake.
  split; [|split; [|split]].
  - exact (proj1 (subscription_wait default_client wake
                    (mkConn message [] [true])) [] eq_refl eq_refl).
  - exact (proj1 (proj2 (proj1 (proj2
             (subscription_wait default_client wake (incoming message)))
             (Multi [ABytes (bs "message"); ABytes (bs "news");
                     ABytes (bs "hi")])
             (incoming []) eq_refl))
             (ABytes (bs "message")) (ABytes (bs "news")) [ABytes (bs "hi")]
             eq_refl eq_refl).
  - exact (proj1 (proj2 (proj2 (proj1 (proj2
             (subscription_wait default_client wake (incoming pmessage)))
             (Multi [ABytes (bs "pmessage"); ABytes (bs "n*");
                     ABytes (bs "news"); ABytes (bs "hi")])
             (incoming []) eq_refl)))
             (ABytes (bs "pmessage"))
             [ABytes (bs "n*"); ABytes (bs "news"); ABytes (bs "hi")]
             eq_refl eq_refl eq_refl).
  - exact (proj2 (proj2 (proj2 (proj1 (proj2
             (subscription_wait default_client wake
                (incoming (ack ++ message))))
             (Multi [ABytes (bs "subscribe"); ABytes (bs "news"); AInt 1])
             (incoming message) eq_refl)))
             (ABytes (bs "subscribe")) [ABytes (bs "news"); AInt 1]
             eq_refl eq_refl eq_refl).
Defined.

(* ===================================================================== *)
(** ** Decimal text read back *)
(* ===================================================================== *)

Lemma digits_of_uint d :
  forallb is_digit (bs (NilEmpty.string_of_uint d)) = true.
Proof. induction d; simpl; auto. Qed.

Lemma digits_dec_bytes n : forallb is_digit (dec_bytes n) = true.
Proof.
  unfold dec_bytes, NilZero.string_of_uint.
  destruct (Nat.to_uint n); try reflexivity;
    match goal with
    | |- context [NilEmpty.string_of_uint ?x] =>
        change (forallb is_digit (bs (NilEmpty.string_of_uint x)) = true)
    end; apply digits_of_uint.
Qed.

Lemma digit_not_space c : is_digit c = true -> is_space c = false.
Proof. destruct c; intros H; (reflexivity || discriminate H). Qed.

Lemma lstrip_nonspace s :
  match s with c :: _ => is_space c = false | [] => True end ->
  lstrip s = s.
Proof. destruct s as [|c s]; simpl; auto. intros ->. reflexivity. Qed.

Lemma strip_clean s : clean s = true -> strip s = s.
Proof.
  unfold clean. intros H. rewrite forallb_forall in H.
  assert (Hc : forall c, In c s -> is_space c = false).
  { intros c Hin. apply H in Hin. now destruct (is_space c). }
  unfold strip, rstrip.
  rewrite (lstrip_nonspace s).
  - rewrite lstrip_nonspace; [apply rev_involutive|].
    destruct (rev s) as [|c r] eqn:Hr; [exact I|].
    apply Hc, in_rev. rewrite Hr. now left.
  - destruct s as [|c s]; [exact I|]. apply Hc. now left.
Qed.

Lemma strip_digits s : forallb is_digit s = true -> strip s = s.
Proof.
  intros H. apply strip_clean. unfold clean. rewrite forallb_forall in *.
  intros c Hin. now rewrite (digit_not_space c (H c Hin)).
Qed.

(** Reading the digits of a natural number, most significant first. *)
Lemma digits_val_nat d : forall acc,
  digits_val (Z.of_nat acc) true (bs (NilEmpty.string_of_uint d))
  = Some (Z.of_nat (Nat.of_uint_acc d acc)).
Proof.
  induction d; intros acc; [reflexivity|..];
    cbn -[Z.mul Z.add Z.of_nat Nat.tail_mul];
    change (map byte_of_ascii
              (list_ascii_of_string (NilEmpty.string_of_uint d)))
      with (bs (NilEmpty.string_of_uint d));
    rewrite <- IHd; f_equal; rewrite Nat.tail_mul_spec; lia.
Qed.

Lemma digits_val_uint d :
  d <> Decimal.Nil ->
  digits_val 0 false (bs (NilEmpty.string_of_uint d))
  = Some (Z.of_nat (Nat.of_uint d)).
Proof.
  intros Hd. unfold Nat.of_uint.
  destruct d; [congruence|..];
    cbn -[Z.mul Z.add Z.of_nat Nat.tail_mul];
    change (map byte_of_ascii
              (list_ascii_of_string (NilEmpty.string_of_uint d)))
      with (bs (NilEmpty.string_of_uint d));
    rewrite <- digits_val_nat; f_equal.
Qed.

Lemma digits_val_dec n :
  digits_val 0 false (dec_bytes n) = Some (Z.of_nat n).
Proof.
  unfold dec_bytes, NilZero.string_of_uint.
  pose proof (DecimalNat.Unsigned.of_to n) as Hn.
  destruct (Nat.to_uint n) eqn:Hu; rewrite <- Hn;
    [reflexivity | apply digits_val_uint; discriminate ..].
Qed.

Lemma int_of_digits s z :
  forallb is_digit s = true ->
  digits_val 0 false s = Some z ->
  int_of_bytes s = Some z.
Proof.
  intros Hd Hv. unfold int_of_bytes. rewrite (strip_digits s Hd).
  destruct s as [|c s]; [exact Hv|].
  simpl in Hd. apply andb_prop in Hd as [Hc _].
  destruct c; try discriminate Hc; exact Hv.
Qed.

(** [int] reads a length written by the [%s] format back, with or
    without the line terminator after it. *)
Lemma int_of_dec_bytes n : int_of_bytes (dec_bytes n) = Some (Z.of_nat n).
Proof.
  apply int_of_digits; [apply digits_dec_bytes | apply digits_val_dec].
Qed.

Lemma int_of_bytes_CRLF s : int_of_bytes (s ++ CRLF) = int_of_bytes s.
Proof. unfold int_of_bytes. now rewrite strip_CRLF. Qed.

Lemma digits_val_pos d : forall acc,
  digits_val (Z.pos acc) true (bs (NilEmpty.string_of_uint d))
  = Some (Z.pos (Pos.of_uint_acc d acc)).
Proof.
  induction d; intros acc; [reflexivity|..];
    cbn -[Z.mul Z.add Pos.mul Pos.add];
    change (map byte_of_ascii
              (list_ascii_of_string (NilEmpty.string_of_uint d)))
      with (bs (NilEmpty.string_of_uint d));
    rewrite <- IHd; f_equal; lia.
Qed.

Lemma digits_val_N d : forall started,
  started = true \/ d <> Decimal.Nil ->
  digits_val 0 started (bs (NilEmpty.string_of_uint d))
  = Some (Z.of_N (Pos.of_uint d)).
Proof.
  induction d; intros started Hs.
  - destruct Hs as [->|H]; [reflexivity | congruence].
  - cbn -[Z.mul Z.add].
    change (map byte_of_ascii
              (list_ascii_of_string (NilEmpty.string_of_uint d)))
      with (bs (NilEmpty.string_of_uint d)).
    apply IHd. now left.
  - apply (digits_val_pos d 1).
  - apply (digits_val_pos d 2).
  - apply (digits_val_pos d 3).
  - apply (digits_val_pos d 4).
  - apply (digits_val_pos d 5).
  - apply (digits_val_pos d 6).
  - apply (digits_val_pos d 7).
  - apply (digits_val_pos d 8).
  - apply (digits_val_pos d 9).
Qed.

Lemma digits_val_positive p :
  digits_val 0 false (bs (NilZero.string_of_uint (Pos.to_uint p)))
  = Some (Z.pos p).
Proof.
  pose proof (DecimalPos.Unsigned.of_to p) as Hp.
  pose proof (DecimalPos.Unsigned.to_uint_nonnil p) as Hn.
  unfold NilZero.string_of_uint.
  destruct (Pos.to_uint p) eqn:Hu; [congruence|..];
    match goal with
    | |- context [NilEmpty.string_of_uint ?x] =>
        change (digits_val 0 false (bs (NilEmpty.string_of_uint x))
                = Some (Z.pos p));
        rewrite (digits_val_N x false) by (right; discriminate)
    end; now rewrite Hp.
Qed.

Lemma digits_NilZero d :
  forallb is_digit (bs (NilZero.string_of_uint d)) = true.
Proof.
  unfold NilZero.string_of_uint.
  destruct d; try reflexivity;
    match goal with
    | |- context [NilEmpty.string_of_uint ?x] =>
        change (forallb is_digit (bs (NilEmpty.string_of_uint x)) = true)
    end; apply digits_of_uint.
Qed.

(** [int] reads the [str] of an integer back. *)
Lemma int_of_str_int z : int_of_bytes (ascii_bytes (str_int z)) = Some z.
Proof.
  unfold str_int. rewrite ascii_bytes_txt.
  destruct z as [|p|p]; [reflexivity| |].
  - apply int_of_digits; [apply digits_NilZero | apply digits_val_positive].
  - change (bs (NilZero.string_of_int (Z.to_int (Z.neg p))))
      with ("-"%byte :: bs (NilZero.string_of_uint (Pos.to_uint p))).
    pose proof (digits_NilZero (Pos.to_uint p)) as Hd.
    unfold int_of_bytes. rewrite strip_clean.
    + now rewrite digits_val_positive.
    + unfold clean. cbn [forallb is_space negb andb].
      rewrite forallb_forall in *.
      intros c Hin. now rewrite (digit_not_space c (Hd c Hin)).
Qed.

Lemma clean_digits s : forallb is_digit s = true -> clean s = true.
Proof.
  unfold clean. rewrite !forallb_forall. intros H c Hin.
  now rewrite (digit_not_space c (H c Hin)).
Qed.

Lemma clean_str_int z : clean (ascii_bytes (str_int z)) = true.
Proof.
  unfold str_int. rewrite ascii_bytes_txt.
  unfold NilZero.string_of_int.
  destruct (Z.to_int z) as [d|d].
  - apply clean_digits, digits_NilZero.
  - change (clean ("-"%byte :: bs (NilZero.string_of_uint d)) = true).
    unfold clean. cbn [forallb is_space negb andb].
    apply (clean_digits _ (digits_NilZero d)).
Qed.

(** The first line of input that begins with clean bytes and a line
    terminator is those bytes. *)
Lemma split_eol_clean l rest :
  clean l = true -> split_eol (l ++ CRLF ++ rest) = Some (l, rest).
Proof.
  induction l as [|c l IH]; intros H; [reflexivity|].
  unfold clean in H. cbn [forallb] in H.
  apply andb_prop in H as [Hc Hl].
  change ((c :: l) ++ CRLF ++ rest) with (c :: (l ++ CRLF ++ rest)).
  cbn [split_eol]. rewrite (IH Hl).
  destruct c; try reflexivity; discriminate Hc.
Qed.

(* ===================================================================== *)
(** ** What is written is read back *)
(* ===================================================================== *)

Section RoundTrip.

Context {E : Env}.

Variable self : RedisClient.

Lemma until_eol_clean l rest log w :
  clean l = true ->
  until_eol (mkConn (l ++ CRLF ++ rest) log w)
  = (Return (if eol_kept then l ++ CRLF else l), mkConn rest log w).
Proof.
  intros H. unfold until_eol. cbn [inbuf].
  now rewrite (split_eol_clean l rest H).
Qed.

Lemma until_eol_empty rest log w :
  until_eol (mkConn (CRLF ++ rest) log w)
  = (Return (if eol_kept then CRLF else []), mkConn rest log w).
Proof. apply (until_eol_clean [] rest log w). reflexivity. Qed.

Lemma receive_exact b rest log w :
  receive (Z.of_nat (length b)) (mkConn (b ++ rest) log w)
  = (Return b, mkConn rest log w).
Proof.
  unfold receive. cbn [inbuf]. rewrite Nat2Z.id.
  assert (Hle : (length b <=? length (b ++ rest))%nat = true).
  { apply Nat.leb_le. rewrite length_app. lia. }
  rewrite Hle. unfold set_inbuf. cbn [sent wakes].
  rewrite firstn_app, Nat.sub_diag, firstn_all, firstn_O, app_nil_r.
  rewrite skipn_app, Nat.sub_diag, skipn_all. reflexivity.
Qed.

Lemma clean_header x n :
  is_space x = false -> clean (x :: dec_bytes n) = true.
Proof.
  intros Hx. unfold clean. cbn [forallb]. rewrite Hx.
  apply (clean_digits _ (digits_dec_bytes n)).
Qed.

(** The line [until_eol] returns for a length header reads as the
    length, stripped or not. *)
Lemma int_of_header n :
  int_of_bytes (if eol_kept then dec_bytes n ++ CRLF else dec_bytes n)
  = Some (Z.of_nat n).
Proof.
  destruct eol_kept; [rewrite int_of_bytes_CRLF|]; apply int_of_dec_bytes.
Qed.

Lemma not_minus_one n : (Z.of_nat n =? -1) = false.
Proof. apply Z.eqb_neq. lia. Qed.

Lemma _decode_response_as b a c :
  decoded_as self b a -> _decode_response self (ABytes b) c = (Return a, c).
Proof.
  unfold decoded_as, _decode_response.
  destruct (decode_responses self).
  - intros (t & Ht & ->). unfold bind. now rewrite Ht.
  - now intros ->.
Qed.

(** The branches of [decode_line], by the first byte of the line. *)
Lemma decode_line_dollar s :
  decode_line self ("$"%byte :: s)
  = (l <- int_ s ;;
     if l =? -1 then a <- _decode_response self ANone ;; ret (Scalar a)
     else
       resp <- receive l ;;
       until_eol ;;;
       a <- _decode_response self (ABytes resp) ;; ret (Scalar a)).
Proof. reflexivity. Qed.

Lemma decode_line_star s :
  decode_line self ("*"%byte :: s)
  = (count <- int_ s ;;
     if count =? -1 then ret RNone
     else l <- read_elements self (Z.to_nat count) [] ;; ret (Multi l)).
Proof. reflexivity. Qed.

Lemma decode_line_colon s :
  decode_line self (":"%byte :: s)
  = (z <- int_ s ;; ret (Scalar (AInt z))).
Proof. reflexivity. Qed.

Lemma decode_line_plus s :
  decode_line self ("+"%byte :: s)
  = (a <- _decode_response self (ABytes s) ;; ret (Scalar a)).
Proof. reflexivity. Qed.

(** X1.  A bulk string framed as [_send] frames it is read back by
    [_get_response] as the same bytes, whatever they are (line
    terminators included), and exactly the frame is consumed. *)
Theorem bulk_round_trip :
  forall (b : bytes) (a : atom) (rest : bytes) (log : list bytes)
         (w : list bool),
    decoded_as self b a ->
    _get_response self None (mkConn (bulk_frame b ++ rest) log w)
    = (Return (Scalar a), mkConn rest log w).
Proof.
  intros b a rest log w Ha.
  unfold _get_response. cbn [sig_truthy]. unfold bind at 1.
  unfold bulk_frame.
  replace ((bs "$" ++ dec_bytes (length b) ++ CRLF ++ b ++ CRLF) ++ rest)
    with (("$"%byte :: dec_bytes (length b)) ++ CRLF ++ b ++ CRLF ++ rest)
    by (cbn [bs list_byte_of_string app]; now rewrite <- !app_assoc).
  rewrite until_eol_clean by (now apply clean_header).
  rewrite strip_eol, strip_clean by (now apply clean_header).
  rewrite decode_line_dollar.
  unfold bind at 1. unfold int_, of_option.
  rewrite int_of_dec_bytes. unfold ret at 1.
  rewrite not_minus_one.
  unfold bind at 1. rewrite receive_exact.
  unfold bind at 1. rewrite until_eol_empty.
  unfold bind at 1. rewrite (_decode_response_as b a _ Ha).
  reflexivity.
Qed.

Lemma until_eol_header x l rest log w :
  clean (x :: l) = true ->
  until_eol (mkConn (x :: l ++ CRLF ++ rest) log w)
  = (Return (x :: (if eol_kept then l ++ CRLF else l)), mkConn rest log w).
Proof.
  intros H.
  change (x :: l ++ CRLF ++ rest) with ((x :: l) ++ CRLF ++ rest).
  rewrite (until_eol_clean _ rest log w H). now destruct eol_kept.
Qed.

Lemma read_elements_dollar n resp c tl c1 :
  until_eol c = (Return ("$"%byte :: tl), c1) ->
  read_elements self (S n) resp c
  = (l <- int_ tl ;;
     if l =? -1 then read_elements self n (resp ++ [ANone])
     else
       data <- receive l ;;
       a <- _decode_response self (ABytes data) ;;
       until_eol ;;;
       read_elements self n (resp ++ [a])) c1.
Proof. intros H. cbn [read_elements]. unfold bind at 1. now rewrite H. Qed.

(** Reading as many elements as there are frames gives the frames'
    contents, in order. *)
Lemma read_frames all : forall decs acc rest log w,
  Forall2 (decoded_as self) all decs ->
  read_elements self (length all) acc
    (mkConn (concat (map bulk_frame all) ++ rest) log w)
  = (Return (acc ++ decs), mkConn rest log w).
Proof.
  induction all as [|b all IH]; intros decs acc rest log w H.
  - inversion H; subst. cbn. now rewrite app_nil_r.
  - inversion H as [|? a ? decs' Ha Hall]; subst.
    cbn [length map concat]. unfold bulk_frame at 1.
    replace (((bs "$" ++ dec_bytes (length b) ++ CRLF ++ b ++ CRLF)
              ++ concat (map bulk_frame all)) ++ rest)
      with ("$"%byte :: dec_bytes (length b) ++ CRLF
            ++ b ++ CRLF ++ concat (map bulk_frame all) ++ rest)
      by (cbn [bs list_byte_of_string app]; now rewrite <- !app_assoc).
    rewrite (read_elements_dollar _ _ _ _ _
               (until_eol_header _ _ _ _ _ (clean_header "$" _ eq_refl))).
    unfold bind at 1. unfold int_, of_option.
    rewrite int_of_header. unfold ret at 1. rewrite not_minus_one.
    unfold bind at 1. rewrite receive_exact.
    unfold bind at 1. rewrite (_decode_response_as b a _ Ha).
    unfold bind at 1. rewrite until_eol_empty.
    rewrite (IH decs' (acc ++ [a]) rest log w Hall).
    now rewrite <- app_assoc.
Qed.

Lemma array_round_trip all decs rest log w :
  Forall2 (decoded_as self) all decs ->
  _get_response self None (mkConn (resp_array all ++ rest) log w)
  = (Return (Multi decs), mkConn rest log w).
Proof.
  intros H. unfold _get_response. cbn [sig_truthy]. unfold bind at 1.
  unfold resp_array. fold bulk_frame.
  replace ((bs "*" ++ dec_bytes (length all) ++ CRLF
            ++ concat (map (fun i => bs "$" ++ dec_bytes (length i) ++ CRLF
                                     ++ i ++ CRLF) all)) ++ rest)
    with (("*"%byte :: dec_bytes (length all)) ++ CRLF
          ++ concat (map bulk_frame all) ++ rest)
    by (cbn [bs list_byte_of_string app]; now rewrite <- !app_assoc).
  rewrite until_eol_clean by (now apply clean_header).
  rewrite strip_eol, strip_clean by (now apply clean_header).
  rewrite decode_line_star.
  unfold bind at 1. unfold int_, of_option.
  rewrite int_of_dec_bytes. unfold ret at 1. rewrite not_minus_one.
  rewrite Nat2Z.id. unfold bind at 1.
  now rewrite (read_frames all decs [] rest log w H).
Qed.

(** X2.  The request [_send] writes for a command and its arguments,
    sent back by the server, is read by [_get_response] as the list of
    the encoded elements in order, and exactly the request is
    consumed. *)
Theorem request_round_trip :
  forall (c0 : arg) (args : list arg) (all : list bytes) (decs : list atom)
         (rest : bytes) (log : list bytes) (w : list bool),
    Forall2 (coerced self) (c0 :: args) all ->
    Forall2 (decoded_as self) all decs ->
    let written := wire (snd (_send self c0 args None (mkConn [] [] []))) in
    _get_response self None (mkConn (written ++ rest) log w)
    = (Return (Multi decs), mkConn rest log w).
Proof.
  intros c0 args all decs rest log w Hc Hd written. subst written.
  apply encode_all_coerced in Hc.
  rewrite (_send_ok self c0 args None all _ Hc).
  cbn [snd]. rewrite wire_sending, concat_request.
  now apply array_round_trip.
Qed.

(** X3.  An integer reply in the decimal form of [str] is read as that
    integer, negative numbers included. *)
Theorem integer_round_trip :
  forall (z : Z) (rest : bytes) (log : list bytes) (w : list bool),
    _get_response self None
      (mkConn (bs ":" ++ ascii_bytes (str_int z) ++ CRLF ++ rest) log w)
    = (Return (Scalar (AInt z)), mkConn rest log w).
Proof.
  intros z rest log w.
  assert (Hc : clean (":"%byte :: ascii_bytes (str_int z)) = true).
  { unfold clean. cbn [forallb is_space negb andb]. apply clean_str_int. }
  unfold _get_response. cbn [sig_truthy]. unfold bind at 1.
  change (bs ":" ++ ascii_bytes (str_int z) ++ CRLF ++ rest)
    with ((":"%byte :: ascii_bytes (str_int z)) ++ CRLF ++ rest).
  rewrite until_eol_clean by exact Hc.
  rewrite strip_eol, strip_clean by exact Hc.
  rewrite decode_line_colon.
  unfold bind at 1. unfold int_, of_option.
  now rewrite int_of_str_int.
Qed.

End RoundTrip.

(* ===================================================================== *)
(** ** Replies the decoder does not know, and what reading touches *)
(* ===================================================================== *)

Lemma split_eol_sound s line rest :
  split_eol s = Some (line, rest) -> s = line ++ CRLF ++ rest.
Proof.
  revert line. induction s as [|x s IH]; intros line; simpl; [discriminate|].
  assert (Hgen : match split_eol s with
                 | Some (l, r) => Some (x :: l, r)
                 | None => None
                 end = Some (line, rest) -> x :: s = line ++ CRLF ++ rest).
  { destruct (split_eol s) as [[l r]|] eqn:Hs; [|discriminate].
    intros H. injection H as <- <-. now rewrite (IH l eq_refl). }
  destruct x; try exact Hgen.
  destruct s as [|y s']; [exact Hgen|].
  destruct y; try exact Hgen.
  intros H. injection H as <- <-. reflexivity.
Qed.

Section DecoderEdges.

Context {E : Env}.

Variable self : RedisClient.

(** X4.  A reply line whose first byte is none of [+ $ * : -] is
    consumed and [_get_response] returns [None]: no exception tells it
    from a nil reply. *)
Theorem unknown_reply_is_none :
  forall (c : conn) (line rest : bytes) (x : byte) (tl : bytes),
    split_eol (inbuf c) = Some (line, rest) ->
    strip line = x :: tl ->
    reply_marker x = false ->
    _get_response self None c = (Return RNone, set_inbuf c rest).
Proof.
  intros c line rest x tl Hl Hs Hx.
  unfold _get_response. cbn [sig_truthy]. unfold bind at 1.
  rewrite (until_eol_line _ _ _ Hl), strip_eol, Hs.
  unfold reply_marker in Hx.
  repeat (apply orb_false_elim in Hx as [Hx ?]).
  unfold decode_line. cbn [first_byte]. unfold bind at 1, ret at 1.
  now repeat match goal with H : Byte.eqb _ _ = false |- _ =>
    rewrite H; clear H end.
Qed.




End DecoderEdges.

(* ===================================================================== *)
(** ** Reading takes bytes from the front only *)
(* ===================================================================== *)

Section Consumers.

Context {E : Env}.

Lemma consumer_ret {A} (a : A) : consumer (ret a).
Proof. intros c. split; [reflexivity | now exists []]. Qed.

Lemma consumer_raise {A} (e : exn) : consumer (@raise A e).
Proof. intros c. split; [reflexivity | now exists []]. Qed.

Lemma consumer_bind {A B} (m : M A) (k : A -> M B) :
  consumer m -> (forall a, consumer (k a)) -> consumer (bind m k).
Proof.
  intros Hm Hk c. unfold bind. specialize (Hm c).
  destruct (m c) as [[a|e|] c']; simpl in *; auto.
  destruct Hm as [Hs (t1 & Ht1)].
  destruct (Hk a c') as [Hs' (t2 & Ht2)].
  split; [congruence|]. exists (t1 ++ t2).
  now rewrite Ht1, Ht2 at 1; rewrite app_assoc.
Qed.

Lemma consumer_of_option {A} e (o : option A) : consumer (of_option e o).
Proof. destruct o; [apply consumer_ret | apply consumer_raise]. Qed.

Lemma consumer_of_sum {A} (s : exn + A) : consumer (of_sum s).
Proof. destruct s; [apply consumer_raise | apply consumer_ret]. Qed.

Lemma consumer_until_eol : consumer until_eol.
Proof.
  intros c. unfold until_eol.
  destruct (split_eol (inbuf c)) as [[l r]|] eqn:H; simpl.
  - split; [reflexivity|]. exists (l ++ CRLF).
    rewrite <- app_assoc. now apply split_eol_sound.
  - split; [reflexivity | now exists []].
Qed.

Lemma consumer_receive n : consumer (receive n).
Proof.
  intros c. unfold receive.
  destruct (Nat.leb _ _); simpl.
  - split; [reflexivity|]. exists (firstn (Z.to_nat n) (inbuf c)).
    now rewrite firstn_skipn.
  - split; [reflexivity | now exists []].
Qed.

Lemma consumer_first_byte s : consumer (first_byte s).
Proof. destruct s; [apply consumer_raise | apply consumer_ret]. Qed.

Lemma consumer_int_ s : consumer (int_ s).
Proof. apply consumer_of_option. Qed.

Lemma consumer__decode_response self a : consumer (_decode_response self a).
Proof.
  destruct a; simpl; try apply consumer_ret.
  destruct (decode_responses self); [|apply consumer_ret].
  apply consumer_bind; [apply consumer_of_sum | intros; apply consumer_ret].
Qed.

Create HintDb consumers.

#[local] Hint Resolve consumer_ret consumer_raise consumer_of_option
  consumer_of_sum consumer_until_eol consumer_receive consumer_first_byte
  consumer_int_ consumer__decode_response : consumers.

Ltac consumers :=
  repeat first
    [ apply consumer_bind; [|intros]
    | match goal with
      | |- consumer (if ?b then _ else _) => destruct b
      end
    | solve [auto with consumers] ].

Lemma consumer_read_elements self n : forall resp,
  consumer (read_elements self n resp).
Proof.
  induction n as [|n IH]; intros resp; simpl; [apply consumer_ret|].
  consumers; apply IH.
Qed.

Lemma consumer_decode_line self fl : consumer (decode_line self fl).
Proof.
  unfold decode_line. consumers. apply consumer_read_elements.
Qed.

Lemma consumer_first_until_eol : consumer first_until_eol.
Proof.
  intros c. unfold first_until_eol.
  destruct (wakes c) as [|[|] w].
  - apply (consumer_bind until_eol (fun line => ret (EvUntilEol line)));
      auto with consumers.
  - split; [reflexivity | now exists []].
  - exact (consumer_bind until_eol (fun line => ret (EvUntilEol line))
             consumer_until_eol (fun a => consumer_ret _) (set_wakes c w)).
Qed.

(** X6.  Whatever [_get_response] does (return, raise, stay suspended),
    it sends nothing and what it leaves unread is a suffix of what was
    unread: it takes bytes from the front of the input only. *)
Theorem reading_takes_a_prefix :
  forall (self : RedisClient) (wake_sig : option text) (c : conn),
    sent (snd (_get_response self wake_sig c)) = sent c
    /\ exists taken,
         inbuf c = taken ++ inbuf (snd (_get_response self wake_sig c)).
Proof.
  intros self wake_sig. change (consumer (_get_response self wake_sig)).
  unfold _get_response. destruct (sig_truthy wake_sig).
  - apply consumer_bind; [apply consumer_first_until_eol|].
    intros [val|]; [apply consumer_decode_line | apply consumer_ret].
  - apply consumer_bind; [apply consumer_until_eol|].
    intros; apply consumer_decode_line.
Qed.

End Consumers.

(* ===================================================================== *)
(** ** [send_raw_command] *)
(* ===================================================================== *)

Section RawCommand.

Context {E : Env}.

Hypothesis Hkept : eol_kept = true.

Lemma until_eol_exact c line c' :
  until_eol c = (Return line, c') -> inbuf c = line ++ inbuf c'.
Proof.
  unfold until_eol.
  destruct (split_eol (inbuf c)) as [[l r]|] eqn:H; [|discriminate].
  rewrite Hkept. intros Heq. injection Heq as <- <-. simpl.
  rewrite <- app_assoc. now apply split_eol_sound.
Qed.

Lemma receive_taken n c data c' :
  receive n c = (Return data, c') -> inbuf c = data ++ inbuf c'.
Proof.
  unfold receive. destruct (Nat.leb _ _); [|discriminate].
  intros H. injection H as <- <-. simpl. now rewrite firstn_skipn.
Qed.

Lemma raw_elements_exact n : forall out0 c out c',
  Cmd.raw_elements n out0 c = (Return out, c') ->
  exists more, out = out0 ++ more /\ inbuf c = more ++ inbuf c'.
Proof.
  induction n as [|n IH]; intros out0 c out c'; simpl.
  - intros H. injection H as <- <-. exists []. now rewrite app_nil_r.
  - unfold bind at 1.
    destruct (until_eol c) as [[head|e|] c1] eqn:Hh; try discriminate.
    unfold bind at 1. unfold int_, of_option.
    destruct (int_of_bytes (drop1 head)) as [k|];
      [unfold ret at 1 | discriminate].
    unfold bind at 1.
    destruct (receive k c1) as [[data|e|] c2] eqn:Hd; try discriminate.
    unfold bind at 1.
    destruct (until_eol c2) as [[e|e|] c3] eqn:He; try discriminate.
    intros H. apply IH in H as (more & -> & Hin).
    apply until_eol_exact in Hh, He. apply receive_taken in Hd.
    exists (head ++ (data ++ e) ++ more). split.
    + now rewrite <- ?app_assoc.
    + rewrite Hh, Hd, He, Hin. now rewrite <- ?app_assoc.
Qed.

(** X7.  When [until_eol] keeps the line terminator, as diesel's does,
    the bytes [send_raw_command] returns are exactly the bytes it took
    from the input: the reply as the server wrote it, nothing dropped
    and nothing read beyond it. *)
Theorem raw_command_returns_what_it_read :
  forall (self : RedisClient) (arguments : list arg) (c c' : conn)
         (out : bytes),
    Cmd.send_raw_command self arguments c = (Return (Cmd.raw out), c') ->
    inbuf c = out ++ inbuf c'.
Proof.
  intros self arguments c c' out. unfold Cmd.send_raw_command.
  destruct arguments as [|c0 rest]; [discriminate|].
  unfold bind at 1.
  destruct (_send_cases self c0 [] (Some rest) c) as [[e He]|[chunks Hc]];
    [rewrite He; discriminate|].
  rewrite Hc.
  change (inbuf c) with (inbuf (sending c chunks)).
  generalize (sending c chunks). clear c Hc. intros c.
  unfold bind at 1.
  destruct (until_eol c) as [[line|e|] c1] eqn:Hl; try discriminate.
  apply until_eol_exact in Hl.
  unfold bind at 1.
  destruct line as [|x line]; [discriminate|].
  cbn [first_byte]. unfold ret at 1.
  destruct (Byte.eqb x "+" || Byte.eqb x "-" || Byte.eqb x ":").
  { intros H. injection H as <- <-. exact Hl. }
  destruct (Byte.eqb x "$").
  { unfold bind at 1. unfold int_, of_option.
    destruct (int_of_bytes (drop1 (x :: line))) as [amt|];
      [unfold ret at 1 | discriminate].
    destruct (amt =? -1).
    { intros H. injection H as <- <-. exact Hl. }
    unfold bind at 1.
    destruct (receive amt c1) as [[data|e|] c2] eqn:Hd; try discriminate.
    unfold bind at 1.
    destruct (until_eol c2) as [[e|e|] c3] eqn:He; try discriminate.
    intros H. injection H as <- <-.
    apply until_eol_exact in He. apply receive_taken in Hd.
    rewrite Hl, Hd, He. simpl. now rewrite <- ?app_assoc. }
  destruct (Byte.eqb x "*"); [|discriminate].
  unfold bind at 1. unfold int_, of_option.
  destruct (int_of_bytes (drop1 (x :: line))) as [nargs|];
    [unfold ret at 1 | discriminate].
  destruct (nargs =? -1).
  { intros H. injection H as <- <-. exact Hl. }
  unfold bind at 1.
  destruct (Cmd.raw_elements (Z.to_nat nargs) (x :: line) c1)
    as [[o|e|] c2] eqn:Hr; try discriminate.
  intros H. injection H as <- <-.
  apply raw_elements_exact in Hr as (more & -> & Hin).
  rewrite Hl, Hin. simpl. now rewrite <- ?app_assoc.
Qed.

End RawCommand.

(* ===================================================================== *)
(** ** What a scope leaves behind *)
(* ===================================================================== *)

Section Scopes.

Context {E : Env}.

(** X8.  For a transaction as [__init__] makes it ([value] unset, not
    aborted), the outcome of the block and the state of the object agree:
    a fault is never swallowed; the block completes only with [value]
    set and [aborted] false; [aborted] is set only when an exception
    leaves the block; and [value] is set only when the block
    completed. *)
Theorem transaction_state_tells_outcome :
  forall (A : Type) (t : RedisTransaction) (body : M A) (c : conn),
    val_is_None (value t) = true ->
    aborted t = false ->
    let r := with_transaction t body c in
    fst (fst r) <> Return None
    /\ (forall a, fst (fst r) = Return (Some a) ->
          aborted (snd (fst r)) = false
          /\ val_is_None (value (snd (fst r))) = false)
    /\ (aborted (snd (fst r)) = true -> exists e, fst (fst r) = Raise e)
    /\ (val_is_None (value (snd (fst r))) = false ->
        exists a, fst (fst r) = Return (Some a))
    /\ client (snd (fst r)) = client t
    /\ watching (snd (fst r)) = watching t.
Proof.
  intros A t body c Hv Ha r. subst r. unfold with_transaction.
  destruct (RedisTransaction___enter__ t c) as [[u|e|] c1]; cbn [fst snd];
    try (repeat split; try discriminate; try congruence; eauto; fail).
  destruct (body c1) as [[a|e|] c2]; cbn [fst snd];
    try (repeat split; try discriminate; try congruence; eauto; fail).
  - unfold RedisTransaction___exit__.
    destruct (Cmd.exec_ (client t) c2) as [[v|e|] c3]; cbn [fst snd];
      try (repeat split; try discriminate; try congruence; eauto; fail).
    destruct (val_is_None v) eqn:Hn; cbn [fst snd set_value set_aborted
      value aborted client watching];
      repeat split; try discriminate; try congruence; eauto.
  - unfold RedisTransaction___exit__.
    destruct (Cmd.discard (client t) c2) as [[v|e'|] c3];
      cbn [fst snd set_aborted value aborted client watching];
      repeat split; try discriminate; try congruence; eauto.
Qed.

(** X9.  Acquisition is all or nothing for the lock object: when
    [__enter__] returns, [in_block] is true and exactly one renewal task
    was forked; on every other outcome the object is as it was, with no
    task forked. *)
Theorem lock_enter_all_or_nothing :
  forall (self : RedisLock) (c : conn),
    match fst (fst (RedisLock___enter__ self c)) with
    | Return _ =>
        snd (fst (RedisLock___enter__ self c))
        = fork_touch (set_in_block self true)
    | _ => snd (fst (RedisLock___enter__ self c)) = self
    end.
Proof.
  intros self c. unfold RedisLock___enter__.
  destruct (transaction (lock_client self) (Some [ArgBytes (key self)]) c)
    as [[trans|e|] c1]; cbn [fst snd]; try reflexivity.
  destruct (Cmd.get (lock_client self) (ArgBytes (key self)) c1)
    as [[v|e|] c2]; cbn [fst snd]; try reflexivity.
  destruct (val_truthy v); cbn [fst snd]; [reflexivity|].
  destruct (with_transaction trans _ c2) as [[[u|e|] t'] c3];
    cbn [fst snd]; try reflexivity.
  destruct e; reflexivity.
Qed.

End Scopes.

(* ===================================================================== *)
(** ** The hub's mapping *)
(* ===================================================================== *)

Lemma bytes_eqb_false a b : bytes_eqb a b = false <-> a <> b.
Proof.
  unfold bytes_eqb. destruct (list_eq_dec _ a b); split; congruence.
Qed.

Lemma dict_get_set_same d k v : dict_get (dict_set d k v) k = Some v.
Proof.
  induction d as [|[k' v'] d IH]; simpl.
  - now rewrite bytes_eqb_refl.
  - destruct (bytes_eqb k' k) eqn:H; simpl; now rewrite H.
Qed.

Lemma dict_get_set_other d k v k' :
  k' <> k -> dict_get (dict_set d k v) k' = dict_get d k'.
Proof.
  intros Hne. induction d as [|[k0 v0] d IH]; simpl.
  - now rewrite (proj2 (bytes_eqb_false k k')) by congruence.
  - destruct (bytes_eqb k0 k) eqn:H; simpl.
    + apply bytes_eqb_eq in H. subst k0.
      now rewrite (proj2 (bytes_eqb_false k k')) by congruence.
    + now rewrite IH.
Qed.

Lemma dict_get_set_none d k v k' :
  dict_get (dict_set d k v) k' = None -> dict_get d k' = None /\ k' <> k.
Proof.
  intros H. destruct (list_eq_dec Byte.byte_eq_dec k' k) as [->|Hne].
  - rewrite dict_get_set_same in H. discriminate.
  - rewrite dict_get_set_other in H by assumption. auto.
Qed.

Lemma dict_get_del_same d k : dict_get (dict_del d k) k = None.
Proof.
  unfold dict_del. induction d as [|[k' v'] d IH]; simpl; [reflexivity|].
  destruct (bytes_eqb k' k) eqn:H; simpl; [exact IH | now rewrite H].
Qed.

Lemma dict_del_absent d k : dict_get d k = None -> dict_del d k = d.
Proof.
  unfold dict_del. induction d as [|[k' v'] d IH]; simpl; [reflexivity|].
  destruct (bytes_eqb k' k) eqn:H; simpl; [discriminate|].
  intros Hd. now rewrite IH.
Qed.

Lemma dict_del_set_absent d k v :
  dict_get d k = None -> dict_del (dict_set d k v) k = d.
Proof.
  induction d as [|[k' v'] d IH]; simpl.
  - unfold dict_del. simpl. now rewrite bytes_eqb_refl.
  - destruct (bytes_eqb k' k) eqn:H; [discriminate|].
    intros Hd. unfold dict_del in *. simpl. rewrite H. simpl.
    now rewrite IH.
Qed.

Lemma dict_set_set d k v1 v2 :
  dict_set (dict_set d k v1) k v2 = dict_set d k v2.
Proof.
  induction d as [|[k' v'] d IH]; simpl.
  - now rewrite bytes_eqb_refl.
  - destruct (bytes_eqb k' k) eqn:H; simpl; rewrite H; [reflexivity|].
    now rewrite IH.
Qed.

Lemma dict_set_same d k v : dict_get d k = Some v -> dict_set d k v = d.
Proof.
  induction d as [|[k' v'] d IH]; simpl; [discriminate|].
  destruct (bytes_eqb k' k) eqn:H.
  - intros Heq. now injection Heq as ->.
  - intros Hd. now rewrite IH.
Qed.

(** Sets of queues and of channels. *)
Lemma existsb_nat_eqb q qs : existsb (Nat.eqb q) qs = true <-> In q qs.
Proof.
  rewrite existsb_exists. split.
  - intros (x & Hin & Hx). apply Nat.eqb_eq in Hx. now subst.
  - intros H. exists q. split; [assumption | apply Nat.eqb_refl].
Qed.

Lemma existsb_bytes_eqb k ks : existsb (bytes_eqb k) ks = true <-> In k ks.
Proof.
  rewrite existsb_exists. split.
  - intros (x & Hin & Hx). apply bytes_eqb_eq in Hx. now subst.
  - intros H. exists k. split; [assumption | apply bytes_eqb_refl].
Qed.

Lemma in_set_add_nat q x qs : In q (set_add Nat.eqb x qs) <-> q = x \/ In q qs.
Proof.
  unfold set_add. destruct (existsb (Nat.eqb x) qs) eqn:H.
  - apply existsb_nat_eqb in H. split; [auto|]. intros [->|]; auto.
  - rewrite in_app_iff. simpl. intuition.
Qed.

Lemma in_set_add_bytes k x ks :
  In k (set_add bytes_eqb x ks) <-> k = x \/ In k ks.
Proof.
  unfold set_add. destruct (existsb (bytes_eqb x) ks) eqn:H.
  - apply existsb_bytes_eqb in H. split; [auto|]. intros [->|]; auto.
  - rewrite in_app_iff. simpl. intuition.
Qed.

Lemma NoDup_set_add_bytes x ks : NoDup ks -> NoDup (set_add bytes_eqb x ks).
Proof.
  intros H. unfold set_add. destruct (existsb (bytes_eqb x) ks) eqn:Hx; auto.
  apply NoDup_app; auto.
  - constructor; [intros [] | constructor].
  - intros k Hin [<-|[]].
    apply existsb_bytes_eqb in Hin. congruence.
Qed.

Lemma filter_out_absent q qs :
  ~ In q qs -> filter (fun y => negb (Nat.eqb q y)) qs = qs.
Proof.
  induction qs as [|y qs IH]; simpl; [reflexivity|].
  intros H. destruct (Nat.eqb q y) eqn:Hy.
  - apply Nat.eqb_eq in Hy. subst. elim H. now left.
  - simpl. rewrite IH; auto.
Qed.

Lemma set_remove_not_in q qs qs' :
  set_remove Nat.eqb q qs = Some qs' -> ~ In q qs'.
Proof.
  unfold set_remove. destruct (existsb (Nat.eqb q) qs); [|discriminate].
  intros H. injection H as <-. rewrite filter_In.
  intros [_ Hq]. now rewrite Nat.eqb_refl in Hq.
Qed.

Lemma set_remove_absent q qs : ~ In q qs -> set_remove Nat.eqb q qs = None.
Proof.
  intros H. unfold set_remove.
  destruct (existsb (Nat.eqb q) qs) eqn:Hq; [|reflexivity].
  apply existsb_nat_eqb in Hq. contradiction.
Qed.

Lemma set_remove_added q qs :
  ~ In q qs -> set_remove Nat.eqb q (set_add Nat.eqb q qs) = Some qs.
Proof.
  intros H. unfold set_add.
  destruct (existsb (Nat.eqb q) qs) eqn:Hq.
  - apply existsb_nat_eqb in Hq. contradiction.
  - unfold set_remove.
    assert (He : existsb (Nat.eqb q) (qs ++ [q]) = true).
    { apply existsb_nat_eqb, in_app_iff. right. now left. }
    rewrite He, filter_app, (filter_out_absent q qs H). simpl.
    now rewrite Nat.eqb_refl, app_nil_r.
Qed.

Lemma dict_get_del_other d k k' :
  k' <> k -> dict_get (dict_del d k) k' = dict_get d k'.
Proof.
  intros Hne. induction d as [|[k0 v0] d IH]; [reflexivity|].
  unfold dict_del in *. cbn [filter fst dict_get].
  destruct (bytes_eqb k0 k) eqn:H0; cbn [negb].
  - apply bytes_eqb_eq in H0. subst k0.
    assert (H1 : bytes_eqb k k' = false)
      by (apply bytes_eqb_false; congruence).
    now rewrite H1.
  - cbn [dict_get]. now rewrite IH.
Qed.

Lemma set_remove_some q qs qs' :
  set_remove Nat.eqb q qs = Some qs' ->
  In q qs /\ qs' = filter (fun y => negb (Nat.eqb q y)) qs.
Proof.
  unfold set_remove. destruct (existsb (Nat.eqb q) qs) eqn:H; [|discriminate].
  intros Heq. injection Heq as <-. split; [|reflexivity].
  now apply existsb_nat_eqb.
Qed.

Lemma set_remove_present q qs :
  In q qs ->
  set_remove Nat.eqb q qs = Some (filter (fun y => negb (Nat.eqb q y)) qs).
Proof.
  intros H. unfold set_remove.
  apply existsb_nat_eqb in H. now rewrite H.
Qed.

(* ===================================================================== *)
(** ** Additions and removals *)
(* ===================================================================== *)

Section HubFacts.

Context {E : Env}.

Lemma add_loop_cons k q sa subs new glob :
  add_loop ((k, q) :: sa) (subs, new, glob)
  = match dict_get subs k with
    | None =>
        add_loop sa
          (dict_set subs k [q],
           if flag_truthy (__isglob k) then new
           else set_add bytes_eqb k new,
           if flag_truthy (__isglob k) then set_add bytes_eqb k glob
           else glob)
    | Some qs =>
        add_loop sa (dict_set subs k (set_add Nat.eqb q qs), new, glob)
    end.
Proof. reflexivity. Qed.

Lemma add_loop_keeps sa : forall subs new glob k q,
  subscribed subs k q ->
  subscribed (fst (fst (add_loop sa (subs, new, glob)))) k q.
Proof.
  induction sa as [|[k0 q0] sa IH]; intros subs new glob k q H;
    [exact H|].
  rewrite add_loop_cons. destruct H as (qs & Hg & Hin).
  destruct (list_eq_dec Byte.byte_eq_dec k k0) as [->|Hne].
  - rewrite Hg. apply IH. exists (set_add Nat.eqb q0 qs).
    rewrite dict_get_set_same. split; [reflexivity|].
    apply in_set_add_nat. now right.
  - destruct (dict_get subs k0); apply IH; exists qs;
      rewrite dict_get_set_other by assumption; auto.
Qed.

Lemma add_loop_adds sa : forall subs new glob k q,
  In (k, q) sa ->
  subscribed (fst (fst (add_loop sa (subs, new, glob)))) k q.
Proof.
  induction sa as [|[k0 q0] sa IH]; intros subs new glob k q Hin;
    [destruct Hin|].
  rewrite add_loop_cons. destruct Hin as [Heq|Hin].
  - injection Heq as -> ->.
    destruct (dict_get subs k) as [qs|]; apply add_loop_keeps.
    + exists (set_add Nat.eqb q qs). rewrite dict_get_set_same.
      split; [reflexivity|]. apply in_set_add_nat. now left.
    + exists [q]. rewrite dict_get_set_same. split; [reflexivity|now left].
  - destruct (dict_get subs k0); now apply IH.
Qed.

(** X10.  After the hub has applied its pending additions, every queue
    that asked for a channel through [subq] is in that channel's set,
    and every subscription there was before is still there.  This holds
    whether or not the SUBSCRIBE calls that follow succeed. *)
Theorem subq_then_additions_subscribe :
  forall (h h1 : RedisSubHub) (classes : arg + list arg) (q : nat)
         (cls : list bytes) (c : conn),
    subq_enter h classes q = inr (h1, cls) ->
    let h2 := snd (fst (hub_additions h1 c)) in
    (forall k, In k cls -> subscribed (subs h2) k q)
    /\ (forall k q', subscribed (subs h) k q' -> subscribed (subs h2) k q')
    /\ sub_adds h2 = [].
Proof.
  intros h h1 classes q cls c Henter h2.
  unfold subq_enter in Henter.
  destruct (hub_encode_all h _) as [e|cls0]; [discriminate|].
  injection Henter as <- <-.
  assert (Hsa : forall k, In k cls0 ->
                  In (k, q) (sub_adds h ++ map (fun k => (k, q)) cls0)).
  { intros k Hk. apply in_app_iff. right.
    apply in_map_iff. now exists k. }
  subst h2. unfold hub_additions. cbn [append_adds sub_adds subs].
  destruct (sub_adds h ++ map (fun k => (k, q)) cls0) as [|p sa] eqn:Hl.
  - cbn [fst snd append_adds subs sub_adds]. repeat split; auto.
    intros k Hk. destruct (Hsa k Hk).
  - pose proof (add_loop_adds (p :: sa) (subs h) [] []) as Hadd.
    pose proof (add_loop_keeps (p :: sa) (subs h) [] []) as Hkeep.
    destruct (add_loop (p :: sa) (subs h, [], [])) as [[subs' new] glob].
    cbn [fst snd] in Hadd, Hkeep.
    destruct ((call_if_any Cmd.subscribe _ new ;;;
               call_if_any Cmd.psubscribe _ glob) c) as [o c'].
    cbn [fst snd with_subs clear_adds subs sub_adds].
    repeat split; auto.
Qed.

(** The two batches of the additions, with any starting batches. *)
Lemma add_loop_batches sa : forall subs new0 glob0 subs' new glob,
  add_loop sa (subs, new0, glob0) = (subs', new, glob) ->
  (NoDup new0 -> NoDup new)
  /\ (NoDup glob0 -> NoDup glob)
  /\ (forall k,
        In k new <->
        In k new0
        \/ (flag_truthy (__isglob k) = false /\ dict_get subs k = None
            /\ exists q, In (k, q) sa))
  /\ (forall k,
        In k glob <->
        In k glob0
        \/ (flag_truthy (__isglob k) = true /\ dict_get subs k = None
            /\ exists q, In (k, q) sa)).
Proof.
  induction sa as [|[k0 q0] sa IH]; intros subs new0 glob0 subs' new glob H.
  - injection H as <- <- <-.
    repeat split; auto; try (intros [?|(_ & _ & _ & [])]; assumption).
  - rewrite add_loop_cons in H.
    destruct (dict_get subs k0) as [qs0|] eqn:Hk0.
    + apply IH in H as (Hn & Hg & Hin & Hig).
      split; [exact Hn|]. split; [exact Hg|].
      assert (Hstep : forall k,
                dict_get (dict_set subs k0 (set_add Nat.eqb q0 qs0)) k = None
                <-> dict_get subs k = None).
      { intros k. destruct (list_eq_dec Byte.byte_eq_dec k k0) as [->|Hne].
        - rewrite dict_get_set_same, Hk0. split; discriminate.
        - now rewrite dict_get_set_other. }
      split; intros k; [rewrite Hin | rewrite Hig]; rewrite Hstep;
        (split; intros [Hl|(Hf & Hd & q & Hq)]; [now left | | now left |];
         right; repeat split; auto;
         [exists q; now right |
          destruct Hq as [Hq|Hq]; [injection Hq as -> ->; congruence|];
          now exists q]).
    + apply IH in H as (Hn & Hg & Hin & Hig).
      assert (Hstep : forall k,
                dict_get (dict_set subs k0 [q0]) k = None
                <-> dict_get subs k = None /\ k <> k0).
      { intros k. split.
        - apply dict_get_set_none.
        - intros [Hd Hne]. now rewrite dict_get_set_other. }
      destruct (flag_truthy (__isglob k0)) eqn:Hglob.
      * split; [exact Hn|].
        split; [intros Hnd; apply Hg; now apply NoDup_set_add_bytes|].
        split; intros k; [rewrite Hin | rewrite Hig, in_set_add_bytes];
          rewrite Hstep.
        -- split; intros [Hl|(Hf & Hd & q & Hq)]; [now left | | now left |].
           ++ right. destruct Hd. repeat split; auto. exists q. now right.
           ++ destruct Hq as [Hq|Hq]; [injection Hq as -> ->; congruence|].
              destruct (list_eq_dec Byte.byte_eq_dec k k0) as [->|Hne];
                [congruence|].
              right. repeat split; auto. now exists q.
        -- split; intros [Hl|(Hf & Hd & q & Hq)].
           ++ destruct Hl as [->|Hl]; [|now left].
              right. repeat split; auto. exists q0. now left.
           ++ right. destruct Hd. repeat split; auto. exists q. now right.
           ++ left. now right.
           ++ destruct (list_eq_dec Byte.byte_eq_dec k k0) as [->|Hne];
                [left; now left|].
              destruct Hq as [Hq|Hq]; [injection Hq as -> ->; congruence|].
              right. repeat split; auto. now exists q.
      * split; [intros Hnd; apply Hn; now apply NoDup_set_add_bytes|].
        split; [exact Hg|].
        split; intros k; [rewrite Hin, in_set_add_bytes | rewrite Hig];
          rewrite Hstep.
        -- split; intros [Hl|(Hf & Hd & q & Hq)].
           ++ destruct Hl as [->|Hl]; [|now left].
              right. repeat split; auto. exists q0. now left.
           ++ right. destruct Hd. repeat split; auto. exists q. now right.
           ++ left. now right.
           ++ destruct (list_eq_dec Byte.byte_eq_dec k k0) as [->|Hne];
                [left; now left|].
              destruct Hq as [Hq|Hq]; [injection Hq as -> ->; congruence|].
              right. repeat split; auto. now exists q.
        -- split; intros [Hl|(Hf & Hd & q & Hq)]; [now left | | now left |].
           ++ right. destruct Hd. repeat split; auto. exists q. now right.
           ++ destruct Hq as [Hq|Hq]; [injection Hq as -> ->; congruence|].
              destruct (list_eq_dec Byte.byte_eq_dec k k0) as [->|Hne];
                [congruence|].
              right. repeat split; auto. now exists q.
Qed.

(** X11.  The additions put a channel in the SUBSCRIBE batch exactly
    when it is requested, was not in the mapping, and [__isglob] is
    falsy for it, and in the PSUBSCRIBE batch exactly when it is
    requested, was not in the mapping, and [__isglob] is truthy; no
    channel is in a batch twice.  So a channel already subscribed is
    never subscribed again. *)
Theorem additions_batches :
  forall (sa : list (bytes * nat)) (subs subs' : list (bytes * list nat))
         (new glob : list bytes),
    add_loop sa (subs, [], []) = (subs', new, glob) ->
    NoDup new /\ NoDup glob
    /\ (forall k,
          In k new <->
          flag_truthy (__isglob k) = false /\ dict_get subs k = None
          /\ exists q, In (k, q) sa)
    /\ (forall k,
          In k glob <->
          flag_truthy (__isglob k) = true /\ dict_get subs k = None
          /\ exists q, In (k, q) sa).
Proof.
  intros sa subs subs' new glob H.
  apply add_loop_batches in H as (Hn & Hg & Hin & Hig).
  split; [apply Hn; constructor|]. split; [apply Hg; constructor|].
  split; intros k; [rewrite Hin | rewrite Hig];
    (split; [intros [[]|H]; exact H | intros H; now right]).
Qed.

End HubFacts.

(* ===================================================================== *)
(** ** Removals *)
(* ===================================================================== *)

Section Removals.

Context {E : Env}.

Lemma rm_loop_cons k q sr subs rm glob :
  rm_loop ((k, q) :: sr) (subs, rm, glob)
  = match dict_get subs k with
    | None => (Some KeyError, (subs, rm, glob))
    | Some qs =>
        match set_remove Nat.eqb q qs with
        | None => (Some KeyError, (subs, rm, glob))
        | Some [] =>
            rm_loop sr
              (dict_del subs k,
               if flag_truthy (__isglob k) then rm
               else set_add bytes_eqb k rm,
               if flag_truthy (__isglob k) then set_add bytes_eqb k glob
               else glob)
        | Some ((_ :: _) as qs') => rm_loop sr (dict_set subs k qs', rm, glob)
        end
    end.
Proof. reflexivity. Qed.

Lemma removed_from_same subs k qs' q :
  ~ In q qs' -> ~ subscribed (removed_from subs k qs') k q.
Proof.
  intros Hq (qs & Hg & Hin). destruct qs' as [|x qs']; cbn in Hg.
  - now rewrite dict_get_del_same in Hg.
  - rewrite dict_get_set_same in Hg. injection Hg as <-. now apply Hq.
Qed.

Lemma removed_from_other subs k qs' k' :
  k' <> k -> dict_get (removed_from subs k qs') k' = dict_get subs k'.
Proof.
  intros Hne. destruct qs'; cbn.
  - now apply dict_get_del_other.
  - now apply dict_get_set_other.
Qed.

Lemma rm_loop_step k q sr subs rm glob qs qs' :
  dict_get subs k = Some qs ->
  set_remove Nat.eqb q qs = Some qs' ->
  exists rm' glob',
    rm_loop ((k, q) :: sr) (subs, rm, glob)
    = rm_loop sr (removed_from subs k qs', rm', glob').
Proof.
  intros Hg Hr. rewrite rm_loop_cons, Hg, Hr.
  destruct qs'; eexists; eexists; reflexivity.
Qed.

Lemma rm_loop_unsubscribed sr : forall subs rm glob k q,
  ~ subscribed subs k q -> In (k, q) sr ->
  fst (rm_loop sr (subs, rm, glob)) = Some KeyError.
Proof.
  induction sr as [|[k0 q0] sr IH]; intros subs rm glob k q Hn Hin;
    [destruct Hin|].
  destruct (dict_get subs k0) as [qs|] eqn:Hg;
    [|now rewrite rm_loop_cons, Hg].
  destruct (set_remove Nat.eqb q0 qs) as [qs'|] eqn:Hr;
    [|now rewrite rm_loop_cons, Hg, Hr].
  destruct (rm_loop_step k0 q0 sr subs rm glob qs qs' Hg Hr)
    as (rm' & glob' & ->).
  apply set_remove_some in Hr as [Hq0 ->].
  destruct Hin as [Heq|Hin].
  { injection Heq as -> ->. destruct Hn. now exists qs. }
  apply (IH _ _ _ k q); [|exact Hin].
  intros (qs1 & Hg1 & Hin1).
  destruct (list_eq_dec Byte.byte_eq_dec k k0) as [->|Hne].
  - apply Hn. exists qs. split; [exact Hg|].
    destruct (filter (fun y => negb (Nat.eqb q0 y)) qs) as [|x l] eqn:Hf;
      cbn in Hg1.
    + now rewrite dict_get_del_same in Hg1.
    + rewrite dict_get_set_same in Hg1. injection Hg1 as <-.
      rewrite <- Hf in Hin1. now apply filter_In in Hin1.
  - rewrite removed_from_other in Hg1 by exact Hne.
    apply Hn. now exists qs1.
Qed.

Lemma pair_eq_dec (p p' : bytes * nat) : {p = p'} + {p <> p'}.
Proof.
  decide equality; [apply Nat.eq_dec | apply list_eq_dec, Byte.byte_eq_dec].
Qed.

Lemma rm_loop_repeated sr : forall subs rm glob,
  ~ NoDup sr -> fst (rm_loop sr (subs, rm, glob)) = Some KeyError.
Proof.
  induction sr as [|[k q] sr IH]; intros subs rm glob Hn.
  { destruct Hn. constructor. }
  destruct (dict_get subs k) as [qs|] eqn:Hg;
    [|now rewrite rm_loop_cons, Hg].
  destruct (set_remove Nat.eqb q qs) as [qs'|] eqn:Hr;
    [|now rewrite rm_loop_cons, Hg, Hr].
  destruct (rm_loop_step k q sr subs rm glob qs qs' Hg Hr)
    as (rm' & glob' & ->).
  destruct (in_dec pair_eq_dec (k, q) sr) as [Hin|Hout].
  - apply (rm_loop_unsubscribed sr _ _ _ k q); [|exact Hin].
    apply removed_from_same. now apply set_remove_not_in in Hr.
  - apply IH. intros Hnd. apply Hn. now constructor.
Qed.

Lemma hub_removals_KeyError h c :
  fst (rm_loop (sub_rms h) (subs h, [], [])) = Some KeyError ->
  exists h',
    hub_removals h c = (Raise KeyError, h', c) /\ sub_rms h' = [].
Proof.
  intros H. unfold hub_removals.
  destruct (sub_rms h) as [|p sr] eqn:Hs; [discriminate H|].
  destruct (rm_loop (p :: sr) (subs h, [], [])) as [err [[subs' rm] glob]].
  cbn [fst] in H. subst err. eexists. split; reflexivity.
Qed.

(** X12.  The removals raise [KeyError] when a pending pair of channel
    and queue is not subscribed, or when the same pair is pending twice;
    the list of pending removals has been emptied by then and nothing
    has been sent. *)
Theorem removals_raise_KeyError :
  forall (h : RedisSubHub) (c : conn),
    (exists k q, In (k, q) (sub_rms h) /\ ~ subscribed (subs h) k q)
    \/ ~ NoDup (sub_rms h) ->
    exists h',
      hub_removals h c = (Raise KeyError, h', c) /\ sub_rms h' = [].
Proof.
  intros h c [(k & q & Hin & Hn)|Hd]; apply hub_removals_KeyError.
  - now apply (rm_loop_unsubscribed _ _ _ _ k q).
  - now apply rm_loop_repeated.
Qed.

(** X13.  When two of the classes given to [subq] encode to the same
    bytes, the removals that follow the end of the scope raise
    [KeyError], whatever the hub has done in between. *)
Theorem subq_repeated_class_breaks_removals :
  forall (h h1 h2 : RedisSubHub) (classes : arg + list arg) (q : nat)
         (cls : list bytes) (c : conn),
    subq_enter h classes q = inr (h1, cls) ->
    ~ NoDup cls ->
    exists h',
      hub_removals (subq_exit h2 cls q) c = (Raise KeyError, h', c)
      /\ sub_rms h' = [].
Proof.
  intros h h1 h2 classes q cls c _ Hd.
  apply hub_removals_KeyError, rm_loop_repeated.
  unfold subq_exit, append_rms. cbn [sub_rms].
  intros Hnd. apply Hd.
  apply NoDup_app_remove_l in Hnd.
  now apply NoDup_map_inv in Hnd.
Qed.

End Removals.

(* ===================================================================== *)
(** ** Subscribing and unsubscribing one queue *)
(* ===================================================================== *)

Section HubRoundTrip.

Context {E : Env}.

Lemma set_add_fresh q qs :
  ~ In q qs -> set_add Nat.eqb q qs = qs ++ [q].
Proof.
  intros H. unfold set_add.
  destruct (existsb (Nat.eqb q) qs) eqn:He; [|reflexivity].
  now apply existsb_nat_eqb in He.
Qed.

Lemma filter_out_last q qs :
  ~ In q qs -> filter (fun y => negb (Nat.eqb q y)) (qs ++ [q]) = qs.
Proof.
  intros H. rewrite filter_app, filter_out_absent by exact H.
  cbn. rewrite Nat.eqb_refl. cbn. apply app_nil_r.
Qed.

Lemma in_pairs_for (q : nat) cls k :
  (exists q', In (k, q') (map (fun k : bytes => (k, q)) cls)) <-> In k cls.
Proof.
  split.
  - intros (q' & H). apply in_map_iff in H as (k' & Heq & Hin).
    now injection Heq as -> _.
  - intros H. exists q. apply in_map_iff. now exists k.
Qed.

(** The mapping after the additions of one queue to distinct channels. *)
Lemma add_loop_get cls q : NoDup cls -> forall subs new glob,
  let subs1 :=
    fst (fst (add_loop (map (fun k : bytes => (k, q)) cls)
                (subs, new, glob))) in
  (forall k, In k cls ->
     dict_get subs1 k
     = Some (set_add Nat.eqb q
               (match dict_get subs k with Some qs => qs | None => [] end)))
  /\ (forall k, ~ In k cls -> dict_get subs1 k = dict_get subs k).
Proof.
  induction 1 as [|k0 cls Hout Hnd IH]; intros subs new glob subs1.
  { split; [intros k []|reflexivity]. }
  subst subs1. cbn [map]. rewrite add_loop_cons.
  assert (Hgen : forall v new' glob',
    (dict_get subs k0 = None -> v = [q]) ->
    (forall qs, dict_get subs k0 = Some qs -> v = set_add Nat.eqb q qs) ->
    let subs1 :=
      fst (fst (add_loop (map (fun k : bytes => (k, q)) cls)
                  (dict_set subs k0 v, new', glob')))
    in
    (forall k, In k (k0 :: cls) ->
       dict_get subs1 k
       = Some (set_add Nat.eqb q
                 (match dict_get subs k with Some qs => qs | None => [] end)))
    /\ (forall k, ~ In k (k0 :: cls) -> dict_get subs1 k = dict_get subs k)).
  { intros v new' glob' Hnone Hsome subs1.
    destruct (IH (dict_set subs k0 v) new' glob') as [IH1 IH2].
    fold subs1 in IH1, IH2. split.
    - intros k [<-|Hin].
      + rewrite IH2 by exact Hout. rewrite dict_get_set_same.
        destruct (dict_get subs k0) as [qs|].
        * now rewrite (Hsome qs eq_refl).
        * now rewrite Hnone.
      + rewrite IH1 by exact Hin.
        assert (Hne : k <> k0) by (intros ->; contradiction).
        now rewrite dict_get_set_other.
    - intros k Hk. rewrite IH2 by (intros Hin; apply Hk; now right).
      apply dict_get_set_other. intros ->. apply Hk. now left. }
  destruct (dict_get subs k0) as [qs|] eqn:Hg; apply Hgen;
    try discriminate; try reflexivity.
  now intros qs' [= ->].
Qed.

(** The removals of one queue from distinct channels where it is the
    last queue added. *)
Lemma rm_loop_fresh cls q : NoDup cls -> forall d rm0 g0,
  (forall k, In k cls ->
     exists qs0, ~ In q qs0 /\ dict_get d k = Some (qs0 ++ [q])) ->
  exists d' rm g,
    rm_loop (map (fun k : bytes => (k, q)) cls) (d, rm0, g0)
    = (None, (d', rm, g))
    /\ (forall k qs0, In k cls -> dict_get d k = Some (qs0 ++ [q]) ->
          ~ In q qs0 ->
          dict_get d' k = match qs0 with [] => None | _ => Some qs0 end)
    /\ (forall k, ~ In k cls -> dict_get d' k = dict_get d k)
    /\ (forall k, In k rm <->
          In k rm0
          \/ (In k cls /\ flag_truthy (__isglob k) = false
              /\ dict_get d k = Some [q]))
    /\ (forall k, In k g <->
          In k g0
          \/ (In k cls /\ flag_truthy (__isglob k) = true
              /\ dict_get d k = Some [q])).
Proof.
  induction 1 as [|k0 cls Hout Hnd IH]; intros d rm0 g0 Hall.
  { exists d, rm0, g0. split; [reflexivity|].
    split; [intros k qs0 []|]. split; [reflexivity|].
    split; intros k; (split; [now left | intros [H|([] & _)]; exact H]). }
  destruct (Hall k0 (or_introl eq_refl)) as (qs0 & Hq0 & Hg0).
  assert (Hr : set_remove Nat.eqb q (qs0 ++ [q]) = Some qs0).
  { rewrite set_remove_present by (apply in_app_iff; right; now left).
    now rewrite filter_out_last. }
  set (rm1 := match qs0 with
              | [] => if flag_truthy (__isglob k0) then rm0
                      else set_add bytes_eqb k0 rm0
              | _ => rm0
              end).
  set (g1 := match qs0 with
             | [] => if flag_truthy (__isglob k0)
                     then set_add bytes_eqb k0 g0 else g0
             | _ => g0
             end).
  assert (Hstep : rm_loop (map (fun k : bytes => (k, q)) (k0 :: cls))
                    (d, rm0, g0)
                  = rm_loop (map (fun k : bytes => (k, q)) cls)
                      (removed_from d k0 qs0, rm1, g1)).
  { cbn [map]. rewrite rm_loop_cons, Hg0, Hr. subst rm1 g1.
    now destruct qs0. }
  assert (Hother : forall k, In k cls ->
            dict_get (removed_from d k0 qs0) k = dict_get d k).
  { intros k Hin. apply removed_from_other. intros ->. contradiction. }
  destruct (IH (removed_from d k0 qs0) rm1 g1)
    as (d' & rm & g & Hrun & Hin' & Hout' & Hrm & Hgl).
  { intros k Hin. rewrite Hother by exact Hin. apply Hall. now right. }
  exists d', rm, g. rewrite Hstep. split; [exact Hrun|].
  split; [|split; [|split]].
  - intros k qs1 [<-|Hin] Hg1 Hq1.
    + rewrite Hg0 in Hg1. injection Hg1 as Heq.
      apply app_inj_tail in Heq as [<- _].
      rewrite Hout' by exact Hout.
      destruct qs0 as [|x l]; cbn [removed_from].
      * apply dict_get_del_same.
      * apply dict_get_set_same.
    + apply Hin'; auto. now rewrite Hother.
  - intros k Hk. rewrite Hout' by (intros Hin; apply Hk; now right).
    apply removed_from_other. intros ->. apply Hk. now left.
  - intros k. rewrite Hrm. subst rm1. split.
    + intros [Hl|(Hin & Hf & Hd)].
      * destruct qs0 as [|x l]; [|now left].
        destruct (flag_truthy (__isglob k0)) eqn:Hglob; [now left|].
        apply in_set_add_bytes in Hl as [->|Hl]; [|now left].
        right. repeat split; auto. now left.
      * right. rewrite Hother in Hd by exact Hin.
        repeat split; auto. now right.
    + intros [Hl|([<-|Hin] & Hf & Hd)].
      * left. destruct qs0 as [|x l]; [|exact Hl].
        destruct (flag_truthy (__isglob k0)); [exact Hl|].
        apply in_set_add_bytes. now right.
      * left. rewrite Hg0 in Hd. injection Hd as Hd.
        destruct qs0 as [|x [|y l]]; try discriminate Hd.
        rewrite Hf. apply in_set_add_bytes. now left.
      * right. rewrite Hother by exact Hin. auto.
  - intros k. rewrite Hgl. subst g1. split.
    + intros [Hl|(Hin & Hf & Hd)].
      * destruct qs0 as [|x l]; [|now left].
        destruct (flag_truthy (__isglob k0)) eqn:Hglob; [|now left].
        apply in_set_add_bytes in Hl as [->|Hl]; [|now left].
        right. repeat split; auto. now left.
      * right. rewrite Hother in Hd by exact Hin.
        repeat split; auto. now right.
    + intros [Hl|([<-|Hin] & Hf & Hd)].
      * left. destruct qs0 as [|x l]; [|exact Hl].
        destruct (flag_truthy (__isglob k0)); [|exact Hl].
        apply in_set_add_bytes. now right.
      * left. rewrite Hg0 in Hd. injection Hd as Hd.
        destruct qs0 as [|x [|y l]]; try discriminate Hd.
        rewrite Hf. apply in_set_add_bytes. now left.
      * right. rewrite Hother by exact Hin. auto.
Qed.

(** X14.  What [subq] queues for one new queue and distinct channels
    undoes itself: after the loop of the additions, the loop of the
    removals over the same pairs raises nothing, leaves every channel
    with the queues it had before, and collects for UNSUBSCRIBE and
    PUNSUBSCRIBE exactly the channels that were collected for SUBSCRIBE
    and PSUBSCRIBE. *)
Theorem subscribe_unsubscribe_round_trip :
  forall (cls : list bytes) (q : nat)
         (subs subs1 : list (bytes * list nat)) (new glob : list bytes),
    NoDup cls ->
    (forall k qs, In k cls -> dict_get subs k = Some qs ->
       qs <> [] /\ ~ In q qs) ->
    add_loop (map (fun k : bytes => (k, q)) cls) (subs, [], [])
    = (subs1, new, glob) ->
    exists subs2 rm rglob,
      rm_loop (map (fun k : bytes => (k, q)) cls) (subs1, [], [])
      = (None, (subs2, rm, rglob))
      /\ (forall k, dict_get subs2 k = dict_get subs k)
      /\ (forall k, In k rm <-> In k new)
      /\ (forall k, In k rglob <-> In k glob).
Proof.
  intros cls q subs subs1 new glob Hnd Hfresh Hadd.
  destruct (add_loop_get cls q Hnd subs [] []) as [Hin Hout].
  rewrite Hadd in Hin, Hout. cbn [fst] in Hin, Hout.
  set (before := fun k =>
         match dict_get subs k with Some qs => qs | None => [] end).
  assert (Hq : forall k, In k cls -> ~ In q (before k)).
  { intros k Hk. unfold before.
    destruct (dict_get subs k) as [qs|] eqn:Hg; [|intros []].
    now apply (Hfresh k qs). }
  assert (Hone : forall k, In k cls ->
            dict_get subs1 k = Some (before k ++ [q])).
  { intros k Hk. rewrite Hin by exact Hk. fold (before k).
    now rewrite set_add_fresh by (now apply Hq). }
  assert (Hnone : forall k, In k cls ->
            (dict_get subs1 k = Some [q] <-> dict_get subs k = None)).
  { intros k Hk. rewrite Hone by exact Hk. unfold before.
    destruct (dict_get subs k) as [qs|] eqn:Hg.
    - destruct (Hfresh k qs Hk Hg) as [Hne _].
      split; [|discriminate]. intros Heq. injection Heq as Heq.
      destruct qs as [|x [|y l]]; try discriminate Heq. now destruct Hne.
    - split; reflexivity. }
  destruct (rm_loop_fresh cls q Hnd subs1 [] [])
    as (subs2 & rm & rglob & Hrun & Hin2 & Hout2 & Hrm & Hgl).
  { intros k Hk. exists (before k). split; [now apply Hq | now apply Hone]. }
  apply add_loop_batches in Hadd as (_ & _ & Hnew & Hglob).
  exists subs2, rm, rglob. split; [exact Hrun|]. split; [|split].
  - intros k. destruct (in_dec (list_eq_dec Byte.byte_eq_dec) k cls)
      as [Hk|Hk].
    + rewrite (Hin2 k (before k) Hk (Hone k Hk) (Hq k Hk)). unfold before.
      destruct (dict_get subs k) as [qs|] eqn:Hg; [|reflexivity].
      destruct (Hfresh k qs Hk Hg) as [Hne _]. now destruct qs.
    + rewrite Hout2, Hout by exact Hk. reflexivity.
  - intros k. rewrite Hrm, Hnew, in_pairs_for. split.
    + intros [[]|(Hk & Hf & Hd)]. right. repeat split; auto.
      now apply Hnone.
    + intros [[]|(Hf & Hd & Hk)]. right. repeat split; auto.
      now apply Hnone.
  - intros k. rewrite Hgl, Hglob, in_pairs_for. split.
    + intros [[]|(Hk & Hf & Hd)]. right. repeat split; auto.
      now apply Hnone.
    + intros [[]|(Hf & Hd & Hk)]. right. repeat split; auto.
      now apply Hnone.
Qed.

End HubRoundTrip.

(* ===================================================================== *)
(** ** Published messages *)
(* ===================================================================== *)

Section Delivery.

Context {E : Env}.

(** Without a pending wake-up the wait on the signal is a plain read. *)
Lemma _get_response_no_wake self w c :
  wakes c = [] -> _get_response self w c = _get_response self None c.
Proof.
  intros H. unfold _get_response.
  destruct (sig_truthy w); [|reflexivity]. cbn [sig_truthy].
  unfold bind, first_until_eol. rewrite H. unfold bind, ret.
  now destruct (until_eol c) as [[l|e|] c1].
Qed.

Lemma decoded_as_bytes self b :
  decode_responses self = false -> decoded_as self b (ABytes b).
Proof. intros H. unfold decoded_as. now rewrite H. Qed.

Lemma decoded_all_bytes self all :
  decode_responses self = false ->
  Forall2 (decoded_as self) all (map ABytes all).
Proof.
  intros H. induction all; constructor; auto using decoded_as_bytes.
Qed.

Lemma get_from_subscriptions_first self w c v c' :
  Cmd.subscription_turn self w c = (Return (Some v), c') ->
  Cmd.get_from_subscriptions self w c = (Return v, c').
Proof.
  intros H. unfold Cmd.get_from_subscriptions. cbn [Cmd.subscription_loop].
  unfold bind. now rewrite H.
Qed.

(** X15.  A message published on a channel and read from the wire is
    put, with the channel's name, in every queue subscribed to that
    channel, and a message matched by a pattern in every queue
    subscribed to the pattern; exactly the message is consumed.  This
    is for a hub that keeps replies as bytes and has nothing pending. *)
Theorem published_message_reaches_queues :
  forall (h : RedisSubHub) (key ch payload : bytes) (qs : list nat)
         (rest : bytes) (log : list bytes),
    sub_adds h = [] -> sub_rms h = [] ->
    decode_responses (config h) = false ->
    dict_get (subs h) key = Some qs ->
    hub_dispatch h
      (mkConn (resp_array [bs "message"; key; payload] ++ rest) log [])
    = (Return tt, put_all h qs (ABytes key, ABytes payload),
       mkConn rest log [])
    /\ hub_dispatch h
         (mkConn (resp_array [bs "pmessage"; key; ch; payload] ++ rest)
            log [])
       = (Return tt, put_all h qs (ABytes ch, ABytes payload),
          mkConn rest log []).
Proof.
  intros h key ch payload qs rest log Ha Hr Hd Hq.
  unfold hub_dispatch. rewrite Ha, Hr. split.
  - rewrite (get_from_subscriptions_first _ _ _
               (VReply (Multi [ABytes key; ABytes key; ABytes payload]))
               (mkConn rest log [])).
    + cbn [val_truthy truthy]. now rewrite Hq.
    + unfold Cmd.subscription_turn. unfold bind at 1.
      rewrite _get_response_no_wake by reflexivity.
      rewrite (array_round_trip (config h) _ _ rest log []
                 (decoded_all_bytes (config h) _ Hd)).
      reflexivity.
  - rewrite (get_from_subscriptions_first _ _ _
               (VReply (Multi [ABytes key; ABytes ch; ABytes payload]))
               (mkConn rest log [])).
    + cbn [val_truthy truthy]. now rewrite Hq.
    + unfold Cmd.subscription_turn. unfold bind at 1.
      rewrite _get_response_no_wake by reflexivity.
      rewrite (array_round_trip (config h) _ _ rest log []
                 (decoded_all_bytes (config h) _ Hd)).
      reflexivity.
Qed.

(** *** Replies decoded to text *)

Lemma yields_ret {A} (a : A) (P : A -> Prop) : P a -> yields (ret a) P.
Proof. intros H c a' c' Heq. now injection Heq as <- _. Qed.

Lemma yields_raise {A} e (P : A -> Prop) : yields (raise e) P.
Proof. intros c a c' Heq. discriminate Heq. Qed.

Lemma yields_bind {A B} (m : M A) (k : A -> M B) P Q :
  yields m P -> (forall a, P a -> yields (k a) Q) -> yields (bind m k) Q.
Proof.
  intros Hm Hk c b c' Heq. unfold bind in Heq.
  destruct (m c) as [[a|e|] c1] eqn:Hmc; try discriminate Heq.
  exact (Hk a (Hm _ _ _ Hmc) _ _ _ Heq).
Qed.

Lemma yields_any {A} (m : M A) : yields m (fun _ => True).
Proof. now intros c a c' _. Qed.

Lemma yields_then {A B} (m : M A) (k : A -> M B) Q :
  (forall a, yields (k a) Q) -> yields (bind m k) Q.
Proof.
  intros Hk. apply (yields_bind m k (fun _ => True) Q (yields_any m)).
  intros a _. apply Hk.
Qed.

Section Decoded.

Variable self : RedisClient.

Hypothesis Hdec : decode_responses self = true.

Lemma _decode_response_text a :
  yields (_decode_response self a) (fun a' => atom_is_bytes a' = false).
Proof.
  destruct a; cbn [_decode_response]; try (now apply yields_ret).
  rewrite Hdec. apply yields_then. intros t. now apply yields_ret.
Qed.

Lemma existsb_snoc (l : list atom) a :
  existsb atom_is_bytes l = false -> atom_is_bytes a = false ->
  existsb atom_is_bytes (l ++ [a]) = false.
Proof. intros Hl Ha. rewrite existsb_app, Hl. cbn. now rewrite Ha. Qed.

Lemma read_elements_text n : forall resp,
  existsb atom_is_bytes resp = false ->
  yields (read_elements self n resp)
    (fun l => existsb atom_is_bytes l = false).
Proof.
  induction n as [|n IH]; intros resp Hr; cbn [read_elements].
  { now apply yields_ret. }
  apply yields_then; intros hl. apply yields_then; intros c_hl.
  destruct (negb _); [apply yields_raise|].
  destruct (Byte.eqb c_hl "$").
  - apply yields_then; intros l. destruct (l =? -1).
    + apply IH. now apply existsb_snoc.
    + apply yields_then; intros data.
      eapply yields_bind; [apply _decode_response_text|].
      intros a Ha. apply yields_then; intros _.
      apply IH. now apply existsb_snoc.
  - destruct (Byte.eqb c_hl ":").
    + apply yields_then; intros z. apply IH. now apply existsb_snoc.
    + eapply yields_bind; [apply _decode_response_text|].
      intros a Ha. apply IH. now apply existsb_snoc.
Qed.

Lemma decode_line_text fl :
  yields (decode_line self fl) (fun r => holds_bytes r = false).
Proof.
  unfold decode_line. apply yields_then; intros c.
  destruct (Byte.eqb c "+").
  { eapply yields_bind; [apply _decode_response_text|].
    intros a Ha. now apply yields_ret. }
  destruct (Byte.eqb c "$").
  { apply yields_then; intros l. destruct (l =? -1).
    - eapply yields_bind; [apply _decode_response_text|].
      intros a Ha. now apply yields_ret.
    - apply yields_then; intros resp. apply yields_then; intros _.
      eapply yields_bind; [apply _decode_response_text|].
      intros a Ha. now apply yields_ret. }
  destruct (Byte.eqb c "*").
  { apply yields_then; intros count. destruct (count =? -1).
    - now apply yields_ret.
    - eapply yields_bind; [now apply read_elements_text|].
      intros l Hl. now apply yields_ret. }
  destruct (Byte.eqb c ":").
  { apply yields_then; intros z. now apply yields_ret. }
  destruct (Byte.eqb c "-"); [apply yields_raise | now apply yields_ret].
Qed.

Lemma _get_response_text w :
  yields (_get_response self w) (fun r => holds_bytes r = false).
Proof.
  unfold _get_response. destruct (sig_truthy w).
  - apply yields_then. intros [val|]; [apply decode_line_text|].
    now apply yields_ret.
  - apply yields_then. intros line. apply decode_line_text.
Qed.

Lemma subscription_turn_text w :
  yields (Cmd.subscription_turn self w)
    (fun t => t = None \/ t = Some VNone).
Proof.
  unfold Cmd.subscription_turn.
  eapply yields_bind; [apply _get_response_text|].
  intros r Hr. destruct (truthy r); [|apply yields_ret; now right].
  destruct r as [[| | |]|[|r0 tl]]; try apply yields_raise;
    try (apply yields_ret; now left).
  cbn [holds_bytes existsb] in Hr. apply orb_false_iff in Hr as [H0 _].
  destruct r0; try discriminate H0; cbn [atom_eq_bytes];
    apply yields_ret; now left.
Qed.

Lemma subscription_loop_text w fuel :
  yields (Cmd.subscription_loop self w fuel)
    (fun t => t = None \/ t = Some VNone).
Proof.
  induction fuel as [|fuel IH]; cbn [Cmd.subscription_loop].
  { apply yields_ret. now left. }
  eapply yields_bind; [apply subscription_turn_text|].
  intros t [->| ->]; [exact IH|]. apply yields_ret. now right.
Qed.

Lemma get_from_subscriptions_text w :
  yields (Cmd.get_from_subscriptions self w) (fun v => v = VNone).
Proof.
  intros c v c' H. unfold Cmd.get_from_subscriptions in H.
  destruct (Cmd.subscription_loop self w (S (length (inbuf c))) c)
    as [[[v'|]|e|] c1] eqn:Hl; try discriminate H.
  injection H as <- _.
  destruct (subscription_loop_text w _ _ _ _ Hl) as [Hn|Hs];
    [discriminate Hn | now injection Hs].
Qed.

End Decoded.

(** X16.  A client that decodes replies to text never returns a
    published message from [get_from_subscriptions]: the decoded first
    element is not equal to the bytes the loop compares it with, so the
    only value the call returns is [None]. *)
Theorem decoded_client_sees_no_message :
  forall (self : RedisClient) (wake_sig : option text) (c c' : conn)
         (v : pyval),
    decode_responses self = true ->
    Cmd.get_from_subscriptions self wake_sig c = (Return v, c') ->
    v = VNone.
Proof.
  intros self w c c' v Hdec H.
  exact (get_from_subscriptions_text self Hdec w c v c' H).
Qed.

(** X17.  A hub built with [decode_responses] set never puts anything
    in a queue: a turn of its loop leaves the log of deliveries as it
    was. *)
Theorem decoding_hub_delivers_nothing :
  forall (h : RedisSubHub) (c : conn),
    decode_responses (config h) = true ->
    delivered (snd (fst (hub_turn h c))) = delivered h.
Proof.
  intros h c Hdec.
  assert (Hadd : forall h0 c0,
            delivered (snd (fst (hub_additions h0 c0))) = delivered h0
            /\ config (snd (fst (hub_additions h0 c0))) = config h0).
  { intros h0 c0. unfold hub_additions.
    destruct (sub_adds h0) as [|p sa]; [now split|].
    destruct (add_loop (p :: sa) (subs h0, [], [])) as [[s n] g].
    now destruct ((_ ;;; _) c0). }
  assert (Hrm : forall h0 c0,
            delivered (snd (fst (hub_removals h0 c0))) = delivered h0
            /\ config (snd (fst (hub_removals h0 c0))) = config h0).
  { intros h0 c0. unfold hub_removals.
    destruct (sub_rms h0) as [|p sr]; [now split|].
    destruct (rm_loop (p :: sr) (subs h0, [], [])) as [[e|] [[s n] g]];
      [now split|].
    now destruct ((_ ;;; _) c0). }
  assert (Hdis : forall h0 c0,
            decode_responses (config h0) = true ->
            delivered (snd (fst (hub_dispatch h0 c0))) = delivered h0).
  { intros h0 c0 Hd. unfold hub_dispatch.
    destruct (sub_rms h0), (sub_adds h0); try reflexivity.
    destruct (Cmd.get_from_subscriptions (config h0)
                (Some (sub_wake_signal h0)) c0) as [[v|e|] c1] eqn:Hg;
      try reflexivity.
    apply (get_from_subscriptions_text (config h0) Hd) in Hg. now subst v. }
  unfold hub_turn.
  destruct (Hadd h c) as [Hd1 Hc1].
  destruct (hub_additions h c) as [[[[]|e|] h1] c1]; cbn [fst snd] in *;
    try exact Hd1.
  destruct (Hrm h1 c1) as [Hd2 Hc2].
  destruct (hub_removals h1 c1) as [[[[]|e|] h2] c2]; cbn [fst snd] in *;
    try congruence.
  rewrite Hdis by congruence. congruence.
Qed.

End Delivery.

(* ===================================================================== *)
(** ** What a command method writes *)
(* ===================================================================== *)

Create HintDb reading.

#[global] Hint Resolve reader_ret reader_raise reader_of_option
  reader_of_sum reader_until_eol reader_receive reader_first_byte
  reader_int_ reader__decode_response reader_read_elements
  reader_decode_line reader_first_until_eol reader__get_response : reading.

Ltac reading :=
  repeat first
    [ solve [auto with reading]
    | match goal with
      | |- reader (bind _ _) => apply reader_bind; [|intros]
      | |- reader (if ?b then _ else _) => destruct b
      | |- reader (match ?o with Some _ => _ | None => _ end) => destruct o
      end ].

Section Requests.

Context {E : Env}.

Variable self : RedisClient.

Lemma reader_py_len r : reader (py_len r).
Proof. unfold py_len. destruct (as_sequence r); auto with reading. Qed.

Lemma reader_py_tuple r : reader (py_tuple r).
Proof. unfold py_tuple. destruct (as_sequence r); auto with reading. Qed.

Lemma reader_py_set r : reader (py_set r).
Proof. unfold py_set. destruct (as_sequence r); auto with reading. Qed.

Lemma reader_py_int r : reader (py_int r).
Proof. destruct r as [[| | |]|]; cbn [py_int]; reading. Qed.

Lemma reader_float_atom a : reader (float_atom a).
Proof. destruct a; cbn [float_atom]; auto with reading. Qed.

Lemma reader_py_float r : reader (py_float r).
Proof.
  destruct r; cbn [py_float]; [|auto with reading].
  apply reader_bind; [apply reader_float_atom | intros; apply reader_ret].
Qed.

Lemma reader_pair_scores s : reader (pair_scores s).
Proof.
  remember (length s) as n eqn:Hn. revert s Hn.
  induction n as [n IH] using lt_wf_ind. intros s Hn.
  destruct s as [|a [|b s]]; cbn [pair_scores]; auto with reading.
  apply reader_bind; [apply reader_float_atom|]. intros f.
  apply reader_bind; [|intros; apply reader_ret].
  apply (IH (length s)); [subst n; cbn; lia | reflexivity].
Qed.

Lemma reader___pair_with_scores r : reader (__pair_with_scores r).
Proof.
  unfold __pair_with_scores. destruct (as_sequence r); auto with reading.
  apply reader_bind; [apply reader_pair_scores | intros; apply reader_ret].
Qed.

Lemma reader_raw_elements n : forall out, reader (Cmd.raw_elements n out).
Proof.
  induction n as [|n IH]; intros out; cbn [Cmd.raw_elements];
    [apply reader_ret|].
  reading; apply IH.
Qed.

Lemma reader_subscription_turn w : reader (Cmd.subscription_turn self w).
Proof.
  unfold Cmd.subscription_turn.
  apply reader_bind; [apply reader__get_response|]. intros r.
  destruct (truthy r); [|apply reader_ret].
  destruct r as [[| | |]|[|r0 tl]]; auto with reading.
  destruct (atom_eq_bytes r0 (bs "message")).
  - apply reader_bind; [apply reader_of_option | intros; apply reader_ret].
  - destruct (atom_eq_bytes r0 (bs "pmessage")); apply reader_ret.
Qed.

Lemma reader_subscription_loop w fuel :
  reader (Cmd.subscription_loop self w fuel).
Proof.
  induction fuel as [|fuel IH]; cbn [Cmd.subscription_loop];
    [apply reader_ret|].
  apply reader_bind; [apply reader_subscription_turn|].
  intros [v|]; [apply reader_ret | exact IH].
Qed.

Lemma reader_get_from_subscriptions w :
  reader (Cmd.get_from_subscriptions self w).
Proof.
  intros c. unfold Cmd.get_from_subscriptions.
  pose proof (reader_subscription_loop w (S (length (inbuf c))) c) as H.
  now destruct (Cmd.subscription_loop self w (S (length (inbuf c))) c)
    as [[[v|]|e|] c'].
Qed.

#[local] Hint Resolve reader_py_len reader_py_tuple reader_py_set
  reader_py_int reader_float_atom reader_py_float reader_pair_scores
  reader___pair_with_scores reader_raw_elements : reading.

Lemma one_request_reader {A} (m : M A) : reader m -> one_request m.
Proof. intros H c. left. apply H. Qed.

Lemma encode_all_nonempty v vs all :
  encode_all self (v :: vs) = inr all -> all <> [].
Proof.
  cbn [encode_all]. destruct (_encode self v); [discriminate|].
  destruct (encode_all self vs); [discriminate|].
  intros H. injection H as <-. discriminate.
Qed.

Lemma one_request_send {B} c0 args kw (k : unit -> M B) :
  (forall u, reader (k u)) -> one_request (bind (_send self c0 args kw) k).
Proof.
  intros Hk c. unfold bind.
  destruct (encode_all self
              (c0 :: match kw with Some l => l | None => args end))
    as [e|all] eqn:He.
  - rewrite (_send_fails self c0 args kw e c He). now left.
  - rewrite (_send_ok self c0 args kw all c He). right. exists all.
    split; [now apply encode_all_nonempty in He|].
    now destruct (Hk tt (sending c (request all))) as [-> _].
Qed.

Lemma one_request_send_star {B} args (k : unit -> M B) :
  (forall u, reader (k u)) -> one_request (bind (send_star self args) k).
Proof.
  intros Hk. destruct args as [|c0 rest]; cbn [send_star].
  - apply one_request_reader. intros c. cbn. auto.
  - now apply one_request_send.
Qed.

Lemma one_request_after {A B} (m : M A) (k : A -> M B) :
  reader m -> (forall a, one_request (k a)) -> one_request (bind m k).
Proof.
  intros Hm Hk c. unfold bind. destruct (Hm c) as [Hs _].
  destruct (m c) as [[a|e|] c1]; cbn [snd] in *; try (now left).
  rewrite <- Hs. apply Hk.
Qed.

Ltac head_of t :=
  lazymatch t with
  | ?f _ => head_of f
  | _ => t
  end.

Ltac send_one :=
  cbv beta iota zeta;
  first
    [ apply one_request_send; intros; cbv beta; reading
    | apply one_request_send_star; intros; cbv beta; reading ].

Ltac one_request :=
  match goal with
  | |- one_request ?m => let h := head_of m in unfold h
  end;
  send_one.

(** X18.  A call of a command method writes nothing at all or exactly
    one whole request, a multi-bulk array with at least the command's
    name; it never leaves part of a request on the wire and never writes
    a second one. *)
Theorem command_writes_one_request :
  forall (m : call) (c : conn),
    sent (snd (invoke self m c)) = sent c
    \/ exists all,
         all <> []
         /\ sent (snd (invoke self m c)) = sent c ++ request all.
Proof.
  intros m. change (one_request (invoke self m)).
  destruct m; cbn [invoke]; try (solve [one_request]).
  - (* expireat *)
    unfold Cmd.expireat. apply one_request_after; [reading|].
    intros t. send_one.
  - (* zrangebyscore *)
    unfold Cmd.zrangebyscore. apply one_request_after.
    + destruct (arg_truthy offset); [destruct count|]; reading.
    + intros args. send_one.
  - (* hmset *)
    unfold Cmd.hmset.
    destruct d as [|kv d]; [apply one_request_reader; reading | send_one].
  - (* hmget *)
    unfold Cmd.hmget.
    destruct l as [|k l]; [apply one_request_reader; reading | send_one].
  - (* get_from_subscriptions *)
    apply one_request_reader, reader_get_from_subscriptions.
  - (* send_raw_command *)
    unfold Cmd.send_raw_command.
    destruct arguments as [|c0 rest];
      [apply one_request_reader; reading | send_one].
Qed.

End Requests.

(* ===================================================================== *)
(** ** Commands that do not read, arguments built by the methods *)
(* ===================================================================== *)

Section MoreCommands.

Context {E : Env}.

Variable self : RedisClient.

Lemma send_only_outcome c0 args kw c :
  inbuf (snd (bind (_send self c0 args kw) (fun _ => ret VNone) c)) = inbuf c
  /\ (fst (bind (_send self c0 args kw) (fun _ => ret VNone) c)
      = Return VNone
      \/ exists e,
           bind (_send self c0 args kw) (fun _ => ret VNone) c
           = (Raise e, c)).
Proof.
  unfold bind.
  destruct (_send_cases self c0 args kw c) as [[e ->]|[chunks ->]].
  - split; [reflexivity|]. right. now exists e.
  - split; [reflexivity|]. now left.
Qed.

(** X19.  [move] and the four subscription commands send their request
    and return [None] without reading: the unread input, with the
    server's reply to them when it comes, is left for whoever reads
    next.  The only other outcome is a failure to encode, before
    anything is sent. *)
Theorem sending_methods_leave_reply_unread :
  forall (m : call) (c : conn),
    sends_only m = true ->
    inbuf (snd (invoke self m c)) = inbuf c
    /\ (fst (invoke self m c) = Return VNone
        \/ exists e, invoke self m c = (Raise e, c)).
Proof.
  intros m c H.
  destruct m; cbn [sends_only] in H; try discriminate H; cbn [invoke];
    apply send_only_outcome.
Qed.

Lemma encode_letter n :
  ascii_compatible self -> (n <? 128)%N = true ->
  _encode self (ArgStr [n]) = inr [byte_of_N n].
Proof.
  intros Hascii Hn. unfold _encode. cbn [_encode_text].
  rewrite (Hascii [n]); [reflexivity|]. cbn [ascii_text forallb].
  now rewrite Hn.
Qed.

(** X20.  With [alpha] set, [sort] does not send the word ALPHA: the
    text is added to the argument list letter by letter, and the
    request carries the five one-letter elements A, L, P, H, A after
    the order. *)
Theorem sort_alpha_sends_letters :
  forall (key order : arg) (k o : bytes) (c : conn),
    ascii_compatible self ->
    _encode self key = inr k ->
    _encode self order = inr o ->
    sent (snd (Cmd.sort self key ArgNone [] ArgNone order true ArgNone c))
    = sent c
      ++ request [bs "SORT"; k; o; bs "A"; bs "L"; bs "P"; bs "H"; bs "A"].
Proof.
  intros key order k o c Hascii Hk Ho.
  unfold Cmd.sort. cbn [arg_truthy app map txt].
  rewrite (command_exchange self (cmd "SORT") _ None
             [bs "SORT"; k; o; bs "A"; bs "L"; bs "P"; bs "H"; bs "A"]).
  - apply exchange_sent. intros r. apply reader_ret.
  - cbn [encode_all]. rewrite (encode_name self Hascii "SORT" eq_refl).
    rewrite Hk, Ho.
    change (map (fun ch : N => ArgStr [ch]) (txt "ALPHA"))
      with [ArgStr [65%N]; ArgStr [76%N]; ArgStr [80%N]; ArgStr [72%N];
            ArgStr [65%N]].
    cbn [encode_all].
    rewrite (encode_letter 65 Hascii eq_refl).
    rewrite (encode_letter 76 Hascii eq_refl).
    rewrite (encode_letter 80 Hascii eq_refl).
    rewrite (encode_letter 72 Hascii eq_refl).
    reflexivity.
Qed.

Lemma flatten_items (d : list (arg * arg)) :
  flatten_arg_pairs (items d) = flat_map (fun kv => [fst kv; snd kv]) d.
Proof.
  unfold flatten_arg_pairs, items.
  assert (H : forall acc,
            fold_left (fun o i => o ++ i)
              (map (fun kv : arg * arg => [fst kv; snd kv]) d) acc
            = acc ++ flat_map (fun kv => [fst kv; snd kv]) d).
  { induction d as [|kv d IH]; intros acc; cbn [map fold_left flat_map].
    - now rewrite app_nil_r.
    - rewrite IH. now rewrite <- app_assoc. }
  apply (H []).
Qed.

(** X21.  [mset] and [hmset] send the mapping flattened: after the
    command (and the key of the hash) come the encoded key and value of
    each item, in the order of the mapping. *)
Theorem mapping_sent_in_order :
  forall (key : arg) (d : list (arg * arg)) (all : list bytes) (c : conn),
    Forall2 (coerced self) (flat_map (fun kv => [fst kv; snd kv]) d) all ->
    (forall name,
       coerced self (cmd "MSET") name ->
       sent (snd (Cmd.mset self d c)) = sent c ++ request (name :: all))
    /\ (forall name k,
          coerced self (cmd "HMSET") name -> coerced self key k ->
          d <> [] ->
          sent (snd (Cmd.hmset self key d c))
          = sent c ++ request (name :: k :: all)).
Proof.
  intros key d all c Hall. split.
  - intros name Hn. unfold Cmd.mset.
    rewrite (command_exchange self (cmd "MSET") [] (Some _) (name :: all)).
    + apply exchange_sent. intros r. apply reader_ret.
    + rewrite flatten_items. apply encode_all_coerced. now constructor.
  - intros name k Hn Hk Hd. unfold Cmd.hmset.
    destruct d as [|kv d]; [now destruct Hd|].
    rewrite (command_exchange self (cmd "HMSET") [] (Some _)
               (name :: k :: all)).
    + apply exchange_sent. intros r. apply reader_ret.
    + rewrite flatten_items. apply encode_all_coerced.
      constructor; [exact Hn|]. now constructor.
Qed.

End MoreCommands.

(* ===================================================================== *)
(** ** The sets of queues *)
(* ===================================================================== *)

Section HubSets.

Context {E : Env}.

Lemma NoDup_set_add_nat q qs : NoDup qs -> NoDup (set_add Nat.eqb q qs).
Proof.
  intros H. unfold set_add.
  destruct (existsb (Nat.eqb q) qs) eqn:He; [exact H|].
  apply NoDup_app; [exact H | repeat constructor; intros [] | ].
  intros x Hx [<-|[]].
  apply existsb_nat_eqb in Hx. congruence.
Qed.

Lemma set_add_nonempty q qs : set_add Nat.eqb q qs <> [].
Proof.
  unfold set_add. destruct (existsb (Nat.eqb q) qs) eqn:He.
  - intros ->. discriminate He.
  - now destruct qs.
Qed.

Lemma sets_sound_set subs k v :
  sets_sound subs -> v <> [] -> NoDup v -> sets_sound (dict_set subs k v).
Proof.
  intros Hs Hv Hn k' qs Hg.
  destruct (list_eq_dec Byte.byte_eq_dec k' k) as [->|Hne].
  - rewrite dict_get_set_same in Hg. injection Hg as <-. now split.
  - rewrite dict_get_set_other in Hg by exact Hne. now apply (Hs k').
Qed.

Lemma sets_sound_del subs k : sets_sound subs -> sets_sound (dict_del subs k).
Proof.
  intros Hs k' qs Hg.
  destruct (list_eq_dec Byte.byte_eq_dec k' k) as [->|Hne].
  - now rewrite dict_get_del_same in Hg.
  - rewrite dict_get_del_other in Hg by exact Hne. now apply (Hs k').
Qed.

Lemma add_loop_sound sa : forall subs new glob,
  sets_sound subs -> sets_sound (fst (fst (add_loop sa (subs, new, glob)))).
Proof.
  induction sa as [|[k q] sa IH]; intros subs new glob Hs; [exact Hs|].
  rewrite add_loop_cons.
  destruct (dict_get subs k) as [qs|] eqn:Hg; apply IH, sets_sound_set;
    auto using set_add_nonempty.
  - apply NoDup_set_add_nat. now apply (Hs k).
  - discriminate.
  - repeat constructor. intros [].
Qed.

Lemma rm_loop_sound sr : forall subs rm glob,
  sets_sound subs ->
  sets_sound (fst (fst (snd (rm_loop sr (subs, rm, glob))))).
Proof.
  induction sr as [|[k q] sr IH]; intros subs rm glob Hs; [exact Hs|].
  rewrite rm_loop_cons.
  destruct (dict_get subs k) as [qs|] eqn:Hg; [|exact Hs].
  destruct (set_remove Nat.eqb q qs) as [qs'|] eqn:Hr; [|exact Hs].
  apply set_remove_some in Hr as [_ Hf].
  destruct qs' as [|x qs'].
  - apply IH. now apply sets_sound_del.
  - apply IH. apply sets_sound_set; [exact Hs | discriminate |].
    rewrite Hf. apply NoDup_filter. now apply (Hs k).
Qed.

(** X22.  The hub keeps its sets of queues sound: when no channel has
    an empty set and no set holds a queue twice, the same is true after
    a turn of the loop, however the turn ends. *)
Theorem hub_turn_keeps_sets_sound :
  forall (h : RedisSubHub) (c : conn),
    sets_sound (subs h) ->
    sets_sound (subs (snd (fst (hub_turn h c)))).
Proof.
  intros h c Hs.
  assert (Hadd : forall h0 c0, sets_sound (subs h0) ->
            sets_sound (subs (snd (fst (hub_additions h0 c0))))).
  { intros h0 c0 H0. unfold hub_additions.
    destruct (sub_adds h0) as [|p sa]; [exact H0|].
    pose proof (add_loop_sound (p :: sa) (subs h0) [] [] H0) as Hl.
    destruct (add_loop (p :: sa) (subs h0, [], [])) as [[s n] g].
    now destruct ((_ ;;; _) c0). }
  assert (Hrm : forall h0 c0, sets_sound (subs h0) ->
            sets_sound (subs (snd (fst (hub_removals h0 c0))))).
  { intros h0 c0 H0. unfold hub_removals.
    destruct (sub_rms h0) as [|p sr]; [exact H0|].
    pose proof (rm_loop_sound (p :: sr) (subs h0) [] [] H0) as Hl.
    destruct (rm_loop (p :: sr) (subs h0, [], [])) as [[e|] [[s n] g]];
      [exact Hl|].
    now destruct ((_ ;;; _) c0). }
  assert (Hdis : forall h0 c0,
            subs (snd (fst (hub_dispatch h0 c0))) = subs h0).
  { intros h0 c0. unfold hub_dispatch.
    destruct (sub_rms h0), (sub_adds h0); try reflexivity.
    destruct (Cmd.get_from_subscriptions _ _ c0) as [[v|e|] c1];
      try reflexivity.
    destruct (val_truthy v); [|reflexivity].
    destruct v as [[a|[|cls [|k [|msg [|x l]]]]]| | | | | | |];
      try reflexivity.
    destruct cls; try reflexivity.
    now destruct (dict_get (subs h0) b). }
  unfold hub_turn.
  specialize (Hadd h c Hs).
  destruct (hub_additions h c) as [[[[]|e|] h1] c1]; cbn [fst snd] in *;
    try exact Hadd.
  specialize (Hrm h1 c1 Hadd).
  destruct (hub_removals h1 c1) as [[[[]|e|] h2] c2]; cbn [fst snd] in *;
    try exact Hrm.
  now rewrite Hdis.
Qed.

End HubSets.

(* ===================================================================== *)
(** ** More runs in the default configuration *)
(* ===================================================================== *)

(** *** X1, X2: frames read back *)

Lemma bulk_round_trip_witness :
  let payload := bs "a" ++ CRLF ++ bs "$3" in
  _get_response default_client None
    (incoming (bulk_frame payload ++ bs "+OK" ++ CRLF))
  = (Return (Scalar (ABytes payload)), incoming (bs "+OK" ++ CRLF)).
Proof.
  intros payload.
  exact (bulk_round_trip default_client payload (ABytes payload)
           (bs "+OK" ++ CRLF) [] [] eq_refl).
Defined.

Lemma request_round_trip_witness :
  let written :=
    wire (snd (_send default_client (cmd "SET")
                 [ArgBytes (bs "k"); ArgInt (-45)] None (incoming []))) in
  _get_response default_client None (incoming (written ++ bs ":1" ++ CRLF))
  = (Return (Multi [ABytes (bs "SET"); ABytes (bs "k"); ABytes (bs "-45")]),
     incoming (bs ":1" ++ CRLF)).
Proof.
  apply (request_round_trip default_client (cmd "SET")
           [ArgBytes (bs "k"); ArgInt (-45)]
           [bs "SET"; bs "k"; bs "-45"]
           [ABytes (bs "SET"); ABytes (bs "k"); ABytes (bs "-45")]
           (bs ":1" ++ CRLF) [] []).
  - apply encode_all_coerced. reflexivity.
  - apply (decoded_all_bytes default_client [bs "SET"; bs "k"; bs "-45"]).
    reflexivity.
Defined.

(** *** X4, X5: lines the decoder does not know *)

Lemma unknown_reply_is_none_witness :
  _get_response default_client None
    (incoming (bs "!oops" ++ CRLF ++ bs "+OK" ++ CRLF))
  = (Return RNone, incoming (bs "+OK" ++ CRLF)).
Proof.
  exact (unknown_reply_is_none default_client
           (incoming (bs "!oops" ++ CRLF ++ bs "+OK" ++ CRLF))
           (bs "!oops") (bs "+OK" ++ CRLF) "!"%byte (bs "oops")
           eq_refl eq_refl eq_refl).
Defined.


(** *** X7: a raw command *)

Lemma raw_command_witness :
  let reply := bs "$4" ++ CRLF ++ bs "PONG" ++ CRLF in
  let c := incoming (reply ++ bs "+OK" ++ CRLF) in
  Cmd.send_raw_command default_client [ArgBytes (bs "PING")] c
  = (Return (Cmd.raw reply),
     mkConn (bs "+OK" ++ CRLF) (request [bs "PING"]) [])
  /\ inbuf c = reply ++ bs "+OK" ++ CRLF.
Proof.
  intros reply c. split; [reflexivity|].
  exact (raw_command_returns_what_it_read eq_refl default_client
           [ArgBytes (bs "PING")] c
           (mkConn (bs "+OK" ++ CRLF) (request [bs "PING"]) [])
           reply eq_refl).
Defined.

(** *** X8: the state of a transaction after its block *)

Lemma transaction_state_witness :
  let body := Cmd.set default_client (ArgBytes (bs "a")) (ArgInt 1) in
  let c := incoming (bs "+OK" ++ CRLF ++ bs "+QUEUED" ++ CRLF
                       ++ bs "*-1" ++ CRLF) in
  let r := with_transaction sample_transaction body c in
  aborted (snd (fst r)) = true
  /\ exists e, fst (fst r) = Raise e.
Proof.
  intros body c r. split; [reflexivity|].
  exact (proj1 (proj2 (proj2
           (transaction_state_tells_outcome _ sample_transaction body c
              eq_refl eq_refl)))
           eq_refl).
Defined.

(** *** X10 to X14: the hub's bookkeeping *)

Lemma subq_then_additions_witness :
  let h1 := append_adds sample_hub [(bs "news", 1%nat)] in
  subq_enter sample_hub (inl (ArgStr (txt "news"))) 1 = inr (h1, [bs "news"])
  /\ subscribed (subs (snd (fst (hub_additions h1 (incoming [])))))
       (bs "news") 1.
Proof.
  intros h1. split; [reflexivity|].
  exact (proj1 (subq_then_additions_subscribe sample_hub h1
                  (inl (ArgStr (txt "news"))) 1%nat [bs "news"]
                  (incoming []) eq_refl)
           (bs "news") (or_introl eq_refl)).
Defined.

Lemma additions_batches_witness :
  let sa := [(bs "news", 0%nat); (bs "n*", 1%nat); (bs "news", 1%nat);
             (bs "old", 1%nat)] in
  let before := [(bs "old", [0%nat])] in
  add_loop sa (before, [], [])
  = ([(bs "old", [0; 1]); (bs "news", [0; 1]); (bs "n*", [1])]%nat,
     [bs "news"], [bs "n*"])
  /\ NoDup [bs "news"] /\ NoDup [bs "n*"].
Proof.
  intros sa before. split; [reflexivity|].
  pose proof (additions_batches sa before _ _ _ eq_refl) as H.
  exact (conj (proj1 H) (proj1 (proj2 H))).
Defined.

Lemma removals_raise_KeyError_witness :
  let h := mkHub default_client (txt "wake") [] [(bs "news", 1%nat)]
             [(bs "news", [0%nat])] [] in
  exists h',
    hub_removals h (incoming []) = (Raise KeyError, h', incoming [])
    /\ sub_rms h' = [].
Proof.
  intros h. apply removals_raise_KeyError. left.
  exists (bs "news"), 1%nat. split; [now left|].
  intros (qs & Hg & Hin). injection Hg as <-.
  destruct Hin as [Hq|[]]. discriminate Hq.
Defined.

Lemma subq_repeated_class_witness :
  let h1 := append_adds sample_hub [(bs "7", 1%nat); (bs "7", 1%nat)] in
  subq_enter sample_hub (inr [ArgInt 7; ArgStr (txt "7")]) 1
  = inr (h1, [bs "7"; bs "7"])
  /\ exists h',
       hub_removals (subq_exit h1 [bs "7"; bs "7"] 1) (incoming [])
       = (Raise KeyError, h', incoming [])
       /\ sub_rms h' = [].
Proof.
  intros h1. split; [reflexivity|].
  apply (subq_repeated_class_breaks_removals sample_hub h1 h1
           (inr [ArgInt 7; ArgStr (txt "7")]) 1%nat [bs "7"; bs "7"]
           (incoming []) eq_refl).
  intros H. inversion H as [|x l Hn _]. apply Hn. now left.
Defined.

Lemma subscribe_unsubscribe_witness :
  let cls := [bs "news"; bs "n*"] in
  let before := [(bs "news", [0%nat])] in
  let pairs := map (fun k : bytes => (k, 1%nat)) cls in
  add_loop pairs (before, [], [])
  = ([(bs "news", [0; 1]); (bs "n*", [1])]%nat, [], [bs "n*"])
  /\ exists subs2 rm rglob,
       rm_loop pairs ([(bs "news", [0; 1]); (bs "n*", [1])]%nat, [], [])
       = (None, (subs2, rm, rglob))
       /\ (forall k, dict_get subs2 k = dict_get before k)
       /\ (forall k, In k rm <-> In k [])
       /\ (forall k, In k rglob <-> In k [bs "n*"]).
Proof.
  intros cls before pairs. split; [reflexivity|].
  apply (subscribe_unsubscribe_round_trip cls 1%nat before).
  - apply NoDup_cons; [intros [H|[]]; discriminate H|].
    apply NoDup_cons; [intros [] | apply NoDup_nil].
  - intros k qs [<-|[<-|[]]] H; [|discriminate H].
    injection H as <-. split; [discriminate|].
    intros [Hq|[]]. discriminate Hq.
  - reflexivity.
Defined.

(** *** X15 to X17: messages *)

Lemma published_message_witness :
  let h := mkHub default_client (txt "wake") [] []
             [(bs "news", [0; 1]%nat)] [] in
  hub_dispatch h
    (incoming (resp_array [bs "message"; bs "news"; bs "hi"]
                 ++ bs "+OK" ++ CRLF))
  = (Return tt,
     put_all h [0; 1]%nat (ABytes (bs "news"), ABytes (bs "hi")),
     incoming (bs "+OK" ++ CRLF)).
Proof.
  intros h.
  exact (proj1 (published_message_reaches_queues h (bs "news") []
                  (bs "hi") [0; 1]%nat (bs "+OK" ++ CRLF) []
                  eq_refl eq_refl eq_refl eq_refl)).
Defined.

Lemma decoded_client_witness :
  let c := mkConn (resp_array [bs "message"; bs "news"; bs "hi"]) []
             [false; true] in
  Cmd.get_from_subscriptions decoding_client (Some (txt "wake")) c
  = (Return VNone, incoming [])
  /\ VNone = VNone.
Proof.
  intros c. split; [reflexivity|].
  exact (decoded_client_sees_no_message decoding_client (Some (txt "wake"))
           c (incoming []) VNone eq_refl eq_refl).
Defined.

Lemma decoding_hub_witness :
  let h := mkHub decoding_client (txt "wake") [] []
             [(bs "news", [0%nat])] [] in
  let c := mkConn (resp_array [bs "message"; bs "news"; bs "hi"]) []
             [false; true] in
  hub_turn h c = (Return tt, h, incoming [])
  /\ delivered (snd (fst (hub_turn h c))) = [].
Proof.
  intros h c. split; [reflexivity|].
  exact (decoding_hub_delivers_nothing h c eq_refl).
Defined.

(** *** X19 to X22: commands and sets *)

Lemma sending_methods_witness :
  let c := incoming (bs ":1" ++ CRLF) in
  inbuf (snd (Cmd.move default_client (ArgBytes (bs "k")) (ArgInt 1) c))
  = bs ":1" ++ CRLF.
Proof.
  intros c.
  exact (proj1 (sending_methods_leave_reply_unread default_client
                  (C_move (ArgBytes (bs "k")) (ArgInt 1)) c eq_refl)).
Defined.

Lemma sort_alpha_witness :
  sent (snd (Cmd.sort default_client (ArgBytes (bs "l")) ArgNone [] ArgNone
               (ArgStr (txt "ASC")) true ArgNone
               (incoming (bs "*0" ++ CRLF))))
  = request [bs "SORT"; bs "l"; bs "ASC";
             bs "A"; bs "L"; bs "P"; bs "H"; bs "A"].
Proof.
  exact (sort_alpha_sends_letters default_client (ArgBytes (bs "l"))
           (ArgStr (txt "ASC")) (bs "l") (bs "ASC")
           (incoming (bs "*0" ++ CRLF))
           default_ascii_compatible eq_refl eq_refl).
Defined.

Lemma mapping_sent_witness :
  let d := [(ArgBytes (bs "a"), ArgInt 1); (ArgStr (txt "b"), ArgInt 2)] in
  sent (snd (Cmd.mset default_client d (incoming (bs "+OK" ++ CRLF))))
  = request [bs "MSET"; bs "a"; bs "1"; bs "b"; bs "2"].
Proof.
  intros d.
  apply (mapping_sent_in_order default_client ArgNone d
           [bs "a"; bs "1"; bs "b"; bs "2"] (incoming (bs "+OK" ++ CRLF))).
  - apply encode_all_coerced. reflexivity.
  - apply _encode_coerced. reflexivity.
Defined.

Lemma hub_sets_witness :
  let h := mkHub default_client (txt "wake") [(bs "news", 1%nat)]
             [(bs "old", 0%nat)] [(bs "old", [0%nat])] [] in
  sets_sound (subs (snd (fst (hub_turn h (incoming []))))).
Proof.
  intros h. apply hub_turn_keeps_sets_sound.
  intros k qs H.
  change (dict_get [(bs "old", [0%nat])] k = Some qs) in H.
  cbn [dict_get] in H.
  destruct (bytes_eqb (bs "old") k); [|discriminate H].
  injection H as <-. split; [discriminate|].
  repeat constructor. intros [].
Defined.
